(** * Shape shift: event controller and audio engine

    A shallow embedding of the event system ([event-system.ts]: the reducer
    and the effect deriver of [EventSystem]), of the audio player
    ([audio-player.ts]: the [AudioPlayer] class and the part of the Web
    Audio graph it drives) and of the [LOAD_SCENE_AUDIO] glue of the
    application ([main.ts]), with the properties checked against them.

    Conventions.
    - Scene indices and counts are JavaScript numbers that only ever hold
      integers; they are modelled as [Z].
    - Times and sample rates are modelled as exact rationals [Q]; [NaN] and
      the rounding of IEEE doubles are outside the model.
    - A JavaScript object has an identity; [!==] on two state objects
      compares identities, not fields.  State objects are never mutated, so
      an object is a pair of an address and its fields, and every object
      literal [{...state, f: v}] takes a fresh address.
    - All code runs on one event loop.  An [async] function is cut at its
      [await]s into a synchronous head and continuations; a world holds the
      pending continuations, and a step runs one call head, one
      continuation or one platform event to its next [await].
    - Of Web Audio the model keeps what the player relies on: nodes and
      their connections, [createBuffer] refusing an empty buffer,
      [stop()] refusing a node that was never started, the context's
      [suspend()] and [resume()], and the [ended] event, dispatched once
      per started source node when it stops playing. *)

From Stdlib Require Import ZArith QArith Qround List Bool Lia Arith String.
From Stdlib Require Import DecimalString.
From stdpp Require Import base list gmap strings sorting.
Import ListNotations.

(* ====================================================================== *)
(** * The event system ([src/event-system.ts]) *)
(* ====================================================================== *)

Module EventSystem.

Local Open Scope Z_scope.

Record AppState := mkAppState {
  currentSceneIndex : Z;
  isAutoMode : bool;
  isPlaying : bool;
  totalScenes : Z;
  projectLoaded : bool
}.

Inductive AppEvent :=
| PROJECT_LOADED (totalScenes : Z)
| SCENE_NAVIGATE (direction : Z)
| SCENE_SET (index : Z)
| MODE_TOGGLE
| PLAY_PAUSE
| AUDIO_STARTED
| AUDIO_STOPPED
| AUTO_ADVANCE.

Inductive AppEffect :=
| LOAD_SCENE_AUDIO (sceneIndex : Z)
| UPDATE_UI
| STOP_AUDIO
| ADVANCE_SCENE.

(** A state object: its identity and its fields. *)
Record StateObj := mkObj { addr : nat; val : AppState }.

(** [{ ...state, <overrides> }]: a new object, at the address [fresh]. *)
Definition spread (fresh : nat) (fields : AppState) : StateObj :=
  {| addr := fresh; val := fields |}.

Definition with_index (s : AppState) (i : Z) : AppState :=
  {| currentSceneIndex := i; isAutoMode := isAutoMode s;
     isPlaying := isPlaying s; totalScenes := totalScenes s;
     projectLoaded := projectLoaded s |}.

Definition with_auto (s : AppState) (b : bool) : AppState :=
  {| currentSceneIndex := currentSceneIndex s; isAutoMode := b;
     isPlaying := isPlaying s; totalScenes := totalScenes s;
     projectLoaded := projectLoaded s |}.

Definition with_playing (s : AppState) (b : bool) : AppState :=
  {| currentSceneIndex := currentSceneIndex s; isAutoMode := isAutoMode s;
     isPlaying := b; totalScenes := totalScenes s;
     projectLoaded := projectLoaded s |}.

(** [EventSystem.reduce].  [fresh] is the address the next object literal
    gets; the branches that [return state] hand back the argument itself. *)
Definition reduce (fresh : nat) (state : StateObj) (event : AppEvent)
  : StateObj :=
  let s := val state in
  match event with
  | PROJECT_LOADED n =>
      spread fresh
        {| currentSceneIndex := 1; isAutoMode := isAutoMode s;
           isPlaying := isPlaying s; totalScenes := n;
           projectLoaded := true |}
  | SCENE_NAVIGATE direction =>
      let newIndex := currentSceneIndex s + direction in
      if (newIndex >=? 1) && (newIndex <=? totalScenes s)
      then spread fresh (with_index s newIndex)
      else state
  | SCENE_SET index =>
      if (index >=? 1) && (index <=? totalScenes s)
      then spread fresh (with_index s index)
      else state
  | MODE_TOGGLE => spread fresh (with_auto s (negb (isAutoMode s)))
  | PLAY_PAUSE => spread fresh (with_playing s (negb (isPlaying s)))
  | AUDIO_STARTED => spread fresh (with_playing s true)
  | AUDIO_STOPPED => spread fresh (with_playing s false)
  | AUTO_ADVANCE =>
      if negb (isAutoMode s) then state
      else
        let nextIndex := currentSceneIndex s + 1 in
        let newIndex :=
          if nextIndex <=? totalScenes s then nextIndex else 1 in
        spread fresh (with_index s newIndex)
  end.

Definition is_PROJECT_LOADED (e : AppEvent) : bool :=
  match e with PROJECT_LOADED _ => true | _ => false end.
Definition is_PLAY_PAUSE (e : AppEvent) : bool :=
  match e with PLAY_PAUSE => true | _ => false end.
Definition is_AUTO_ADVANCE (e : AppEvent) : bool :=
  match e with AUTO_ADVANCE => true | _ => false end.

(** [oldState !== newState]: two objects differ iff their addresses do. *)
Definition not_same_object (a b : StateObj) : bool :=
  negb (Nat.eqb (addr a) (addr b)).

(** [EventSystem.getEffects]: six independent rules, each pushing onto the
    end of the effect array. *)
Definition getEffects (oldState newState : StateObj) (event : AppEvent)
  : list AppEffect :=
  let o := val oldState in
  let n := val newState in
  (if not_same_object oldState newState then [UPDATE_UI] else [])
  ++ (if is_PROJECT_LOADED event
      then [LOAD_SCENE_AUDIO (currentSceneIndex n)] else [])
  ++ (if negb (currentSceneIndex o =? currentSceneIndex n)
      then [STOP_AUDIO; LOAD_SCENE_AUDIO (currentSceneIndex n)] else [])
  ++ (if negb (Bool.eqb (isAutoMode o) (isAutoMode n))
      then STOP_AUDIO ::
           (if isPlaying n || isAutoMode n
            then [LOAD_SCENE_AUDIO (currentSceneIndex n)] else [])
      else [])
  ++ (if is_PLAY_PAUSE event
      then (if isPlaying o then [STOP_AUDIO]
            else [LOAD_SCENE_AUDIO (currentSceneIndex n)])
      else [])
  ++ (if is_AUTO_ADVANCE event then [ADVANCE_SCENE] else []).

(** The controller: the stored state object and the allocator's next free
    address. *)
Record System := mkSystem { state : StateObj; nextAddr : nat }.

(** [new EventSystem(initialState)]: the constructor stores a copy. *)
Definition construct (initialState : AppState) : System :=
  {| state := spread 0 initialState; nextAddr := 1 |}.

(** [dispatch]: reduce, derive the effects from the old and the new object,
    store the new object.  The effects are returned in the order in which
    their handlers are invoked. *)
Definition dispatch (sys : System) (event : AppEvent)
  : System * list AppEffect :=
  let newState := reduce (nextAddr sys) (state sys) event in
  let effects := getEffects (state sys) newState event in
  ({| state := newState; nextAddr := S (nextAddr sys) |}, effects).

(** The singleton exported by the module. *)
Definition eventSystem : System :=
  construct {| currentSceneIndex := 1; isAutoMode := false;
               isPlaying := false; totalScenes := 0;
               projectLoaded := false |}.

(** Dispatching a list of events, oldest first. *)
Definition dispatchAll (sys : System) (events : list AppEvent) : System :=
  fold_left (fun s e => fst (dispatch s e)) events sys.

(** The state reached from the singleton by a list of events. *)
Definition reached (events : list AppEvent) : AppState :=
  val (state (dispatchAll eventSystem events)).

(** Every live object was allocated before the next free address. *)
Definition wf (sys : System) : Prop := (addr (state sys) < nextAddr sys)%nat.

(** The index is 1, or lies within the scenes. *)
Definition indexOk (s : AppState) : Prop :=
  currentSceneIndex s = 1 \/ 1 <= currentSceneIndex s <= totalScenes s.

(** The four events whose reducer branch is an object literal whatever the
    state. *)
Definition alwaysAllocates (ev : AppEvent) : Prop :=
  ev = MODE_TOGGLE \/ ev = PLAY_PAUSE \/ ev = AUDIO_STARTED \/
  ev = AUDIO_STOPPED.

End EventSystem.

(* ====================================================================== *)
(** * The audio player ([src/audio-player.ts]) *)
(* ====================================================================== *)

Module AudioPlayer.

(** ** Buffers *)

(** An element of a [Float32Array]: a number, or [NaN] (what storing
    [undefined] produces). *)
Inductive Sample := Num (q : Q) | NaN.

Definition silence : Sample := Num 0.

(** An [AudioBuffer]: [sampleRate], [length] in sample frames and one
    [Float32Array] per channel. *)
Record AudioBuffer := mkBuffer {
  sampleRate : Q;
  bufLength : nat;
  channels : list (list Sample)
}.

Definition numberOfChannels (b : AudioBuffer) : nat := length (channels b).

Definition getChannelData (b : AudioBuffer) (channel : nat) : list Sample :=
  default [] (channels b !! channel).

(** [buffer.duration]: length divided by sample rate, in seconds. *)
Definition duration (b : AudioBuffer) : Q :=
  (inject_Z (Z.of_nat (bufLength b)) / sampleRate b)%Q.

(** [audioContext.createBuffer(numberOfChannels, length, sampleRate)]: a
    zero-filled buffer.  Web Audio raises [NotSupportedError] when the number
    of channels or the length is zero or negative; [None] stands for that
    exception.  (The sample rate always comes from an existing buffer here,
    so the range check on it is not modelled.) *)
Definition createBuffer (nChannels : nat) (len : Z) (rate : Q)
  : option AudioBuffer :=
  if (nChannels =? 0)%nat || (len <=? 0)%Z then None
  else Some {| sampleRate := rate;
               bufLength := Z.to_nat len;
               channels := replicate nChannels
                             (replicate (Z.to_nat len) silence) |}.

(** [data[index]] for a number [index]: [undefined] out of range. *)
Definition typedGet (data : list Sample) (index : Z) : option Sample :=
  if (index <? 0)%Z then None else data !! Z.to_nat index.

(** What a [Float32Array] stores when assigned [v]. *)
Definition toFloat32 (v : option Sample) : Sample :=
  match v with Some x => x | None => NaN end.

(** The inner loop of [playSegmentWithMode]:
    [for (let i = ...; i < segmentLength; i++)], with [n] iterations left. *)
Fixpoint copySamples (n i : nat) (originalData : list Sample)
    (startSample : Z) (segmentData : list Sample) : list Sample :=
  match n with
  | O => segmentData
  | S n' =>
      let sourceIndex := (startSample + Z.of_nat i)%Z in
      let segmentData' :=
        if (sourceIndex <? Z.of_nat (length originalData))%Z
        then <[i := toFloat32 (typedGet originalData sourceIndex)]> segmentData
        else segmentData in
      copySamples n' (S i) originalData startSample segmentData'
  end.

(** The outer loop, over the channels still to do. *)
Fixpoint copyChannels (todo : list nat) (buffer : AudioBuffer)
    (segmentLength : nat) (startSample : Z) (segment : list (list Sample))
  : list (list Sample) :=
  match todo with
  | [] => segment
  | channel :: rest =>
      let originalData := getChannelData buffer channel in
      let segmentData := default [] (segment !! channel) in
      copyChannels rest buffer segmentLength startSample
        (<[channel := copySamples segmentLength 0 originalData startSample
                        segmentData]> segment)
  end.

(** The segment buffer that [playSegmentWithMode] builds for
    [(buffer, startTime, endTime)]; [None] when [createBuffer] throws. *)
Definition makeSegment (buffer : AudioBuffer) (startTime endTime : Q)
  : option AudioBuffer :=
  let segmentDuration := (endTime - startTime)%Q in
  let rate := sampleRate buffer in
  let segmentLength := Qfloor (segmentDuration * rate) in
  let startSample := Qfloor (startTime * rate) in
  match createBuffer (numberOfChannels buffer) segmentLength rate with
  | None => None
  | Some segmentBuffer =>
      Some {| sampleRate := sampleRate segmentBuffer;
              bufLength := bufLength segmentBuffer;
              channels :=
                copyChannels (seq 0 (numberOfChannels buffer)) buffer
                  (Z.to_nat segmentLength) startSample
                  (channels segmentBuffer) |}
  end.

(** ** The Web Audio graph the player drives *)

Inductive ContextState := running | suspended.

(** An [AudioBufferSourceNode].  [out] is the gain node it is connected to;
    [ended] records that playback is over and the [ended] event was
    dispatched; [endedListener] that [playSegmentWithMode] attached its
    listener. *)
Record SourceNode := mkSource {
  buffer : option AudioBuffer;
  loop : bool;
  out : option nat;
  started : bool;
  stopped : bool;
  ended : bool;
  endedListener : bool
}.

(** An [AudioContext]: its state, the source nodes created so far and, for
    each gain node created so far, whether it is connected to the
    destination.  A node's handle is its position. *)
Record AudioContext := mkContext {
  ctxState : ContextState;
  sourceNodes : list SourceNode;
  gainNodes : list bool
}.

Definition setCtxState (ctx : AudioContext) (s : ContextState) : AudioContext :=
  {| ctxState := s; sourceNodes := sourceNodes ctx;
     gainNodes := gainNodes ctx |}.

Definition setSources (ctx : AudioContext) (l : list SourceNode)
  : AudioContext :=
  {| ctxState := ctxState ctx; sourceNodes := l; gainNodes := gainNodes ctx |}.

Definition setGains (ctx : AudioContext) (l : list bool) : AudioContext :=
  {| ctxState := ctxState ctx; sourceNodes := sourceNodes ctx;
     gainNodes := l |}.

Definition updSource (ctx : AudioContext) (h : nat)
    (f : SourceNode -> SourceNode) : AudioContext :=
  setSources ctx (alter f h (sourceNodes ctx)).

(** [createBufferSource()]: a fresh, unconnected, unstarted node. *)
Definition createBufferSource (ctx : AudioContext) : AudioContext * nat :=
  (setSources ctx
     (sourceNodes ctx ++
      [{| buffer := None; loop := false; out := None; started := false;
          stopped := false; ended := false; endedListener := false |}]),
   length (sourceNodes ctx)).

(** [createGain()]: a fresh gain node, not yet connected. *)
Definition createGain (ctx : AudioContext) : AudioContext * nat :=
  (setGains ctx (gainNodes ctx ++ [false]), length (gainNodes ctx)).

Definition setBuffer (b : AudioBuffer) (n : SourceNode) : SourceNode :=
  {| buffer := Some b; loop := loop n; out := out n; started := started n;
     stopped := stopped n; ended := ended n;
     endedListener := endedListener n |}.

Definition setLoop (l : bool) (n : SourceNode) : SourceNode :=
  {| buffer := buffer n; loop := l; out := out n; started := started n;
     stopped := stopped n; ended := ended n;
     endedListener := endedListener n |}.

Definition setOut (o : option nat) (n : SourceNode) : SourceNode :=
  {| buffer := buffer n; loop := loop n; out := o; started := started n;
     stopped := stopped n; ended := ended n;
     endedListener := endedListener n |}.

Definition setStarted (n : SourceNode) : SourceNode :=
  {| buffer := buffer n; loop := loop n; out := out n; started := true;
     stopped := stopped n; ended := ended n;
     endedListener := endedListener n |}.

Definition setStopped (n : SourceNode) : SourceNode :=
  {| buffer := buffer n; loop := loop n; out := out n; started := started n;
     stopped := true; ended := ended n;
     endedListener := endedListener n |}.

Definition setEnded (n : SourceNode) : SourceNode :=
  {| buffer := buffer n; loop := loop n; out := out n; started := started n;
     stopped := stopped n; ended := true;
     endedListener := endedListener n |}.

Definition addEndedListener (n : SourceNode) : SourceNode :=
  {| buffer := buffer n; loop := loop n; out := out n; started := started n;
     stopped := stopped n; ended := ended n; endedListener := true |}.

(** [source.stop()]: Web Audio raises [InvalidStateError] when the node was
    never started; [None] stands for that exception. *)
Definition sourceStop (ctx : AudioContext) (h : nat) : option AudioContext :=
  match sourceNodes ctx !! h with
  | Some n => if started n then Some (updSource ctx h setStopped) else None
  | None => None
  end.

(** [source.disconnect()] and [gain.disconnect()]. *)
Definition sourceDisconnect (ctx : AudioContext) (h : nat) : AudioContext :=
  updSource ctx h (setOut None).

Definition gainDisconnect (ctx : AudioContext) (g : nat) : AudioContext :=
  setGains ctx (<[g := false]> (gainNodes ctx)).

(** A source node produces sound: started, neither stopped nor ended, and
    connected through a gain node to the destination. *)
Definition sounding (ctx : AudioContext) (n : SourceNode) : bool :=
  started n && negb (stopped n) && negb (ended n) &&
  match out n with
  | Some g => default false (gainNodes ctx !! g)
  | None => false
  end.

(** The source node with handle [h] is sounding. *)
Definition soundingAt (ctx : AudioContext) (h : nat) : bool :=
  match sourceNodes ctx !! h with
  | Some n => sounding ctx n
  | None => false
  end.

(** The handles of the sounding source nodes. *)
Definition soundingHandles (ctx : AudioContext) : list nat :=
  List.filter (soundingAt ctx) (seq 0 (length (sourceNodes ctx))).

(** ** The player object *)

Inductive LoopMode := loopForever | once.

(** The fields of [AudioPlayer] that playback touches.  [onSegmentEnd] is an
    opaque callback of the caller, named by a number.  (The buffer cache
    [audioBuffers] and [playerId] play no part in playback and are left
    out.) *)
Record Player := mkPlayer {
  audioContext : AudioContext;
  currentSource : option nat;
  currentBuffer : option AudioBuffer;
  currentGain : option nat;
  isPlaying : bool;
  stopRequested : bool;
  loopMode : LoopMode;
  onSegmentEnd : option nat
}.

Definition setContext (p : Player) (ctx : AudioContext) : Player :=
  {| audioContext := ctx; currentSource := currentSource p;
     currentBuffer := currentBuffer p; currentGain := currentGain p;
     isPlaying := isPlaying p; stopRequested := stopRequested p;
     loopMode := loopMode p; onSegmentEnd := onSegmentEnd p |}.

Definition setFlags (p : Player) (playing requested : bool) : Player :=
  {| audioContext := audioContext p; currentSource := currentSource p;
     currentBuffer := currentBuffer p; currentGain := currentGain p;
     isPlaying := playing; stopRequested := requested;
     loopMode := loopMode p; onSegmentEnd := onSegmentEnd p |}.

Definition setCurrentSource (p : Player) (h : option nat) : Player :=
  {| audioContext := audioContext p; currentSource := h;
     currentBuffer := currentBuffer p; currentGain := currentGain p;
     isPlaying := isPlaying p; stopRequested := stopRequested p;
     loopMode := loopMode p; onSegmentEnd := onSegmentEnd p |}.

Definition setCurrentGain (p : Player) (g : option nat) : Player :=
  {| audioContext := audioContext p; currentSource := currentSource p;
     currentBuffer := currentBuffer p; currentGain := g;
     isPlaying := isPlaying p; stopRequested := stopRequested p;
     loopMode := loopMode p; onSegmentEnd := onSegmentEnd p |}.

(** [new AudioPlayer()], on a context in state [s] (a browser may create
    the context running or suspended). *)
Definition construct (s : ContextState) : Player :=
  {| audioContext := {| ctxState := s; sourceNodes := []; gainNodes := [] |};
     currentSource := None; currentBuffer := None; currentGain := None;
     isPlaying := false; stopRequested := false;
     loopMode := loopForever; onSegmentEnd := None |}.

(** [setLoopMode(mode, onSegmentEnd)]. *)
Definition setLoopMode (p : Player) (mode : LoopMode) (cb : option nat)
  : Player :=
  {| audioContext := audioContext p; currentSource := currentSource p;
     currentBuffer := currentBuffer p; currentGain := currentGain p;
     isPlaying := isPlaying p; stopRequested := stopRequested p;
     loopMode := mode; onSegmentEnd := cb |}.

(** The part shared by [playSimpleLoop] and [playSegmentWithMode]: create
    the source for [played], set [loop], create the gain, connect
    source -> gain -> destination, attach the [ended] listener when asked,
    [start(0)], and record the new handles and flags.  [original] is what
    [currentBuffer] is set to. *)
Definition startSource (p : Player) (played original : AudioBuffer)
    (looping listen : bool) : Player :=
  let '(ctx1, h) := createBufferSource (audioContext p) in
  let ctx2 := updSource ctx1 h (setBuffer played) in
  let ctx3 := updSource ctx2 h (setLoop looping) in
  let '(ctx4, g) := createGain ctx3 in
  let ctx5 := updSource ctx4 h (setOut (Some g)) in
  let ctx6 := setGains ctx5 (<[g := true]> (gainNodes ctx5)) in
  let ctx7 := if listen then updSource ctx6 h addEndedListener else ctx6 in
  let ctx8 := updSource ctx7 h setStarted in
  {| audioContext := ctx8; currentSource := Some h;
     currentBuffer := Some original; currentGain := Some g;
     isPlaying := true; stopRequested := false;
     loopMode := loopMode p; onSegmentEnd := onSegmentEnd p |}.

(** [playSimpleLoop(buffer)]: the whole buffer, looped. *)
Definition playSimpleLoop (p : Player) (buffer : AudioBuffer) : Player :=
  startSource p buffer buffer true false.

(** How a call of an [async] function ends. *)
Inductive Outcome := Fulfilled | Rejected.

Definition isOnce (m : LoopMode) : bool :=
  match m with once => true | loopForever => false end.

(** [playSegmentWithMode(buffer, startTime, endTime)].  When [createBuffer]
    throws nothing has been changed yet, and the exception leaves
    [playSegment]. *)
Definition playSegmentWithMode (p : Player) (buffer : AudioBuffer)
    (startTime endTime : Q) : Player * Outcome :=
  match makeSegment buffer startTime endTime with
  | None => (p, Rejected)
  | Some segmentBuffer =>
      (startSource p segmentBuffer buffer
         (negb (isOnce (loopMode p)))
         (isOnce (loopMode p) && bool_decide (is_Some (onSegmentEnd p))),
       Fulfilled)
  end.

(** [x || d] for an optional number [x]: [undefined] and [0] are falsy. *)
Definition orDefault (x : option Q) (d : Q) : Q :=
  match x with
  | Some v => if Qeq_bool v 0 then d else v
  | None => d
  end.

(** JavaScript [a >= b], [a < b] and [a > b] on numbers. *)
Definition geq (a b : Q) : bool := Qle_bool b a.
Definition lt (a b : Q) : bool := negb (Qle_bool b a).
Definition gt (a b : Q) : bool := negb (Qle_bool a b).

(** [Math.min]. *)
Definition mathMin (a b : Q) : Q := if Qle_bool a b then a else b.

Definition tolerance : Q := 1 # 10.

(** The test of [playSegment] on the resolved times. *)
Definition invalidTimes (buffer : AudioBuffer) (actualStartTime
    actualEndTime : Q) : bool :=
  geq actualStartTime actualEndTime
  || lt actualStartTime 0
  || gt actualEndTime (duration buffer + tolerance)
  || geq actualStartTime (duration buffer).

(** [playSegment] from the resolution of the defaults to its end (what runs
    once the waits at its start are over). *)
Definition playSegmentBody (p : Player) (buffer : AudioBuffer)
    (startTime endTime : option Q) : Player * Outcome :=
  let actualStartTime := orDefault startTime 0 in
  let actualEndTime := orDefault endTime (duration buffer) in
  if invalidTimes buffer actualStartTime actualEndTime
  then (playSimpleLoop p buffer, Fulfilled)
  else
    let clampedEndTime := mathMin actualEndTime (duration buffer) in
    playSegmentWithMode p buffer actualStartTime clampedEndTime.

(** ** [stop] *)

(** The first statements of the [try] block of [stop]: stop and disconnect
    the current source.  [None] when [source.stop()] throws; nothing in the
    block has taken effect at that point. *)
Definition stopCleanupSource (p : Player) : option Player :=
  match currentSource p with
  | Some h =>
      match sourceStop (audioContext p) h with
      | Some ctx =>
          Some (setCurrentSource (setContext p (sourceDisconnect ctx h)) None)
      | None => None
      end
  | None => Some p
  end.

Definition stopCleanupGain (p : Player) : Player :=
  match currentGain p with
  | Some g =>
      setCurrentGain (setContext p (gainDisconnect (audioContext p) g)) None
  | None => p
  end.

(** [stop()] up to its first [await]: the flags, the cleanup of source and
    gain, and the decision to suspend the context.  The boolean tells
    whether [stop] is now waiting for [audioContext.suspend()]; it is
    [false] when the context is already suspended and when the [catch]
    clause was taken. *)
Definition stopSync (p : Player) : Player * bool :=
  let p1 := setFlags p false true in
  match stopCleanupSource p1 with
  | None => (p1, false)
  | Some p2 =>
      let p3 := stopCleanupGain p2 in
      match ctxState (audioContext p3) with
      | suspended => (p3, false)
      | running => (p3, true)
      end
  end.

(** [getIsPlaying()]. *)
Definition getIsPlaying (p : Player) : bool :=
  isPlaying p && negb (stopRequested p).

(** ** Asynchronous execution

    All code runs on one event loop.  An [async] function runs until its
    next [await]; what is left of it is a task that the loop resumes later.
    The tasks below are the continuations of [playSegment] and [stop] at
    their [await]s. *)
Inductive Task :=
| PlayAfterSettle (buffer : AudioBuffer) (startTime endTime : option Q)
    (* [playSegment], after the 100 ms timer *)
| PlayAfterResume (buffer : AudioBuffer) (startTime endTime : option Q)
    (* [playSegment], after [await audioContext.resume()] *)
| StopAfterSuspend  (* [stop], after [await audioContext.suspend()] *)
| StopAfterPause    (* [stop], after the 10 ms timer *)
| StopAfterResume.  (* [stop], after [await audioContext.resume()] *)

(** What the outside observes: the caller's callback being invoked (with
    the value [isPlaying] has at that moment) and [playSegment] calls
    ending. *)
Inductive Obs :=
| CallbackInvoked (cb : nat) (isPlayingAtCall : bool)
| PlaySegmentDone (o : Outcome).

Record World := mkWorld {
  player : Player;
  pending : list Task;
  log : list Obs
}.

Definition initial (s : ContextState) : World :=
  {| player := construct s; pending := []; log := [] |}.

Inductive Call :=
| CallPlaySegment (buffer : option AudioBuffer) (startTime endTime : option Q)
| CallStop
| CallSetLoopMode (mode : LoopMode) (cb : option nat).

(** One atomic step of the event loop: a call from outside (run up to its
    first [await]), the resumption of the pending task at position [i], or
    the [ended] event of the source node [h]. *)
Inductive Label :=
| LCall (c : Call)
| LResume (i : nat)
| LEnded (h : nat).

(** The end of [playSegment]. *)
Definition finishPlay (p : Player) (rest : list Task) (l : list Obs)
    (buffer : AudioBuffer) (startTime endTime : option Q) : World :=
  let '(p', o) := playSegmentBody p buffer startTime endTime in
  {| player := p'; pending := rest; log := l ++ [PlaySegmentDone o] |}.

(** Resuming task [t]; [rest] are the other pending tasks.  A promise of
    [suspend()] or [resume()] resolves when the context has changed state. *)
Definition runTask (t : Task) (p : Player) (rest : list Task)
    (l : list Obs) : World :=
  match t with
  | PlayAfterSettle b s e =>
      let p1 := setFlags p (isPlaying p) false in
      match ctxState (audioContext p1) with
      | suspended =>
          {| player := p1; pending := rest ++ [PlayAfterResume b s e];
             log := l |}
      | running => finishPlay p1 rest l b s e
      end
  | PlayAfterResume b s e =>
      finishPlay (setContext p (setCtxState (audioContext p) running))
        rest l b s e
  | StopAfterSuspend =>
      {| player := setContext p (setCtxState (audioContext p) suspended);
         pending := rest ++ [StopAfterPause]; log := l |}
  | StopAfterPause =>
      {| player := p; pending := rest ++ [StopAfterResume]; log := l |}
  | StopAfterResume =>
      {| player := setContext p (setCtxState (audioContext p) running);
         pending := rest; log := l |}
  end.

(** The listener that [playSegmentWithMode] attaches:
    [this.isPlaying = false; if (this.onSegmentEnd) this.onSegmentEnd()].
    It reads [onSegmentEnd] when it runs. *)
Definition endedListenerBody (p : Player) (l : list Obs)
  : Player * list Obs :=
  let p1 := setFlags p false (stopRequested p) in
  match onSegmentEnd p1 with
  | Some cb => (p1, l ++ [CallbackInvoked cb (isPlaying p1)])
  | None => (p1, l)
  end.

(** The source node [n] can end now.  Web Audio dispatches [ended] on a
    started source node once, when it stops playing: a buffer that does not
    loop was played to its end, or [stop()] was called on the node. *)
Definition canEnd (n : SourceNode) : bool :=
  started n && negb (ended n) && (stopped n || negb (loop n)).

(** The [ended] event of the source node [h]; [None] when it cannot
    happen. *)
Definition endedEvent (w : World) (h : nat) : option World :=
  let p := player w in
  match sourceNodes (audioContext p) !! h with
  | Some n =>
      if canEnd n then
        let p1 := setContext p (updSource (audioContext p) h setEnded) in
        if endedListener n then
          let '(p2, l) := endedListenerBody p1 (log w) in
          Some {| player := p2; pending := pending w; log := l |}
        else Some {| player := p1; pending := pending w; log := log w |}
      else None
  | None => None
  end.

(** A call, run up to its first [await]. *)
Definition call (c : Call) (w : World) : World :=
  let p := player w in
  match c with
  | CallPlaySegment None _ _ =>
      {| player := p; pending := pending w;
         log := log w ++ [PlaySegmentDone Fulfilled] |}
  | CallPlaySegment (Some b) s e =>
      (* [this.stop()] is not awaited: its continuation is queued, and
         [playSegment] goes on to its own timer. *)
      let '(p1, waiting) := stopSync p in
      {| player := p1;
         pending := pending w
                    ++ (if waiting then [StopAfterSuspend] else [])
                    ++ [PlayAfterSettle b s e];
         log := log w |}
  | CallStop =>
      let '(p1, waiting) := stopSync p in
      {| player := p1;
         pending := pending w
                    ++ (if waiting then [StopAfterSuspend] else []);
         log := log w |}
  | CallSetLoopMode mode cb =>
      {| player := setLoopMode p mode cb; pending := pending w;
         log := log w |}
  end.

(** One step; [None] when the label is not enabled. *)
Definition step (l : Label) (w : World) : option World :=
  match l with
  | LCall c => Some (call c w)
  | LResume i =>
      match pending w !! i with
      | Some t => Some (runTask t (player w) (delete i (pending w)) (log w))
      | None => None
      end
  | LEnded h => endedEvent w h
  end.

(** A trace of steps, oldest first. *)
Fixpoint run (tr : list Label) (w : World) : option World :=
  match tr with
  | [] => Some w
  | l :: tr' =>
      match step l w with
      | Some w' => run tr' w'
      | None => None
      end
  end.

Definition isPlayTask (t : Task) : bool :=
  match t with
  | PlayAfterSettle _ _ _ | PlayAfterResume _ _ _ => true
  | _ => false
  end.

(** A [playSegment] call is in flight. *)
Definition playPending (w : World) : bool := existsb isPlayTask (pending w).

(** The caller's discipline of awaiting [playSegment]: no new [playSegment]
    is called with a buffer while an earlier one is in flight. *)
Definition serialLabel (l : Label) (w : World) : bool :=
  match l with
  | LCall (CallPlaySegment (Some _) _ _) => negb (playPending w)
  | _ => true
  end.

(** A trace in which every step is enabled and keeps that discipline. *)
Fixpoint runSerial (tr : list Label) (w : World) : option World :=
  match tr with
  | [] => Some w
  | l :: tr' =>
      if serialLabel l w then
        match step l w with
        | Some w' => runSerial tr' w'
        | None => None
        end
      else None
  end.

(** [await stop()] with nothing else happening meanwhile: the call, then
    its continuations (each is queued last, at position [k]). *)
Definition awaitStop (w : World) : option World :=
  let k := length (pending w) in
  let w1 := call CallStop w in
  if (length (pending w1) =? k)%nat then Some w1
  else run [LResume k; LResume k; LResume k] w1.

(** The number of sounding source nodes. *)
Definition soundingCount (w : World) : nat :=
  length (soundingHandles (audioContext (player w))).

(** ** Notions used in the statements *)

(** The node behind [currentSource]. *)
Definition currentNode (p : Player) : option SourceNode :=
  match currentSource p with
  | Some h => sourceNodes (audioContext p) !! h
  | None => None
  end.


(** The current source plays [played] with loop flag [looping]: it was
    started, is not stopped, and is sounding. *)
Definition nowPlaying (p : Player) (played : AudioBuffer) (looping : bool)
  : Prop :=
  exists n : SourceNode,
    currentNode p = Some n /\
    buffer n = Some played /\
    loop n = looping /\
    started n = true /\ stopped n = false /\
    sounding (audioContext p) n = true.

(** ** Sample data *)

(** A mono buffer of 8 frames at 4 frames per second (2 seconds), holding
    the samples 0, 1, ..., 7. *)
Definition demoBuffer : AudioBuffer :=
  {| sampleRate := 4; bufLength := 8;
     channels := [[Num 0; Num 1; Num 2; Num 3; Num 4; Num 5; Num 6; Num 7]] |}.

(** A fresh player in [once] mode with callback 0 registered. *)
Definition oncePlayer : Player :=
  setLoopMode (construct running) once (Some 0%nat).

(** The player once an awaited [stop()] is over: the synchronous part,
    then, if the context was suspended for cleanup, the context running
    again. *)
Definition stopDone (p : Player) : Player :=
  let '(p1, waiting) := stopSync p in
  if waiting then setContext p1 (setCtxState (audioContext p1) running)
  else p1.

(** ** The invariant of serial use *)

(** A node that was started and not stopped since. *)
Definition live (n : SourceNode) : bool := started n && negb (stopped n).

(** The number of [playSegment] calls in flight. *)
Fixpoint playCount (l : list Task) : nat :=
  match l with
  | [] => 0
  | t :: l' => (if isPlayTask t then 1 else 0) + playCount l'
  end.

(** Only the current source can be live. *)
Definition liveIsCurrent (p : Player) : Prop :=
  forall h n, sourceNodes (audioContext p) !! h = Some n ->
              live n = true -> currentSource p = Some h.

(** The current source, if any, exists and was started. *)
Definition currentStarted (p : Player) : Prop :=
  forall h, currentSource p = Some h ->
    exists n, sourceNodes (audioContext p) !! h = Some n /\ started n = true.

(** No node is live. *)
Definition noneLive (p : Player) : Prop :=
  forall h n, sourceNodes (audioContext p) !! h = Some n -> live n = false.

(** What holds of every world reached under the discipline of
    [serialLabel]: only the current source can be live; the current source
    was started; while a [playSegment] is in flight no node is live; at
    most one [playSegment] is in flight. *)
Record serialInv (w : World) : Prop := mkSerialInv {
  invLive : liveIsCurrent (player w);
  invCurrent : currentStarted (player w);
  invQuiet : (1 <= playCount (pending w))%nat -> noneLive (player w);
  invOne : (playCount (pending w) <= 1)%nat
}.

(** Two [playSegment] calls issued back to back, without awaiting the
    first, followed by the continuations in the order of their timers: the
    two [suspend()] promises, the two 10 ms timers, the two [resume()]
    promises, then the two 100 ms timers. *)
Definition overlappingCalls : list Label :=
  [LCall (CallPlaySegment (Some demoBuffer) None None);
   LCall (CallPlaySegment (Some demoBuffer) None None);
   LResume 0; LResume 1; LResume 2; LResume 2; LResume 2; LResume 2;
   LResume 0; LResume 0].

(** One awaited [playSegment] of the sample buffer: the call, the
    continuations of its [stop()] and, last, its own timer. *)
Definition awaitedPlay : list Label :=
  [LCall (CallPlaySegment (Some demoBuffer) (Some (1 # 2)) (Some (3 # 2)));
   LResume 0; LResume 1; LResume 1; LResume 0].

(** The [ended] event of node [h] has been dispatched. *)
Definition endedAt (p : Player) (h : nat) : Prop :=
  exists n, sourceNodes (audioContext p) !! h = Some n /\ ended n = true.

(** The world in which a segment of the sample buffer is playing once,
    with callback 0 registered. *)
Definition playingOnce : World :=
  default (initial running)
    (run (LCall (CallSetLoopMode once (Some 0%nat)) :: awaitedPlay)
       (initial running)).

(** The same world after the caller has awaited [stop()]. *)
Definition stoppedByCaller : World :=
  default playingOnce (awaitStop playingOnce).

End AudioPlayer.

(* ====================================================================== *)
(** * The scene-audio glue ([src/main.ts]) *)
(* ====================================================================== *)

Module Main.

Import AudioPlayer.

(** What [loadSceneAudio] reads of a clip and of a scene. *)
Record Clip := mkClip {
  audioFile : option string;
  finalAudioStart : option Q;
  finalAudioEnd : option Q
}.

Record Scene := mkScene {
  index : Z;
  referenceClip : option Clip
}.

(** A request id: the string made from [Math.random()]. *)
Definition Token := string.

(** A string is truthy unless empty. *)
Definition truthy (t : string) : bool :=
  match t with EmptyString => false | _ => true end.

(** The texts written to the [audio-status] element. *)
Inductive Status :=
| NoAudioAvailable | LoadingAudio | PlayingLooped | FailedToLoad | AudioError.

(** What a request does that others can observe, with the request's id:
    writes to the status element, events dispatched to the event system and
    calls on the audio player. *)
Inductive Obs :=
| SetStatus (t : Token) (s : Status)
| Dispatched (t : Token) (e : EventSystem.AppEvent)
| LoadAudioFromZip (t : Token) (path : string)
| PlayerSetLoopMode (t : Token) (mode : LoopMode)
| PlayerPlaySegment (t : Token) (sc : Scene) (startTime endTime : option Q).

Definition obsToken (o : Obs) : Token :=
  match o with
  | SetStatus t _ | Dispatched t _ | LoadAudioFromZip t _
  | PlayerSetLoopMode t _ | PlayerPlaySegment t _ _ _ => t
  end.

(** The continuations of a request: the 100 ms timer of the effect handler,
    and [loadSceneAudio] at its two [await]s.  [autoMode] is [isAutoMode] of
    the state the handler was given. *)
Inductive Task :=
| Timer (requestId : Token) (sc : Scene) (autoMode : bool)
| AfterLoad (requestId : Token) (sc : Scene) (clip : Clip) (autoMode : bool)
| AfterPlay (requestId : Token) (sc : Scene) (clip : Clip).



(** The module-level variables, the pending continuations and what has been
    observed so far. *)
Record State := mkState {
  sceneManager : option (list Scene);
  projectZip : bool;
  currentAudioRequestId : option Token;
  isAudioLoading : bool;
  tasks : list Task;
  trace : list Obs
}.

(** [sceneManager?.getScene(index)], that is [scenes[index - 1]]. *)
Definition getScene (m : State) (i : Z) : option Scene :=
  match sceneManager m with
  | Some scenes =>
      if (i - 1 <? 0)%Z then None else scenes !! Z.to_nat (i - 1)
  | None => None
  end.

Definition update (m : State) (cur : option Token) (loading : bool)
    (ts : list Task) (tr : list Obs) : State :=
  {| sceneManager := sceneManager m; projectZip := projectZip m;
     currentAudioRequestId := cur; isAudioLoading := loading;
     tasks := ts; trace := tr |}.

(** [currentAudioRequestId !== requestId]. *)
Definition notCurrent (m : State) (requestId : Token) : bool :=
  match currentAudioRequestId m with
  | Some c => negb (String.eqb c requestId)
  | None => true
  end.

(** [requestId && currentAudioRequestId !== requestId]. *)
Definition cancelled (m : State) (requestId : Token) : bool :=
  truthy requestId && notCurrent m requestId.

(** The [LOAD_SCENE_AUDIO] effect handler; [requestId] is the string that
    [Math.random()] yields this time. *)
Definition handleLoadSceneAudio (m : State) (sceneIndex : Z)
    (requestId : Token) (autoMode : bool) : State :=
  match getScene m sceneIndex with
  | Some sc =>
      update m (Some requestId) (isAudioLoading m)
        (tasks m ++ [Timer requestId sc autoMode]) (trace m)
  | None => m
  end.

(** [!scene.referenceClip || !scene.referenceClip.audioFile || !projectZip]
    fails: the clip and the path to load. *)
Definition playable (m : State) (sc : Scene) : option (Clip * string) :=
  match referenceClip sc with
  | Some clip =>
      match audioFile clip with
      | Some path =>
          if truthy path && projectZip m then Some (clip, path) else None
      | None => None
      end
  | None => None
  end.

(** [loadSceneAudio(scene, state, requestId)] up to its first [await];
    [rest] are the other pending tasks.  (A write to the status element is
    recorded whether or not the element exists.) *)
Definition loadSceneAudio (m : State) (rest : list Task) (sc : Scene)
    (autoMode : bool) (requestId : Token) : State :=
  if cancelled m requestId then
    update m (currentAudioRequestId m) (isAudioLoading m) rest (trace m)
  else
    match playable m sc with
    | None =>
        update m (currentAudioRequestId m) false rest
          (trace m ++ [SetStatus requestId NoAudioAvailable;
                       Dispatched requestId EventSystem.AUDIO_STOPPED])
    | Some (clip, path) =>
        (* nothing ran since the check above, so the check at the top of
           the [try] block gives the same answer; it is kept as written *)
        if cancelled m requestId then
          update m (currentAudioRequestId m) false rest
            (trace m ++ [SetStatus requestId LoadingAudio])
        else
          update m (currentAudioRequestId m) true
            (rest ++ [AfterLoad requestId sc clip autoMode])
            (trace m ++ [SetStatus requestId LoadingAudio;
                         LoadAudioFromZip requestId path])
    end.

(** The timer callback of the effect handler. *)
Definition timerFired (m : State) (rest : list Task) (requestId : Token)
    (sc : Scene) (autoMode : bool) : State :=
  if notCurrent m requestId then
    update m (currentAudioRequestId m) (isAudioLoading m) rest (trace m)
  else loadSceneAudio m rest sc autoMode requestId.

(** [loadSceneAudio] after [await audioPlayer.loadAudioFromZip(...)], which
    gave [audioBuffer]; every exit passes through [finally]. *)
Definition afterLoad (m : State) (rest : list Task) (requestId : Token)
    (sc : Scene) (clip : Clip) (autoMode : bool)
    (audioBuffer : option AudioBuffer) : State :=
  if cancelled m requestId then
    update m (currentAudioRequestId m) false rest (trace m)
  else
    match audioBuffer with
    | Some _ =>
        update m (currentAudioRequestId m) (isAudioLoading m)
          (rest ++ [AfterPlay requestId sc clip])
          (trace m ++
           [PlayerSetLoopMode requestId
              (if autoMode then once else loopForever);
            PlayerPlaySegment requestId sc (finalAudioStart clip)
              (finalAudioEnd clip)])
    | None =>
        update m (currentAudioRequestId m) false rest
          (trace m ++ [SetStatus requestId FailedToLoad;
                       Dispatched requestId EventSystem.AUDIO_STOPPED])
    end.

(** [loadSceneAudio] after [await audioPlayer.playSegment(...)]: there is
    no check of the request id here. *)
Definition afterPlay (m : State) (rest : list Task) (requestId : Token)
    (o : Outcome) : State :=
  match o with
  | Fulfilled =>
      update m (currentAudioRequestId m) false rest
        (trace m ++ [Dispatched requestId EventSystem.AUDIO_STARTED;
                     SetStatus requestId PlayingLooped])
  | Rejected =>
      update m (currentAudioRequestId m) false rest
        (trace m ++ [SetStatus requestId AudioError;
                     Dispatched requestId EventSystem.AUDIO_STOPPED])
  end.

(** One atomic step: a [LOAD_SCENE_AUDIO] effect reaching its handler, a
    timer firing, a load finishing with a buffer or [null], a [playSegment]
    call ending. *)
Inductive Label :=
| MEffect (sceneIndex : Z) (requestId : Token) (autoMode : bool)
| MTimer (i : nat)
| MLoaded (i : nat) (audioBuffer : option AudioBuffer)
| MPlayed (i : nat) (o : Outcome).

Definition step (l : Label) (m : State) : option State :=
  match l with
  | MEffect sceneIndex requestId autoMode =>
      Some (handleLoadSceneAudio m sceneIndex requestId autoMode)
  | MTimer i =>
      match tasks m !! i with
      | Some (Timer r sc a) => Some (timerFired m (delete i (tasks m)) r sc a)
      | _ => None
      end
  | MLoaded i b =>
      match tasks m !! i with
      | Some (AfterLoad r sc clip a) =>
          Some (afterLoad m (delete i (tasks m)) r sc clip a b)
      | _ => None
      end
  | MPlayed i o =>
      match tasks m !! i with
      | Some (AfterPlay r sc clip) =>
          Some (afterPlay m (delete i (tasks m)) r o)
      | _ => None
      end
  end.

Fixpoint run (tr : list Label) (m : State) : option State :=
  match tr with
  | [] => Some m
  | l :: tr' =>
      match step l m with
      | Some m' => run tr' m'
      | None => None
      end
  end.


(** The [playSegment] calls among observations. *)
Definition isPlaySegment (o : Obs) : bool :=
  match o with PlayerPlaySegment _ _ _ _ => true | _ => false end.

Definition playedScene (o : Obs) : option Scene :=
  match o with PlayerPlaySegment _ sc _ _ => Some sc | _ => None end.

(** ** Notions used in the statements *)

(** What is asked of an observation made after request [newest] for scene
    [sc] was issued: it is made by that request, and if it is a
    [playSegment] call, it plays that scene. *)
Definition byNewest (newest : Token) (sc : Scene) (o : Obs) : Prop :=
  obsToken o = newest /\
  (isPlaySegment o = true -> playedScene o = Some sc).



(** ** Sample data *)

Definition demoClip (path : string) : Clip :=
  {| audioFile := Some path; finalAudioStart := Some (1 # 2);
     finalAudioEnd := Some (3 # 2) |}.

Definition demoScene (i : Z) (path : string) : Scene :=
  {| index := i; referenceClip := Some (demoClip path) |}.

(** A loaded project with three scenes and nothing in flight. *)
Definition demoState : State :=
  {| sceneManager := Some [demoScene 1 "a.wav"; demoScene 2 "b.wav";
                           demoScene 3 "c.wav"];
     projectZip := true; currentAudioRequestId := None;
     isAudioLoading := false; tasks := []; trace := [] |}.

(** After both effects: the timer of the first request, then the timer,
    the load and the play of the second. *)
Definition demoSchedule : list Label :=
  [MTimer 0; MTimer 0; MLoaded 0 (Some demoBuffer); MPlayed 0 Fulfilled].

(** Request [k3f9x0a1q] for scene 2, request [z81mm2p0c] for scene 3 before
    the first timer has fired, then [demoSchedule]; and the state this ends
    in. *)
Definition demoTrace : list Label :=
  MEffect 2 "k3f9x0a1q"%string false
  :: MEffect 3 "z81mm2p0c"%string false :: demoSchedule.

Definition demoFinal : State := default demoState (run demoTrace demoState).

End Main.

(* ====================================================================== *)
(** * Further notions about the event system *)
(* ====================================================================== *)

Module EventSystemNotions.

Import EventSystem.
Local Open Scope Z_scope.

(** The [totalScenes] of the last PROJECT_LOADED among [events] (oldest
    first), or [d] if there is none. *)
Fixpoint lastTotal (d : Z) (events : list AppEvent) : Z :=
  match events with
  | [] => d
  | PROJECT_LOADED n :: rest => lastTotal n rest
  | _ :: rest => lastTotal d rest
  end.

(** The effects of dispatching [ev] after [events], from the singleton. *)
Definition effectsAfter (events : list AppEvent) (ev : AppEvent)
  : list AppEffect :=
  snd (dispatch (dispatchAll eventSystem events) ev).

(** Where AUTO_ADVANCE leads from index [i] of [n] scenes. *)
Definition nextScene (i n : Z) : Z := if i + 1 <=? n then i + 1 else 1.

End EventSystemNotions.

(* ====================================================================== *)
(** * Further notions about the audio player *)
(* ====================================================================== *)

Module AudioPlayerNotions.

Import AudioPlayer.

(** [getDuration()]: [this.currentBuffer?.duration || 0]. *)
Definition getDuration (p : Player) : Q :=
  orDefault (option_map duration (currentBuffer p)) 0.

(** A step other than a call from outside. *)
Definition isInternal (l : Label) : bool :=
  match l with LCall _ => false | _ => true end.

(** How many resumptions a pending task can still need: [stop] has three
    [await]s, [playSegment] at most two. *)
Definition taskWeight (t : Task) : nat :=
  match t with
  | PlayAfterSettle _ _ _ => 2
  | PlayAfterResume _ _ _ => 1
  | StopAfterSuspend => 3
  | StopAfterPause => 2
  | StopAfterResume => 1
  end.

Fixpoint queueWeight (l : list Task) : nat :=
  match l with
  | [] => 0
  | t :: l' => taskWeight t + queueWeight l'
  end.

(** A looping source that plays but is out of the player's reach: it is
    neither the current source nor connected to the current gain. *)
Definition orphan (p : Player) (h : nat) : Prop :=
  exists n g,
    sourceNodes (audioContext p) !! h = Some n /\
    currentSource p <> Some h /\
    out n = Some g /\
    currentGain p <> Some g /\
    gainNodes (audioContext p) !! g = Some true /\
    loop n = true /\ started n = true /\
    stopped n = false /\ ended n = false.

(** The world that [overlappingCalls] leads to. *)
Definition overlapped : World :=
  default (initial running) (run overlappingCalls (initial running)).

(** The world after stop() and a playSegment with an inverted window, in
    'once' mode with callback 0: the fallback loop is playing and a
    continuation of one stop() is still pending. *)
Definition fallbackPlaying : World :=
  default (initial running)
    (run [LCall (CallSetLoopMode once (Some 0%nat)); LCall CallStop;
          LCall (CallPlaySegment (Some demoBuffer) (Some 5%Q) (Some 1%Q));
          LResume 0; LResume 0; LResume 1; LResume 2; LResume 0]
       (initial running)).

(** The player is silent and idle: no node is live, there is no current
    source, [isPlaying] is false and no [playSegment] is in flight. *)
Definition silenced (w : World) : Prop :=
  noneLive (player w) /\
  currentSource (player w) = None /\
  isPlaying (player w) = false /\
  playCount (pending w) = 0%nat.

(** The continuations of one [stop()], which is queued last. *)
Definition stopContinuations (w : World) : list Label :=
  let k := length (pending w) in [LResume k; LResume k; LResume k].

(** The world after one awaited [playSegment] of the sample buffer, and
    the world after a [stop()] that follows it, once the continuations of
    that [stop()] have run. *)
Definition afterPlaying : World :=
  default (initial running) (runSerial awaitedPlay (initial running)).

Definition afterStopping : World :=
  default afterPlaying
    (run (LCall CallStop :: stopContinuations afterPlaying) afterPlaying).

End AudioPlayerNotions.

(* ====================================================================== *)
(** * The buffer cache of the audio player ([loadAudioFromZip]) *)
(* ====================================================================== *)

Module AudioCache.

Import AudioPlayer.

Definition Bytes := list Byte.byte.

(** A file of the archive: its bytes, or [None] when reading it fails
    ([audioFile.async('arraybuffer')] rejects). *)
Record ZipEntry := mkEntry { content : option Bytes }.

(** [audioBuffers], the [Map] from path to decoded buffer, and the archive,
    in which [zip.file(path)] looks a path up. *)
Abbreviation Cache := (gmap string AudioBuffer).
Abbreviation Zip := (gmap string ZipEntry).

(** The continuations of [loadAudioFromZip] at its two [await]s: after the
    file has been read, and after its bytes have been decoded. *)
Inductive Task :=
| AfterRead (audioPath : string) (audioFile : ZipEntry)
| AfterDecode (audioPath : string) (arrayBuffer : Bytes).


(** The cache, the loads in flight, and what the calls have returned so
    far, with the path they were made for ([None] for [null]). *)
Record State := mkState {
  audioBuffers : Cache;
  pending : list Task;
  returned : list (string * option AudioBuffer)
}.

(** One atomic step of the event loop: a call of [loadAudioFromZip] (run up
    to its first [await]), the resumption of the load at position [i], or a
    call of [clearCache]. *)
Inductive Label :=
| LLoad (zip : Zip) (audioPath : string)
| LResume (i : nat)
| LClear.

Section Load.

(** [audioContext.decodeAudioData]: the decoded buffer, or [None] when it
    rejects. *)
Variable decodeAudioData : Bytes -> option AudioBuffer.

(** [loadAudioFromZip(zip, audioPath)] up to its first [await]. *)
Definition loadAudioFromZip (st : State) (zip : Zip) (audioPath : string)
  : State :=
  match audioBuffers st !! audioPath with
  | Some b =>
      {| audioBuffers := audioBuffers st; pending := pending st;
         returned := returned st ++ [(audioPath, Some b)] |}
  | None =>
      match zip !! audioPath with
      | None =>
          {| audioBuffers := audioBuffers st; pending := pending st;
             returned := returned st ++ [(audioPath, None)] |}
      | Some audioFile =>
          {| audioBuffers := audioBuffers st;
             pending := pending st ++ [AfterRead audioPath audioFile];
             returned := returned st |}
      end
  end.

(** Resuming the load [t]; [rest] are the other loads in flight.  The
    buffer is stored in the cache as it is when decoding is over; a failed
    read or decoding is caught and gives [null]. *)
Definition resume (t : Task) (st : State) (rest : list Task) : State :=
  match t with
  | AfterRead audioPath audioFile =>
      match content audioFile with
      | Some arrayBuffer =>
          {| audioBuffers := audioBuffers st;
             pending := rest ++ [AfterDecode audioPath arrayBuffer];
             returned := returned st |}
      | None =>
          {| audioBuffers := audioBuffers st; pending := rest;
             returned := returned st ++ [(audioPath, None)] |}
      end
  | AfterDecode audioPath arrayBuffer =>
      match decodeAudioData arrayBuffer with
      | Some audioBuffer =>
          {| audioBuffers := <[audioPath := audioBuffer]> (audioBuffers st);
             pending := rest;
             returned := returned st ++ [(audioPath, Some audioBuffer)] |}
      | None =>
          {| audioBuffers := audioBuffers st; pending := rest;
             returned := returned st ++ [(audioPath, None)] |}
      end
  end.

(** [clearCache()]. *)
Definition clearCache (st : State) : State :=
  {| audioBuffers := ∅; pending := pending st; returned := returned st |}.

(** One step; [None] when the label is not enabled. *)
Definition step (l : Label) (st : State) : option State :=
  match l with
  | LLoad zip audioPath => Some (loadAudioFromZip st zip audioPath)
  | LResume i =>
      match pending st !! i with
      | Some t => Some (resume t st (delete i (pending st)))
      | None => None
      end
  | LClear => Some (clearCache st)
  end.

Fixpoint run (tr : list Label) (st : State) : option State :=
  match tr with
  | [] => Some st
  | l :: tr' =>
      match step l st with
      | Some st' => run tr' st'
      | None => None
      end
  end.

End Load.

(** ** Notions used in the statements *)

Definition isClear (l : Label) : bool :=
  match l with LClear => true | _ => false end.


(** ** Sample data *)

(** A decoder for the examples: empty input is malformed, anything else
    decodes to a mono buffer with one frame for each byte. *)
Definition demoDecode (bytes : Bytes) : option AudioBuffer :=
  match bytes with
  | [] => None
  | _ => Some {| sampleRate := 4; bufLength := length bytes;
                 channels := [map (fun _ => silence) bytes] |}
  end.

Definition demoZip : Zip :=
  {[ "ref.wav"%string := mkEntry (Some [Byte.x52; Byte.x49]) ;
     "bad.wav"%string := mkEntry (Some []) ]}.

(** Another archive that holds a longer file under the same name. *)
Definition otherZip : Zip :=
  {[ "ref.wav"%string := mkEntry (Some [Byte.x52; Byte.x49; Byte.x46]) ]}.

Definition emptyState : State :=
  {| audioBuffers := ∅; pending := []; returned := [] |}.


(** Two loads of [ref.wav] from the two archives, the second called before
    the first has stored its buffer; both files are read, then the first
    is decoded. *)
Definition overlappingLoads : list Label :=
  [LLoad demoZip "ref.wav"%string; LLoad otherZip "ref.wav"%string;
   LResume 0; LResume 0; LResume 0].

(** The state this leads to: the first load has stored and returned its
    buffer, the second is still decoding. *)
Definition firstStored : State :=
  default emptyState (run demoDecode overlappingLoads emptyState).

End AudioCache.

(* ====================================================================== *)
(** * Double-precision arithmetic *)
(* ====================================================================== *)

Module Binary64.

Local Open Scope Z_scope.

(** JavaScript numbers are IEEE 754 doubles.  Every finite double is a whole
    number of units of 2^-1074 with at most 53 significant bits, and the
    result of an arithmetic operation is the double nearest to the exact
    result, the one with the even significand when two are equally near.
    (Overflow to [Infinity] is not modelled: times and sample counts of an
    audio buffer stay far below 2^1024.) *)
Definition scale : Z := 2 ^ 1074.

(** The integer nearest to [a / b], for [b] positive; of two equally near
    the even one. *)
Definition nearestEven (a b : Z) : Z :=
  let q := a / b in
  match 2 * (a mod b) ?= b with
  | Lt => q
  | Gt => q + 1
  | Eq => if Z.even q then q else q + 1
  end.

(** The doubles around [a / b] units lie [2 ^ spacing a b] units apart. *)
Definition spacing (a b : Z) : Z := Z.max 0 (Z.log2 (a / b) - 52).

(** The double nearest to [a / b] units, in units ([a] not negative, [b]
    positive). *)
Definition roundUnits (a b : Z) : Z :=
  let g := spacing a b in
  nearestEven a (b * 2 ^ g) * 2 ^ g.

(** The double nearest to a rational number. *)
Definition fl (x : Q) : Q :=
  let n := Qnum x in
  let d := Zpos (Qden x) in
  let units :=
    if n <? 0 then - roundUnits (- n * scale) d
    else roundUnits (n * scale) d in
  Qred (units # Z.to_pos scale).

(** [a + b], [a - b], [a * b] and [a / b] on doubles. *)
Definition add (a b : Q) : Q := fl (a + b).
Definition sub (a b : Q) : Q := fl (a - b).
Definition mul (a b : Q) : Q := fl (a * b).
Definition div (a b : Q) : Q := fl (a / b).

End Binary64.

(* ====================================================================== *)
(** * The window of [playSegment], in double precision *)
(* ====================================================================== *)

Module AudioPlayer64.

Import AudioPlayer Binary64.

(** The module [AudioPlayer] above computes times with exact rationals,
    which is all that the statements about sources, flags and events need.
    What [playSegment] does with the numbers of its window depends on how
    they are rounded; here these functions are as the code computes them,
    in doubles.  Times are rationals that stand for themselves. *)

(** [buffer.duration]: the length divided by the sample rate. *)
Definition duration (b : AudioBuffer) : Q :=
  div (inject_Z (Z.of_nat (bufLength b))) (sampleRate b).

(** [const tolerance = 0.1]: the double nearest to one tenth. *)
Definition tolerance : Q := fl (1 # 10).

(** The test of [playSegment] on the resolved times. *)
Definition invalidTimes (buffer : AudioBuffer) (actualStartTime
    actualEndTime : Q) : bool :=
  geq actualStartTime actualEndTime
  || lt actualStartTime 0
  || gt actualEndTime (add (duration buffer) tolerance)
  || geq actualStartTime (duration buffer).

(** [createBuffer] and the copy loops of [playSegmentWithMode], for a
    segment of [segmentLength] frames from frame [startSample]; [None] when
    [createBuffer] throws. *)
Definition segmentBuffer (buffer : AudioBuffer) (segmentLength
    startSample : Z) : option AudioBuffer :=
  match createBuffer (numberOfChannels buffer) segmentLength
          (sampleRate buffer) with
  | None => None
  | Some segmentBuffer =>
      Some {| sampleRate := sampleRate segmentBuffer;
              bufLength := bufLength segmentBuffer;
              channels :=
                copyChannels (seq 0 (numberOfChannels buffer)) buffer
                  (Z.to_nat segmentLength) startSample
                  (channels segmentBuffer) |}
  end.

(** The segment buffer that [playSegmentWithMode] builds for
    [(buffer, startTime, endTime)]:
    [segmentLength = Math.floor((endTime - startTime) * sampleRate)] and
    [startSample = Math.floor(startTime * sampleRate)]. *)
Definition makeSegment (buffer : AudioBuffer) (startTime endTime : Q)
  : option AudioBuffer :=
  let segmentDuration := sub endTime startTime in
  let rate := sampleRate buffer in
  let segmentLength := Qfloor (mul segmentDuration rate) in
  let startSample := Qfloor (mul startTime rate) in
  segmentBuffer buffer segmentLength startSample.

(** [playSegmentWithMode(buffer, startTime, endTime)]. *)
Definition playSegmentWithMode (p : Player) (buffer : AudioBuffer)
    (startTime endTime : Q) : Player * Outcome :=
  match makeSegment buffer startTime endTime with
  | None => (p, Rejected)
  | Some segmentBuffer =>
      (startSource p segmentBuffer buffer
         (negb (isOnce (loopMode p)))
         (isOnce (loopMode p) && bool_decide (is_Some (onSegmentEnd p))),
       Fulfilled)
  end.

(** [playSegment] from the resolution of the defaults to its end. *)
Definition playSegmentBody (p : Player) (buffer : AudioBuffer)
    (startTime endTime : option Q) : Player * Outcome :=
  let actualStartTime := orDefault startTime 0 in
  let actualEndTime := orDefault endTime (duration buffer) in
  if invalidTimes buffer actualStartTime actualEndTime
  then (playSimpleLoop p buffer, Fulfilled)
  else
    let clampedEndTime := mathMin actualEndTime (duration buffer) in
    playSegmentWithMode p buffer actualStartTime clampedEndTime.

(** ** Sample data *)

(** A mono buffer of 1600 frames at 8000 frames per second (0.2 s), holding
    the samples 0, 1, ..., 1599. *)
Definition tone : AudioBuffer :=
  {| sampleRate := 8000; bufLength := 1600;
     channels := [map (fun i => Num (inject_Z (Z.of_nat i))) (seq 0 1600)] |}.

(** The doubles written [0.1] and [0.15], and [2 ^ -14]. *)
Definition tenth : Q := fl (1 # 10).
Definition fifteenHundredths : Q := fl (15 # 100).

End AudioPlayer64.

(* ====================================================================== *)
(** * Pitch-class sets ([src/pitch-class-set.ts]) *)
(* ====================================================================== *)

Module PitchClassSet.

Local Open Scope Z_scope.

(** A note of a clip; keys are MIDI note numbers. *)
Record Note := mkNote {
  time : Q;
  duration : Q;
  key : Z;
  velocity : Q;
  channel : Z
}.

Record PitchClassSet := mkPitchClassSet {
  pitchClasses : list Z;   (* the [Set], in insertion order *)
  normalForm : list Z;
  primeForm : list Z;
  interval : list Z;
  name : option string
}.

(** [a[i]] for an index that is in range.  (Out of range JavaScript gives
    [undefined]; the functions below never read out of range except
    [isMoreCompact] on two empty arrays, where both reads are [undefined]
    and compare equal, as the two defaults do.) *)
Definition at_ (a : list Z) (i : nat) : Z := nth i a 0.

(** [rotate(arr, positions)]. *)
Definition rotate (arr : list Z) (positions : nat) : list Z :=
  let n := length arr in
  let positions := (positions mod n)%nat in
  drop positions arr ++ take positions arr.

(** The loop of [isMorePackedLeft], at index [i] with [steps] iterations
    left. *)
Fixpoint packedLoop (steps i : nat) (a b : list Z) : bool :=
  match steps with
  | O => false
  | S steps' =>
      let aInterval := Z.rem (at_ a i - at_ a 0 + 12) 12 in
      let bInterval := Z.rem (at_ b i - at_ b 0 + 12) 12 in
      if aInterval <? bInterval then true
      else if aInterval >? bInterval then false
      else packedLoop steps' (S i) a b
  end.

(** [isMorePackedLeft(a, b)]: [i] runs from 1 below
    [Math.min(a.length, b.length)]. *)
Definition isMorePackedLeft (a b : list Z) : bool :=
  packedLoop (Nat.min (length a) (length b) - 1) 1 a b.

(** One iteration of the loop of [getNormalForm], on the state
    [(bestRotation, minSpan)]. *)
Definition normalStep (sorted : list Z) (acc : list Z * Z) (i : nat)
  : list Z * Z :=
  let '(bestRotation, minSpan) := acc in
  let rotation := rotate sorted i in
  let span :=
    Z.rem (at_ rotation (length rotation - 1) - at_ rotation 0 + 12) 12 in
  if span <? minSpan then (rotation, span)
  else if span =? minSpan then
    (if isMorePackedLeft rotation bestRotation
     then (rotation, minSpan) else (bestRotation, minSpan))
  else (bestRotation, minSpan).

(** [[...pcs].sort((a, b) => a - b)]: the numbers in ascending order. *)
Definition sortAscending (pcs : list Z) : list Z := merge_sort Z.le pcs.

(** [getNormalForm(pcs)]. *)
Definition getNormalForm (pcs : list Z) : list Z :=
  match pcs with
  | [] => []
  | _ =>
      let sorted := sortAscending pcs in
      let '(bestRotation, _) :=
        fold_left (normalStep sorted) (seq 0 (length sorted)) (sorted, 12) in
      let first := at_ bestRotation 0 in
      map (fun pc => Z.rem (pc - first + 12) 12) bestRotation
  end.

(** [isMoreCompact(a, b)]. *)
Definition isMoreCompact (a b : list Z) : bool :=
  if negb (length a =? length b)%nat then (length a <? length b)%nat
  else
    let aSpan := at_ a (length a - 1) in
    let bSpan := at_ b (length b - 1) in
    if negb (aSpan =? bSpan) then aSpan <? bSpan
    else isMorePackedLeft a b.

(** [getPrimeForm(normalForm)]. *)
Definition getPrimeForm (normalForm : list Z) : list Z :=
  match normalForm with
  | [] => []
  | _ =>
      let inverted :=
        0 :: map (fun pc => Z.rem (12 - pc) 12) (rev (tl normalForm)) in
      let invertedNormal := getNormalForm inverted in
      if isMoreCompact invertedNormal normalForm then invertedNormal
      else normalForm
  end.

(** The body of the inner loop of [getIntervalVector]. *)
Definition intervalStep (pcs : list Z) (i : nat) (vector : list Z) (j : nat)
  : list Z :=
  let interval := Z.abs (at_ pcs i - at_ pcs j) in
  let ic := Z.min interval (12 - interval) in
  if (ic >? 0) && (ic <=? 6)
  then alter Z.succ (Z.to_nat (ic - 1)) vector
  else vector.

(** [getIntervalVector(pcs)]: [i] runs over all indices, [j] over those
    after [i]. *)
Definition getIntervalVector (pcs : list Z) : list Z :=
  fold_left
    (fun vector i =>
       fold_left (intervalStep pcs i) (seq (S i) (length pcs - S i)) vector)
    (seq 0 (length pcs)) [0; 0; 0; 0; 0; 0].

(** A number as JavaScript prints it, and [array.join(sep)]. *)
Definition numberToString (z : Z) : string :=
  NilZero.string_of_int (Z.to_int z).

Definition join (sep : string) (l : list Z) : string :=
  String.concat sep (map numberToString l).

(** The table of [getSetName], in source order. *)
Definition setNames : list (string * string) :=
  (  [("0,1,2", "3-1");
     ("0,1,3", "3-2");
     ("0,1,4", "3-3");
     ("0,1,5", "3-4");
     ("0,1,6", "3-5");
     ("0,2,4", "3-6");
     ("0,2,5", "3-7");
     ("0,2,6", "3-8");
     ("0,2,7", "3-9");
     ("0,3,6", "3-10");
     ("0,3,7", "3-11");
     ("0,4,8", "3-12");
     ("0,1,2,3", "4-1");
     ("0,1,2,4", "4-2");
     ("0,1,3,4", "4-3");
     ("0,1,2,5", "4-4");
     ("0,1,2,6", "4-5");
     ("0,1,2,7", "4-6");
     ("0,1,4,5", "4-7");
     ("0,1,5,6", "4-8");
     ("0,1,6,7", "4-9");
     ("0,2,3,5", "4-10");
     ("0,1,3,5", "4-11");
     ("0,2,3,6", "4-12");
     ("0,1,3,6", "4-13");
     ("0,2,3,7", "4-14");
     ("0,1,4,6", "4-15");
     ("0,1,5,7", "4-16");
     ("0,3,4,7", "4-17");
     ("0,1,4,7", "4-18");
     ("0,1,4,8", "4-19");
     ("0,1,5,8", "4-20");
     ("0,2,4,6", "4-21");
     ("0,2,4,7", "4-22");
     ("0,2,5,7", "4-23");
     ("0,2,4,8", "4-24");
     ("0,2,6,8", "4-25");
     ("0,3,5,8", "4-26");
     ("0,2,5,8", "4-27");
     ("0,3,6,9", "4-28")])%string.

(** [setNames[key]] on the object literal. *)
Fixpoint lookupName (table : list (string * string)) (k : string)
  : option string :=
  match table with
  | [] => None
  | (k', v) :: rest => if String.eqb k' k then Some v else lookupName rest k
  end.

(** [getSetName(primeForm)]. *)
Definition getSetName (primeForm : list Z) : option string :=
  let primeString := join "," primeForm in
  lookupName setNames primeString.

(** [getPitchClassName(pc)]: [names[pc % 12]], which is [undefined] for a
    negative index. *)
Definition getPitchClassName (pc : Z) : option string :=
  let names := ["C"; "C#/Db"; "D"; "D#/Eb"; "E"; "F"; "F#/Gb"; "G"; "G#/Ab";
                "A"; "A#/Bb"; "B"]%string in
  let i := Z.rem pc 12 in
  if i <? 0 then None else names !! Z.to_nat i.

(** [set.add(x)] on a [Set] kept in insertion order. *)
Definition setAdd (s : list Z) (x : Z) : list Z :=
  if bool_decide (x ∈ s) then s else s ++ [x].

(** [extractPitchClassSet(clip)], on the notes of the clip. *)
Definition extractPitchClassSet (notes : list Note) : PitchClassSet :=
  let pitchClasses :=
    fold_left (fun s note => setAdd s (Z.rem (key note) 12)) notes [] in
  let normalForm := getNormalForm pitchClasses in
  let primeForm := getPrimeForm normalForm in
  let interval := getIntervalVector pitchClasses in
  {| pitchClasses := pitchClasses; normalForm := normalForm;
     primeForm := primeForm; interval := interval;
     name := getSetName primeForm |}.

(** ** Notions used in the statements *)

(** A list of pitch classes: distinct numbers from 0 to 11, in any order. *)
Definition isPcs (l : list Z) : Prop :=
  NoDup l /\ Forall (fun x => 0 <= x < 12) l.

(** Transposition by [t] semitones and inversion, on pitch classes. *)
Definition transpose (t : Z) (l : list Z) : list Z :=
  map (fun x => (x + t) mod 12) l.

Definition invert (l : list Z) : list Z := map (fun x => (- x) mod 12) l.

(** All sublists of a list, in order. *)
Fixpoint sublists (l : list Z) : list (list Z) :=
  match l with
  | [] => [[]]
  | x :: r => map (cons x) (sublists r) ++ sublists r
  end.

Definition chromatic : list Z := [0; 1; 2; 3; 4; 5; 6; 7; 8; 9; 10; 11].

(** The 4096 ascending lists of pitch classes. *)
Definition allPcs : list (list Z) := sublists chromatic.

(** The sum of the entries of a vector. *)
Definition total (v : list Z) : Z := fold_right Z.add 0 v.

(** The prime form computed for a list of pitch classes, as
    [extractPitchClassSet] does. *)
Definition classForm (l : list Z) : list Z := getPrimeForm (getNormalForm l).

(** [l2] is a transposition of [l1], or of its inversion. *)
Definition sameClass (l1 l2 : list Z) : Prop :=
  exists t, l2 ≡ₚ transpose t l1 \/ l2 ≡ₚ transpose t (invert l1).

(** Strictly ascending, from [x] on. *)
Fixpoint ascendingFrom (x : Z) (l : list Z) : bool :=
  match l with
  | [] => true
  | y :: r => (x <? y) && ascendingFrom y r
  end.

(** The checks run on each of the 4096 ascending lists. *)
Definition checkTransposition (s : list Z) : bool :=
  bool_decide (getNormalForm (transpose 1 s) = getNormalForm s).

Definition checkInversion (s : list Z) : bool :=
  bool_decide (classForm (invert s) = classForm s).

Definition checkNormalMember (s : list Z) : bool :=
  let n := sortAscending (getNormalForm s) in
  existsb (fun t => bool_decide (n = sortAscending (transpose t s)))
          chromatic.

Definition checkClassMember (s : list Z) : bool :=
  let c := sortAscending (classForm s) in
  let i := invert s in
  existsb (fun t => bool_decide (c = sortAscending (transpose t s))
                    || bool_decide (c = sortAscending (transpose t i)))
          chromatic.

Definition checkShape (s : list Z) : bool :=
  match getNormalForm s with
  | [] => bool_decide (s = [])
  | x :: r =>
      bool_decide (x = 0) && ascendingFrom x r
      && forallb (fun y => y <? 12) r
      && (length (x :: r) =? length s)%nat
  end.

Definition checkNames (s : list Z) : bool :=
  match length s with
  | 3%nat => bool_decide (is_Some (getSetName (classForm s)))
  | 4%nat =>
      if bool_decide (classForm s = [0; 1; 3; 7])
      then bool_decide (getSetName (classForm s) = None)
      else bool_decide (is_Some (getSetName (classForm s)))
  | _ => true
  end.

(** [isPcs], decided. *)
Definition isPcsb (l : list Z) : bool :=
  bool_decide (NoDup l) && forallb (fun x => (0 <=? x) && (x <? 12)) l.

End PitchClassSet.

(* ====================================================================== *)
(** * The scene manager ([src/scene-manager.ts]) *)
(* ====================================================================== *)

Module SceneManager.

Local Open Scope Z_scope.

(** What the scene manager reads of a clip, a track, a clip slot and a
    scene of the parsed project. *)
Record Clip := mkClip {
  clipName : option string;
  notes : list PitchClassSet.Note;
  audioFile : option string
}.

Record Track := mkTrack {
  id : string;
  trackName : string
}.

Record ClipSlot := mkClipSlot {
  trackId : string;
  clip : option Clip
}.

Record SceneData := mkSceneData {
  sceneName : string;
  clipSlots : list ClipSlot
}.

Record Scene := mkScene {
  index : Z;
  name : string;
  referenceClip : option Clip;
  shapeClip : option Clip;
  pitchClassSet : option PitchClassSet.PitchClassSet
}.

Record SceneManager := mkSceneManager {
  scenes : list Scene;
  tracks : gmap string Track;
  referencesTrackId : option string;
  shapesTrackId : option string
}.

(** [s.toLowerCase()], on the letters A to Z.  (Outside ASCII, lower-casing
    yields no letter of the two words searched for below.) *)
Definition lowerChar (c : Ascii.ascii) : Ascii.ascii :=
  let n := Ascii.nat_of_ascii c in
  if (65 <=? n)%nat && (n <=? 90)%nat then Ascii.ascii_of_nat (n + 32) else c.

Fixpoint toLowerCase (s : string) : string :=
  match s with
  | EmptyString => EmptyString
  | String c r => String (lowerChar c) (toLowerCase r)
  end.

(** [s.includes(needle)]. *)
Fixpoint includes (s needle : string) : bool :=
  String.prefix needle s
  || match s with
     | EmptyString => false
     | String _ r => includes r needle
     end.

(** The body of the constructor's [forEach], on the track map and the two
    special track ids. *)
Definition addTrack
    (acc : gmap string Track * option string * option string) (track : Track)
  : gmap string Track * option string * option string :=
  let '(tracks, referencesTrackId, shapesTrackId) := acc in
  (<[id track := track]> tracks,
   if includes (toLowerCase (trackName track)) "reference"
   then Some (id track) else referencesTrackId,
   if includes (toLowerCase (trackName track)) "shape"
   then Some (id track) else shapesTrackId).

(** The body of the [forEach] over a scene's clip slots, on
    [(referenceClip, shapeClip)]. *)
Definition slotStep (referencesTrackId shapesTrackId : option string)
    (acc : option Clip * option Clip) (slot : ClipSlot)
  : option Clip * option Clip :=
  let '(referenceClip, shapeClip) := acc in
  match clip slot with
  | Some c =>
      if bool_decide (Some (trackId slot) = referencesTrackId)
      then (Some c, shapeClip)
      else if bool_decide (Some (trackId slot) = shapesTrackId)
      then (referenceClip, Some c)
      else acc
  | None => acc
  end.

(** The function mapped over the scene data by [buildScenes]. *)
Definition buildScene (referencesTrackId shapesTrackId : option string)
    (i : nat) (scene : SceneData) : Scene :=
  let '(referenceClip, shapeClip) :=
    fold_left (slotStep referencesTrackId shapesTrackId) (clipSlots scene)
              (None, None) in
  let pitchClassSet :=
    match shapeClip with
    | Some c =>
        if (0 <? length (notes c))%nat
        then Some (PitchClassSet.extractPitchClassSet (notes c))
        else None
    | None => None
    end in
  {| index := Z.of_nat i + 1;
     name := if Main.truthy (sceneName scene) then sceneName scene
             else String.append "Scene "
                    (PitchClassSet.numberToString (Z.of_nat i + 1));
     referenceClip := referenceClip;
     shapeClip := shapeClip;
     pitchClassSet := pitchClassSet |}.

Definition buildScenes (referencesTrackId shapesTrackId : option string)
    (sceneData : list SceneData) : list Scene :=
  imap (buildScene referencesTrackId shapesTrackId) sceneData.

(** [new SceneManager(tracks, sceneData)]. *)
Definition new (trackList : list Track) (sceneData : list SceneData)
  : SceneManager :=
  let '(trackMap, referencesTrackId, shapesTrackId) :=
    fold_left addTrack trackList (∅, None, None) in
  {| scenes := buildScenes referencesTrackId shapesTrackId sceneData;
     tracks := trackMap;
     referencesTrackId := referencesTrackId;
     shapesTrackId := shapesTrackId |}.

Definition getScenes (m : SceneManager) : list Scene := scenes m.

(** [getScene(index)]: [scenes[index - 1]]. *)
Definition getScene (m : SceneManager) (index : Z) : option Scene :=
  if index - 1 <? 0 then None else scenes m !! Z.to_nat (index - 1).

Definition getTotalScenes (m : SceneManager) : Z :=
  Z.of_nat (length (scenes m)).

Definition getTrack (m : SceneManager) (trackId : string) : option Track :=
  tracks m !! trackId.

End SceneManager.


(* ====================================================================== *)
(** * Debounced navigation ([src/main.ts]) *)
(* ====================================================================== *)

Module Navigation.

Import EventSystem.
Local Open Scope Z_scope.

(** What reaches the navigation code: a key press, a click on one of the two
    navigation buttons, the call of the callback that [loadSceneAudio] gives
    to [setLoopMode('once', ...)], a dispatch made elsewhere in the page, and
    the firing of the [k]-th pending reset timer. *)
Inductive Input :=
| KeyDown (key : string)
| ClickPrev
| ClickNext
| SegmentEnded
| Dispatch (ev : AppEvent)
| TimerFires (k : nat).

(** The events dispatched elsewhere in the page. *)
Definition dispatchedElsewhere (ev : AppEvent) : bool :=
  match ev with
  | PROJECT_LOADED _ | MODE_TOGGLE | PLAY_PAUSE
  | AUDIO_STARTED | AUDIO_STOPPED => true
  | SCENE_NAVIGATE _ | SCENE_SET _ | AUTO_ADVANCE => false
  end.

(** The time in milliseconds, the event system, the module variable
    [navigationInProgress], the due times of the pending
    [setTimeout(() => { navigationInProgress = false; }, 300)] and the
    navigation events dispatched so far with their times, newest first. *)
Record State := mkState {
  clock : Z;
  sys : System;
  navigationInProgress : bool;
  timers : list Z;
  dispatched : list (Z * AppEvent)
}.

Definition init : State :=
  {| clock := 0; sys := eventSystem; navigationInProgress := false;
     timers := []; dispatched := [] |}.

(** The three statements every navigation handler runs once it is let in:
    set the flag, dispatch, set the timer.  ([dispatch] returns: no effect
    handler throws.) *)
Definition navigate (ev : AppEvent) (s : State) : State :=
  {| clock := clock s;
     sys := fst (dispatch (sys s) ev);
     navigationInProgress := true;
     timers := timers s ++ [clock s + 300];
     dispatched := (clock s, ev) :: dispatched s |}.

(** The handlers.  A timer fires no earlier than it is due. *)
Definition handle (i : Input) (s : State) : option State :=
  match i with
  | KeyDown key =>
      Some (if negb (navigationInProgress s) then
              if String.eqb key "ArrowLeft"
              then navigate (SCENE_NAVIGATE (-1)) s
              else if String.eqb key "ArrowRight"
              then navigate (SCENE_NAVIGATE 1) s
              else s
            else s)
  | ClickPrev =>
      Some (if negb (navigationInProgress s)
            then navigate (SCENE_NAVIGATE (-1)) s else s)
  | ClickNext =>
      Some (if negb (navigationInProgress s)
            then navigate (SCENE_NAVIGATE 1) s else s)
  | SegmentEnded =>
      let currentState := val (state (sys s)) in
      Some (if isAutoMode currentState && isPlaying currentState
               && negb (navigationInProgress s)
            then navigate AUTO_ADVANCE s else s)
  | Dispatch ev =>
      if dispatchedElsewhere ev
      then Some {| clock := clock s;
                   sys := fst (dispatch (sys s) ev);
                   navigationInProgress := navigationInProgress s;
                   timers := timers s;
                   dispatched := dispatched s |}
      else None
  | TimerFires k =>
      match timers s !! k with
      | Some due =>
          if due <=? clock s
          then Some {| clock := clock s;
                       sys := sys s;
                       navigationInProgress := false;
                       timers := delete k (timers s);
                       dispatched := dispatched s |}
          else None
      | None => None
      end
  end.

(** An input arrives at time [now], which never runs backwards. *)
Definition step (now : Z) (i : Input) (s : State) : option State :=
  if now <? clock s then None
  else handle i {| clock := now; sys := sys s;
                   navigationInProgress := navigationInProgress s;
                   timers := timers s; dispatched := dispatched s |}.

Fixpoint run (trace : list (Z * Input)) (s : State) : option State :=
  match trace with
  | [] => Some s
  | (now, i) :: rest =>
      match step now i s with
      | Some s' => run rest s'
      | None => None
      end
  end.

(** The flag is up exactly while one reset timer is pending; every
    navigation event so far lies 300 ms before that timer is due or, with
    the flag down, before now; and the events lie 300 ms apart. *)
Definition debounced (s : State) : Prop :=
  (if navigationInProgress s
   then exists due, timers s = [due] /\
          Forall (fun e => fst e + 300 <= due) (dispatched s)
   else timers s = [] /\
          Forall (fun e => fst e + 300 <= clock s) (dispatched s)) /\
  StronglySorted (fun later earlier => fst earlier + 300 <= fst later)
                 (dispatched s).

End Navigation.


(* ====================================================================== *)
(** * Further notions about the audio requests *)
(* ====================================================================== *)

Module MainNotions.

Import Main.

(** The task is not request [t] waiting for its [playSegment] call. *)
Definition notPlaying (t : Token) (task : Task) : Prop :=
  match task with
  | AfterPlay r _ _ => r <> t
  | _ => True
  end.

(** The step does not issue a request with the id [t]. *)
Definition notIssuing (t : Token) (l : Label) : Prop :=
  match l with
  | MEffect _ r _ => r <> t
  | _ => True
  end.

(** Request [t] is stale: another id is current (or none), and [t] has not
    reached [playSegment]. *)
Definition stale (t : Token) (m : State) : Prop :=
  currentAudioRequestId m <> Some t /\ Forall (notPlaying t) (tasks m).

(** A request is superseded after its load has finished and before its
    [playSegment] call returns. *)
Definition lateTrace : list Label :=
  [MEffect 2 "k3f9x0a1q"%string false; MTimer 0;
   MLoaded 0 (Some AudioPlayer.demoBuffer);
   MEffect 3 "z81mm2p0c"%string false].

Definition lateState : State := default demoState (run lateTrace demoState).








End MainNotions.


(* ====================================================================== *)
(** * Properties of the event system *)
(* ====================================================================== *)

Module EventSystemFacts.

Import EventSystem.
Local Open Scope Z_scope.

Lemma reduce_indexOk fresh st ev :
  indexOk (val st) -> indexOk (val (reduce fresh st ev)).
Proof.
  unfold indexOk. intros H.
  destruct ev as [n|d|i| | | | | ]; cbn; auto.
  - destruct (_ >=? 1) eqn:E1; cbn; auto.
    destruct (_ <=? _) eqn:E2; cbn; auto. right. lia.
  - destruct (i >=? 1) eqn:E1; cbn; auto.
    destruct (i <=? _) eqn:E2; cbn; auto. right. lia.
  - destruct (isAutoMode (val st)); cbn; auto.
    destruct (_ <=? _) eqn:E; cbn; auto. right. lia.
Qed.

Lemma dispatchAll_indexOk evs : forall sys,
  indexOk (val (state sys)) -> indexOk (val (state (dispatchAll sys evs))).
Proof.
  induction evs as [|e evs IH]; intros sys H; cbn; auto.
  apply IH. cbn. now apply reduce_indexOk.
Qed.

(** A reducer result is the argument itself or sits at the fresh address. *)
Lemma reduce_addr fresh st ev :
  reduce fresh st ev = st \/ addr (reduce fresh st ev) = fresh.
Proof.
  destruct ev; cbn; auto.
  - destruct (_ && _); auto.
  - destruct (_ && _); auto.
  - destruct (negb _); auto.
Qed.

Lemma dispatch_wf sys ev : wf sys -> wf (fst (dispatch sys ev)).
Proof.
  unfold wf. cbn. intros H.
  destruct (reduce_addr (nextAddr sys) (state sys) ev) as [-> | ->]; lia.
Qed.

Lemma dispatchAll_wf evs : forall sys, wf sys -> wf (dispatchAll sys evs).
Proof.
  induction evs as [|e evs IH]; intros sys H; cbn; auto.
  apply IH. now apply dispatch_wf.
Qed.

Lemma eventSystem_wf : wf eventSystem.
Proof. unfold wf. cbn. lia. Qed.

(** An object at the fresh address differs from every live object. *)
Lemma fresh_not_same sys fields :
  wf sys ->
  not_same_object (state sys) (spread (nextAddr sys) fields) = true.
Proof.
  unfold wf, not_same_object. cbn. intros H.
  apply negb_true_iff, Nat.eqb_neq. lia.
Qed.

(** C3, as stated, fails: loading a project without scenes gives a loaded
    state whose index 1 lies outside [1, 0]. *)
Lemma project_loaded_without_scenes :
  projectLoaded (reached [PROJECT_LOADED 0]) = true /\
  ~ (1 <= currentSceneIndex (reached [PROJECT_LOADED 0])
       <= totalScenes (reached [PROJECT_LOADED 0])).
Proof. cbn. split; [reflexivity | lia]. Qed.

(** C3, amended: in every state reachable from the initial state, if a
    project is loaded and it has at least one scene, then
    1 <= currentSceneIndex <= totalScenes. *)
Theorem index_in_range_when_scenes (evs : list AppEvent) :
  projectLoaded (reached evs) = true ->
  1 <= totalScenes (reached evs) ->
  1 <= currentSceneIndex (reached evs) <= totalScenes (reached evs).
Proof.
  intros _ Hn.
  destruct (dispatchAll_indexOk evs eventSystem) as [H | H].
  - left. reflexivity.
  - fold (reached evs) in H. lia.
  - exact H.
Qed.

Lemma index_in_range_when_scenes_witness :
  1 <= currentSceneIndex (reached [PROJECT_LOADED 3; SCENE_NAVIGATE 1])
    <= totalScenes (reached [PROJECT_LOADED 3; SCENE_NAVIGATE 1]).
Proof.
  apply (index_in_range_when_scenes [PROJECT_LOADED 3; SCENE_NAVIGATE 1]).
  - reflexivity.
  - vm_compute. discriminate.
Defined.

(** C4: at index 1, SCENE_NAVIGATE{-1} returns the very same state object;
    in auto mode at the last scene, AUTO_ADVANCE wraps the index to 1. *)
Theorem clamp_versus_wrap (fresh : nat) (st st' : StateObj) :
  currentSceneIndex (val st) = 1 ->
  isAutoMode (val st') = true ->
  currentSceneIndex (val st') = totalScenes (val st') ->
  reduce fresh st (SCENE_NAVIGATE (-1)) = st /\
  currentSceneIndex (val (reduce fresh st' AUTO_ADVANCE)) = 1.
Proof.
  intros H1 Ha He. split.
  - cbn. rewrite H1. reflexivity.
  - cbn. rewrite Ha. cbn.
    destruct (_ <=? _) eqn:E; cbn; [lia | reflexivity].
Qed.

Lemma clamp_versus_wrap_witness :
  reduce 5 (mkObj 2 (mkAppState 1 false false 4 true)) (SCENE_NAVIGATE (-1))
    = mkObj 2 (mkAppState 1 false false 4 true) /\
  currentSceneIndex
    (val (reduce 5 (mkObj 2 (mkAppState 4 true true 4 true)) AUTO_ADVANCE))
    = 1.
Proof.
  apply (clamp_versus_wrap 5 (mkObj 2 (mkAppState 1 false false 4 true))
           (mkObj 2 (mkAppState 4 true true 4 true))); reflexivity.
Defined.

(** C5: in a loaded state, setting the scene to an in-range index other than
    the current one yields exactly UPDATE_UI, STOP_AUDIO,
    LOAD_SCENE_AUDIO{newIndex}, in that order. *)
Theorem scene_set_effects (sys : System) (newIndex : Z) :
  wf sys ->
  projectLoaded (val (state sys)) = true ->
  1 <= newIndex <= totalScenes (val (state sys)) ->
  newIndex <> currentSceneIndex (val (state sys)) ->
  snd (dispatch sys (SCENE_SET newIndex))
  = [UPDATE_UI; STOP_AUDIO; LOAD_SCENE_AUDIO newIndex].
Proof.
  intros Hwf _ [Hlo Hhi] Hne. cbn.
  assert (E1 : (newIndex >=? 1) = true) by lia.
  assert (E2 : (newIndex <=? totalScenes (val (state sys))) = true) by lia.
  rewrite E1, E2. cbn [andb].
  unfold getEffects. rewrite fresh_not_same by exact Hwf. cbn.
  assert (E3 : (currentSceneIndex (val (state sys)) =? newIndex) = false)
    by lia.
  rewrite E3, Bool.eqb_reflx. reflexivity.
Qed.

Lemma scene_set_effects_witness :
  snd (dispatch (fst (dispatch eventSystem (PROJECT_LOADED 4))) (SCENE_SET 3))
  = [UPDATE_UI; STOP_AUDIO; LOAD_SCENE_AUDIO 3].
Proof.
  apply (scene_set_effects (fst (dispatch eventSystem (PROJECT_LOADED 4))) 3).
  - unfold wf. cbn. lia.
  - reflexivity.
  - cbn. lia.
  - cbn. lia.
Defined.

(** C10: MODE_TOGGLE, PLAY_PAUSE, AUDIO_STARTED and AUDIO_STOPPED always
    emit UPDATE_UI (as the first effect), because their reducer branch
    always builds a new state object. *)
Theorem allocating_events_update_ui (sys : System) (ev : AppEvent) :
  wf sys ->
  alwaysAllocates ev ->
  addr (state (fst (dispatch sys ev))) <> addr (state sys) /\
  head (snd (dispatch sys ev)) = Some UPDATE_UI /\
  In UPDATE_UI (snd (dispatch sys ev)).
Proof.
  intros Hwf Hev.
  assert (Hhd : head (snd (dispatch sys ev)) = Some UPDATE_UI).
  { destruct Hev as [-> | [-> | [-> | ->]]]; cbn; unfold getEffects;
      rewrite fresh_not_same by exact Hwf; reflexivity. }
  split; [|split; [exact Hhd|]].
  - unfold wf in Hwf.
    destruct Hev as [-> | [-> | [-> | ->]]]; cbn; lia.
  - destruct (snd (dispatch sys ev)) as [|e l]; [discriminate|].
    injection Hhd as ->. now left.
Qed.

(** The case named in C10: AUDIO_STARTED while already playing changes no
    field and still emits UPDATE_UI. *)
Lemma allocating_events_update_ui_witness :
  let sys := dispatchAll eventSystem [PROJECT_LOADED 2; AUDIO_STARTED] in
  val (state (fst (dispatch sys AUDIO_STARTED))) = val (state sys) /\
  addr (state (fst (dispatch sys AUDIO_STARTED))) <> addr (state sys) /\
  head (snd (dispatch sys AUDIO_STARTED)) = Some UPDATE_UI /\
  In UPDATE_UI (snd (dispatch sys AUDIO_STARTED)).
Proof.
  split; [reflexivity|].
  apply (allocating_events_update_ui
           (dispatchAll eventSystem [PROJECT_LOADED 2; AUDIO_STARTED])
           AUDIO_STARTED).
  - unfold wf. cbn. lia.
  - right. right. left. reflexivity.
Defined.

(** The audio events derive no effect but UPDATE_UI, so dispatching them
    from an effect handler starts no new audio request. *)
Lemma audio_events_only_update_ui (sys : System) (ev : AppEvent) :
  wf sys ->
  ev = AUDIO_STARTED \/ ev = AUDIO_STOPPED ->
  snd (dispatch sys ev) = [UPDATE_UI].
Proof.
  intros Hwf [-> | ->]; cbn; unfold getEffects;
    rewrite fresh_not_same by exact Hwf; cbn;
    rewrite Z.eqb_refl, Bool.eqb_reflx; reflexivity.
Qed.

End EventSystemFacts.

(* ====================================================================== *)
(** * Properties of the audio player *)
(* ====================================================================== *)

Module AudioPlayerFacts.

Import AudioPlayer.

(** ** The segment copy *)





(** ** Starting a source *)

Lemma alter_snoc {A} (f : A -> A) (l : list A) (x : A) :
  alter f (length l) (l ++ [x]) = l ++ [f x].
Proof.
  rewrite <- (Nat.add_0_r (length l)) at 1. now rewrite alter_app_r.
Qed.

Lemma insert_snoc {A} (l : list A) (x y : A) :
  <[length l := y]> (l ++ [x]) = l ++ [y].
Proof.
  rewrite <- (Nat.add_0_r (length l)) at 1. now rewrite insert_app_r.
Qed.

(** [startSource] appends one source node and one gain node, both fully
    set up, and makes them current. *)
Lemma startSource_eq (p : Player) (played original : AudioBuffer)
    (looping listen : bool) :
  startSource p played original looping listen
  = {| audioContext :=
         {| ctxState := ctxState (audioContext p);
            sourceNodes :=
              sourceNodes (audioContext p) ++
              [{| buffer := Some played; loop := looping;
                  out := Some (length (gainNodes (audioContext p)));
                  started := true; stopped := false; ended := false;
                  endedListener := listen |}];
            gainNodes := gainNodes (audioContext p) ++ [true] |};
       currentSource := Some (length (sourceNodes (audioContext p)));
       currentBuffer := Some original;
       currentGain := Some (length (gainNodes (audioContext p)));
       isPlaying := true; stopRequested := false;
       loopMode := loopMode p; onSegmentEnd := onSegmentEnd p |}.
Proof.
  unfold startSource, createBufferSource, createGain, updSource, setSources,
    setGains.
  cbn [sourceNodes gainNodes ctxState].
  rewrite !alter_snoc, insert_snoc.
  destruct listen; cbn [sourceNodes gainNodes ctxState];
    rewrite ?alter_snoc; reflexivity.
Qed.

Lemma startSource_nowPlaying (p : Player) (played original : AudioBuffer)
    (looping listen : bool) :
  nowPlaying (startSource p played original looping listen) played looping.
Proof.
  rewrite startSource_eq. unfold nowPlaying, currentNode.
  cbn [currentSource audioContext sourceNodes].
  eexists. split; [apply list_lookup_middle; reflexivity|].
  cbn [buffer loop started stopped]. repeat split.
  unfold sounding. cbn.
  now rewrite list_lookup_middle.
Qed.

(** ** Comparisons on times *)

Lemma geq_true (a b : Q) : geq a b = true <-> (b <= a)%Q.
Proof. apply Qle_bool_iff. Qed.

Lemma lt_true (a b : Q) : lt a b = true <-> (a < b)%Q.
Proof.
  unfold lt. rewrite negb_true_iff. split.
  - intros H. apply Qnot_le_lt. intros Hle.
    apply Qle_bool_iff in Hle. congruence.
  - intros H. destruct (Qle_bool b a) eqn:E; [|reflexivity].
    apply Qle_bool_iff in E. exfalso. exact (Qlt_not_le _ _ H E).
Qed.

Lemma gt_true (a b : Q) : gt a b = true <-> (b < a)%Q.
Proof. apply (lt_true b a). Qed.







(** ** The window of [playSegment] *)

Lemma orDefault_Qeq (v d : Q) :
  (d == 0)%Q -> (orDefault (Some v) d == v)%Q.
Proof.
  intros Hd. unfold orDefault. destruct (Qeq_bool v 0) eqn:E; [|reflexivity].
  apply Qeq_bool_iff in E. rewrite E. exact Hd.
Qed.



(** C6, as stated, fails: the requested window (0.5, 0) has start >= end,
    and what is played is not the entire buffer but the segment from 0.5 s
    to the end. *)
Lemma zero_end_window_not_fallback :
  (0 <= 1 # 2)%Q /\
  ~ nowPlaying
      (fst (playSegmentBody (construct running) demoBuffer
              (Some (1 # 2)) (Some 0%Q)))
      demoBuffer true.
Proof.
  split; [discriminate|].
  intros (n & Hn & Hb & _). vm_compute in Hn. injection Hn as <-.
  vm_compute in Hb. discriminate Hb.
Qed.


(** ** Serial use: at most one live source *)

Lemma playCount_app (l1 l2 : list Task) :
  playCount (l1 ++ l2) = (playCount l1 + playCount l2)%nat.
Proof. induction l1 as [|t l1 IH]; cbn; [reflexivity | rewrite IH; lia]. Qed.

Lemma playCount_delete (l : list Task) : forall (i : nat) (t : Task),
  l !! i = Some t ->
  playCount l = ((if isPlayTask t then 1 else 0) + playCount (delete i l))%nat.
Proof.
  induction l as [|x l IH]; intros [|i] t H; try discriminate.
  - cbn in H. injection H as ->. reflexivity.
  - cbn in H. change (delete (S i) (x :: l)) with (x :: delete i l).
    cbn [playCount]. rewrite (IH i t H). lia.
Qed.

Lemma playPending_count (w : World) :
  playPending w = false <-> playCount (pending w) = 0%nat.
Proof.
  unfold playPending. induction (pending w) as [|t l IH]; cbn; [tauto|].
  destruct (isPlayTask t); cbn; [split; [discriminate | lia] | exact IH].
Qed.

(** Sounding nodes are live. *)
Lemma sounding_live (ctx : AudioContext) (n : SourceNode) :
  sounding ctx n = true -> live n = true.
Proof.
  unfold sounding, live. destruct (started n), (stopped n); cbn; auto.
Qed.

(** If all sounding handles are one handle, there is at most one of them. *)
Lemma filter_seq_unique (f : nat -> bool) (h0 : nat) : forall (n k : nat),
  (forall h, f h = true -> h = h0) ->
  (length (List.filter f (seq k n)) <= 1)%nat /\
  ((h0 < k)%nat -> List.filter f (seq k n) = []).
Proof.
  induction n as [|n IH]; intros k Hf; cbn; [split; [lia | reflexivity]|].
  destruct (IH (S k) Hf) as [Hlen Hnil].
  destruct (f k) eqn:E.
  - apply Hf in E. subst k. rewrite Hnil by lia. cbn.
    split; [lia | intros; lia].
  - split; [exact Hlen|]. intros Hk. apply Hnil. lia.
Qed.

Lemma serialInv_soundingCount (w : World) :
  serialInv w -> (soundingCount w <= 1)%nat.
Proof.
  intros I. unfold soundingCount, soundingHandles.
  destruct (currentSource (player w)) as [h0|] eqn:Ec.
  - apply (filter_seq_unique _ h0). intros h Hs. unfold soundingAt in Hs.
    destruct (sourceNodes _ !! h) as [n|] eqn:En; [|discriminate].
    apply sounding_live in Hs.
    pose proof (invLive w I h n En Hs) as Hc. congruence.
  - apply (filter_seq_unique _ 0%nat). intros h Hs. unfold soundingAt in Hs.
    destruct (sourceNodes _ !! h) as [n|] eqn:En; [|discriminate].
    apply sounding_live in Hs.
    pose proof (invLive w I h n En Hs) as Hc. congruence.
Qed.

Lemma lookup_updSource (ctx : AudioContext) (h h' : nat)
    (f : SourceNode -> SourceNode) :
  sourceNodes (updSource ctx h f) !! h'
  = if decide (h = h') then f <$> sourceNodes ctx !! h'
    else sourceNodes ctx !! h'.
Proof.
  unfold updSource, setSources. cbn [sourceNodes].
  case_decide as E.
  - subst h'. apply list_lookup_alter_eq.
  - now apply list_lookup_alter_ne.
Qed.

Lemma stopCleanupGain_sources (p : Player) :
  currentSource (stopCleanupGain p) = currentSource p /\
  sourceNodes (audioContext (stopCleanupGain p))
  = sourceNodes (audioContext p).
Proof. unfold stopCleanupGain. destruct (currentGain p); split; reflexivity. Qed.

(** When the current source exists and was started, the [try] block of
    [stop] runs through: afterwards there is no current source, and the
    former one is stopped and disconnected. *)
Lemma stopSync_sources (p : Player) :
  currentStarted p ->
  currentSource (fst (stopSync p)) = None /\
  sourceNodes (audioContext (fst (stopSync p)))
  = match currentSource p with
    | Some h =>
        sourceNodes
          (sourceDisconnect (updSource (audioContext p) h setStopped) h)
    | None => sourceNodes (audioContext p)
    end.
Proof.
  intros Hcur. unfold stopSync.
  assert (Hc : exists p2,
    stopCleanupSource (setFlags p false true) = Some p2 /\
    currentSource p2 = None /\
    sourceNodes (audioContext p2)
    = match currentSource p with
      | Some h =>
          sourceNodes
            (sourceDisconnect (updSource (audioContext p) h setStopped) h)
      | None => sourceNodes (audioContext p)
      end).
  { unfold stopCleanupSource, sourceStop.
    cbn [setFlags currentSource audioContext].
    destruct (currentSource p) as [h|] eqn:Ec.
    - destruct (Hcur h Ec) as (n & Hn & Hst). rewrite Hn, Hst.
      eexists. split; [reflexivity|]. split; reflexivity.
    - eexists. split; [reflexivity|]. split; [exact Ec | reflexivity]. }
  destruct Hc as (p2 & -> & Hc2 & Hs2).
  destruct (stopCleanupGain_sources p2) as [Hg1 Hg2].
  destruct (ctxState (audioContext (stopCleanupGain p2))); cbn [fst];
    rewrite Hg1, Hg2; split; assumption.
Qed.

(** After the synchronous part of [stop] no node is live, provided only the
    current source could be live before. *)
Lemma stopSync_quiet (p : Player) :
  currentStarted p -> liveIsCurrent p -> noneLive (fst (stopSync p)).
Proof.
  intros Hcur Hlive h n.
  destruct (stopSync_sources p Hcur) as [_ ->].
  destruct (currentSource p) as [h0|] eqn:Ec.
  - unfold sourceDisconnect. rewrite !lookup_updSource.
    case_decide as E.
    + subst h0. destruct (sourceNodes (audioContext p) !! h) as [n0|];
        [|discriminate].
      cbn. intros [= <-]. unfold live. cbn. now rewrite andb_false_r.
    + intros Hn. destruct (live n) eqn:El; [|reflexivity].
      pose proof (Hlive h n Hn El). congruence.
  - intros Hn. destruct (live n) eqn:El; [|reflexivity].
    pose proof (Hlive h n Hn El). congruence.
Qed.

Lemma noneLive_liveIsCurrent (p : Player) : noneLive p -> liveIsCurrent p.
Proof. intros H h n Hn Hl. rewrite (H h n Hn) in Hl. discriminate. Qed.

Lemma startSource_inv (p : Player) (played original : AudioBuffer)
    (looping listen : bool) :
  noneLive p ->
  liveIsCurrent (startSource p played original looping listen) /\
  currentStarted (startSource p played original looping listen).
Proof.
  intros Hq. rewrite startSource_eq.
  unfold liveIsCurrent, currentStarted.
  cbn [audioContext sourceNodes currentSource]. split.
  - intros h n Hn Hl. apply lookup_app_Some in Hn as [Hn | [Hge Hn]].
    + rewrite (Hq h n Hn) in Hl. discriminate.
    + destruct (h - length (sourceNodes (audioContext p)))%nat eqn:E;
        [|discriminate].
      f_equal. lia.
  - intros h [= <-]. eexists. split; [apply list_lookup_middle; reflexivity|].
    reflexivity.
Qed.

Lemma playSegmentBody_inv (p : Player) (b : AudioBuffer)
    (s e : option Q) :
  noneLive p -> currentStarted p ->
  liveIsCurrent (fst (playSegmentBody p b s e)) /\
  currentStarted (fst (playSegmentBody p b s e)).
Proof.
  intros Hq Hc. unfold playSegmentBody.
  destruct (invalidTimes _ _ _); cbn [fst].
  - apply startSource_inv, Hq.
  - unfold playSegmentWithMode. destruct (makeSegment _ _ _); cbn [fst].
    + apply startSource_inv, Hq.
    + split; [apply noneLive_liveIsCurrent, Hq | exact Hc].
Qed.

(** A call keeps the invariant when it keeps the discipline. *)
Lemma call_inv (c : Call) (w : World) :
  serialInv w -> serialLabel (LCall c) w = true -> serialInv (call c w).
Proof.
  intros [Il Ic Iq Io] Hser.
  destruct c as [[b|] s e | | mode cb]; cbn [call].
  - cbn in Hser. apply negb_true_iff, playPending_count in Hser.
    pose proof (stopSync_quiet _ Ic Il) as Hq.
    destruct (stopSync_sources _ Ic) as [Hnone _].
    destruct (stopSync (player w)) as [p1 waiting]. cbn [fst] in Hq, Hnone.
    split; cbn [player pending].
    + apply noneLive_liveIsCurrent, Hq.
    + intros h Hh. congruence.
    + intros _. exact Hq.
    + rewrite !playCount_app, Hser. destruct waiting; cbn; lia.
  - split; assumption.
  - pose proof (stopSync_quiet _ Ic Il) as Hq.
    destruct (stopSync_sources _ Ic) as [Hnone _].
    destruct (stopSync (player w)) as [p1 waiting]. cbn [fst] in Hq, Hnone.
    assert (Hcount : playCount (pending w ++
                       (if waiting then [StopAfterSuspend] else []))
                     = playCount (pending w))
      by (rewrite playCount_app; destruct waiting; cbn; lia).
    split; cbn [player pending].
    + apply noneLive_liveIsCurrent, Hq.
    + intros h Hh. congruence.
    + intros _. exact Hq.
    + rewrite Hcount. exact Io.
  - split; assumption.
Qed.

Lemma finishPlay_inv (p : Player) (rest : list Task) (l : list Obs)
    (b : AudioBuffer) (s e : option Q) :
  noneLive p -> currentStarted p -> playCount rest = 0%nat ->
  serialInv (finishPlay p rest l b s e).
Proof.
  intros Hq Hc Hrest. unfold finishPlay.
  destruct (playSegmentBody_inv p b s e Hq Hc) as [Hl' Hc'].
  destruct (playSegmentBody p b s e) as [p' o]. cbn [fst] in Hl', Hc'.
  split; cbn [player pending]; try assumption; rewrite Hrest; lia.
Qed.

(** Resuming a pending task keeps the invariant. *)
Lemma runTask_inv (w : World) (i : nat) (t : Task) :
  serialInv w -> pending w !! i = Some t ->
  serialInv (runTask t (player w) (delete i (pending w)) (log w)).
Proof.
  intros [Il Ic Iq Io] Hi.
  pose proof (playCount_delete _ _ _ Hi) as Hcount.
  destruct t as [b s e | b s e | | | ]; cbn [isPlayTask] in Hcount;
    cbn [runTask].
  - destruct (ctxState (audioContext (setFlags (player w) _ false))) eqn:Ectx.
    + apply finishPlay_inv; [apply Iq; lia | exact Ic | lia].
    + split; cbn [player pending]; try assumption.
      * intros _. apply Iq. lia.
      * rewrite playCount_app. cbn [playCount isPlayTask]. lia.
  - apply finishPlay_inv; [apply Iq; lia | exact Ic | lia].
  - split; cbn [player pending]; try assumption.
    + rewrite playCount_app. cbn [playCount isPlayTask].
      intros Hp. apply Iq. lia.
    + rewrite playCount_app. cbn [playCount isPlayTask]. lia.
  - split; cbn [player pending]; try assumption.
    + rewrite playCount_app. cbn [playCount isPlayTask].
      intros Hp. apply Iq. lia.
    + rewrite playCount_app. cbn [playCount isPlayTask]. lia.
  - split; cbn [player pending]; try assumption.
    + intros Hp. apply Iq. lia.
    + lia.
Qed.

Lemma live_setEnded (n : SourceNode) : live (setEnded n) = live n.
Proof. reflexivity. Qed.

(** An [ended] event keeps the invariant. *)
Lemma endedEvent_inv (w w' : World) (h : nat) :
  serialInv w -> endedEvent w h = Some w' -> serialInv w'.
Proof.
  intros [Il Ic Iq Io]. unfold endedEvent.
  destruct (sourceNodes (audioContext (player w)) !! h) as [n0|] eqn:En0;
    [|discriminate].
  destruct (canEnd n0); [|discriminate].
  set (p1 := setContext (player w)
               (updSource (audioContext (player w)) h setEnded)).
  assert (Hsrc : forall h' n,
            sourceNodes (audioContext p1) !! h' = Some n ->
            exists m, sourceNodes (audioContext (player w)) !! h' = Some m /\
                      live m = live n /\ started m = started n).
  { intros h' n. subst p1. cbn [setContext audioContext].
    rewrite lookup_updSource. case_decide as E.
    - subst h'. rewrite En0. cbn. intros [= <-]. eauto.
    - intros Hn. eauto. }
  assert (Hl1 : liveIsCurrent p1).
  { intros h' n Hn Hlv. destruct (Hsrc h' n Hn) as (m & Hm & E1 & _).
    apply (Il h' m Hm). congruence. }
  assert (Hc1 : currentStarted p1).
  { intros h' Hh'. destruct (Ic h' Hh') as (m & Hm & Hst).
    subst p1. cbn [setContext audioContext]. rewrite lookup_updSource.
    case_decide as E.
    - subst h'. rewrite Hm. cbn. eauto.
    - eauto. }
  assert (Hq1 : (1 <= playCount (pending w))%nat -> noneLive p1).
  { intros Hp h' n Hn. destruct (Hsrc h' n Hn) as (m & Hm & E1 & _).
    rewrite <- E1. exact (Iq Hp h' m Hm). }
  destruct (endedListener n0).
  - unfold endedListenerBody. cbn [setFlags onSegmentEnd].
    destruct (onSegmentEnd p1); intros [= <-]; split; assumption.
  - intros [= <-]. split; assumption.
Qed.

Lemma step_inv (l : Label) (w w' : World) :
  serialInv w -> serialLabel l w = true -> step l w = Some w' ->
  serialInv w'.
Proof.
  intros I Hser. destruct l as [c | i | h]; cbn [step].
  - intros [= <-]. now apply call_inv.
  - destruct (pending w !! i) as [t|] eqn:Hi; [|discriminate].
    intros [= <-]. now apply runTask_inv.
  - now apply endedEvent_inv.
Qed.

Lemma initial_inv (s : ContextState) : serialInv (initial s).
Proof.
  split; cbn.
  - intros h n Hn. discriminate.
  - intros h Hh. discriminate.
  - lia.
  - lia.
Qed.

Lemma runSerial_inv (tr : list Label) : forall w w',
  serialInv w -> runSerial tr w = Some w' -> serialInv w'.
Proof.
  induction tr as [|l tr IH]; intros w w' I; cbn [runSerial].
  - now intros [= <-].
  - destruct (serialLabel l w) eqn:Hser; [|discriminate].
    destruct (step l w) as [w1|] eqn:Hstep; [|discriminate].
    apply IH. exact (step_inv l w w1 I Hser Hstep).
Qed.

(** ** Awaiting [stop] *)

Lemma delete_snoc {A} (l : list A) (x : A) : delete (length l) (l ++ [x]) = l.
Proof. induction l as [|y l IH]; cbn; [reflexivity | now f_equal]. Qed.

(** An awaited [stop()] always completes, leaves the other pending tasks
    and the log alone, and leaves the player as [stopDone] says. *)
Lemma awaitStop_eq (w : World) :
  awaitStop w
  = Some {| player := stopDone (player w); pending := pending w;
            log := log w |}.
Proof.
  unfold awaitStop, stopDone. cbn [call].
  destruct (stopSync (player w)) as [p1 waiting] eqn:Es.
  destruct waiting; cbn [pending].
  - rewrite length_app. cbn [length].
    destruct (Nat.eqb_spec (length (pending w) + 1) (length (pending w)));
      [lia|].
    cbn [run step pending player log].
    rewrite list_lookup_middle by reflexivity. rewrite delete_snoc.
    cbn [runTask pending player log].
    rewrite list_lookup_middle by reflexivity. rewrite delete_snoc.
    cbn [runTask pending player log].
    rewrite list_lookup_middle by reflexivity. rewrite delete_snoc.
    cbn [runTask pending player log].
    destruct p1 as [[st srcs gains] cs cb cg ip sr lm k]. reflexivity.
  - rewrite app_nil_r, Nat.eqb_refl. reflexivity.
Qed.

Lemma stopDone_idempotent (p : Player) : stopDone (stopDone p) = stopDone p.
Proof.
  destruct p as [[st srcs gains] cs cb cg ip sr lm k].
  unfold stopDone, stopSync, stopCleanupSource, sourceStop.
  cbn [setFlags currentSource audioContext sourceNodes].
  destruct cs as [h|].
  - destruct (srcs !! h) as [n|] eqn:En.
    + destruct (started n) eqn:Est.
      * destruct cg as [g|], st; cbn; reflexivity.
      * cbn. rewrite En, Est. reflexivity.
    + cbn. rewrite En. reflexivity.
  - destruct cg as [g|], st; cbn; reflexivity.
Qed.

(** ** C1 *)

Lemma filter_none {A} (f : A -> bool) (l : list A) :
  (forall x, f x = false) -> List.filter f l = [].
Proof.
  intros H. induction l as [|x l IH]; cbn; [reflexivity|].
  now rewrite H.
Qed.

Lemma noneLive_soundingCount (w : World) :
  noneLive (player w) -> soundingCount w = 0%nat.
Proof.
  intros Hq. unfold soundingCount, soundingHandles.
  rewrite filter_none; [reflexivity|].
  intros h. unfold soundingAt.
  destruct (sourceNodes _ !! h) as [n|] eqn:En; [|reflexivity].
  destruct (sounding _ n) eqn:Es; [|reflexivity].
  apply sounding_live in Es. rewrite (Hq h n En) in Es. discriminate.
Qed.

(** C1, as stated, fails: two playSegment calls in a row, the second made
    before the first has finished, leave two sounding sources. *)
Lemma overlapping_calls_two_sources :
  option_map soundingCount (run overlappingCalls (initial running)) = Some 2%nat.
Proof. vm_compute. reflexivity. Qed.

(** C1, amended: for every sequence of playSegment and stop calls (with
    setLoopMode calls, resumed continuations and ended events interleaved
    in any order) in which no playSegment is called while an earlier
    playSegment is still in flight, at most one source is sounding at any
    instant; nothing sounds while a playSegment is in flight, since its
    first act is to stop and disconnect the current source; and an awaited
    stop always completes, a second one in a row leaving the whole engine
    state unchanged. *)
Theorem single_source_when_serial (s : ContextState) (tr : list Label)
    (w : World) :
  runSerial tr (initial s) = Some w ->
  (soundingCount w <= 1)%nat /\
  (playPending w = true -> soundingCount w = 0%nat) /\
  exists w1, awaitStop w = Some w1 /\ awaitStop w1 = Some w1.
Proof.
  intros Hrun.
  pose proof (runSerial_inv tr _ _ (initial_inv s) Hrun) as I.
  split; [now apply serialInv_soundingCount|]. split.
  - intros Hp. apply noneLive_soundingCount. apply (invQuiet w I).
    destruct (playCount (pending w)) eqn:E; [|lia].
    apply playPending_count in E. congruence.
  - eexists. split; [apply awaitStop_eq|].
    rewrite awaitStop_eq. cbn [player pending log].
    now rewrite stopDone_idempotent.
Qed.

Lemma single_source_when_serial_witness :
  exists w : World,
    runSerial (awaitedPlay ++ awaitedPlay) (initial running) = Some w /\
    soundingCount w = 1%nat /\
    (soundingCount w <= 1)%nat /\
    (playPending w = true -> soundingCount w = 0%nat) /\
    exists w1, awaitStop w = Some w1 /\ awaitStop w1 = Some w1.
Proof.
  eexists. split; [vm_compute; reflexivity|].
  split; [vm_compute; reflexivity|].
  apply (single_source_when_serial running (awaitedPlay ++ awaitedPlay)).
  vm_compute. reflexivity.
Defined.

(** ** The completion callback *)

Lemma endedAt_updSource (p : Player) (ctx : AudioContext) (h h0 : nat)
    (f : SourceNode -> SourceNode) :
  (forall n, ended n = true -> ended (f n) = true) ->
  (exists n, sourceNodes ctx !! h = Some n /\ ended n = true) ->
  exists n, sourceNodes (updSource ctx h0 f) !! h = Some n /\ ended n = true.
Proof.
  intros Hf (n & Hn & He). rewrite lookup_updSource. case_decide.
  - rewrite Hn. cbn. eauto.
  - eauto.
Qed.

Lemma stopCleanupSource_endedAt (p p2 : Player) (h : nat) :
  stopCleanupSource p = Some p2 -> endedAt p h -> endedAt p2 h.
Proof.
  unfold stopCleanupSource, sourceStop, endedAt. intros Hs H.
  destruct (currentSource p) as [h0|]; [|now injection Hs as <-].
  destruct (sourceNodes (audioContext p) !! h0) as [n0|]; [|discriminate].
  destruct (started n0); [|discriminate].
  injection Hs as <-. cbn [setCurrentSource setContext audioContext].
  unfold sourceDisconnect.
  apply (endedAt_updSource p); [auto|].
  apply (endedAt_updSource p); [auto | exact H].
Qed.

Lemma stopSync_endedAt (p : Player) (h : nat) :
  endedAt p h -> endedAt (fst (stopSync p)) h.
Proof.
  intros H. unfold stopSync.
  destruct (stopCleanupSource (setFlags p false true)) as [p2|] eqn:E.
  - apply (stopCleanupSource_endedAt _ _ h E) in H.
    unfold endedAt in *.
    destruct (ctxState (audioContext (stopCleanupGain p2))); cbn [fst];
      rewrite (proj2 (stopCleanupGain_sources p2)); exact H.
  - exact H.
Qed.

Lemma startSource_endedAt (p : Player) (played original : AudioBuffer)
    (looping listen : bool) (h : nat) :
  endedAt p h -> endedAt (startSource p played original looping listen) h.
Proof.
  intros (n & Hn & He). rewrite startSource_eq. exists n.
  split; [|exact He]. cbn [audioContext sourceNodes].
  now apply lookup_app_l_Some.
Qed.

Lemma playSegmentBody_endedAt (p : Player) (b : AudioBuffer)
    (s e : option Q) (h : nat) :
  endedAt p h -> endedAt (fst (playSegmentBody p b s e)) h.
Proof.
  intros H. unfold playSegmentBody.
  destruct (invalidTimes _ _ _); cbn [fst].
  - now apply startSource_endedAt.
  - unfold playSegmentWithMode. destruct (makeSegment _ _ _); cbn [fst].
    + now apply startSource_endedAt.
    + exact H.
Qed.

Lemma step_endedAt (l : Label) (w w' : World) (h : nat) :
  step l w = Some w' -> endedAt (player w) h -> endedAt (player w') h.
Proof.
  destruct l as [c | i | h0]; cbn [step].
  - intros [= <-] H. destruct c as [[b|] s e | | mode cb]; cbn [call].
    + pose proof (stopSync_endedAt _ h H) as H'.
      destruct (stopSync (player w)). exact H'.
    + exact H.
    + pose proof (stopSync_endedAt _ h H) as H'.
      destruct (stopSync (player w)). exact H'.
    + exact H.
  - destruct (pending w !! i) as [t|]; [|discriminate].
    intros [= <-] H. destruct t as [b s e | b s e | | | ]; cbn [runTask].
    + destruct (ctxState _); [|exact H].
      unfold finishPlay.
      pose proof (playSegmentBody_endedAt
                    (setFlags (player w) (isPlaying (player w)) false)
                    b s e h H) as H'.
      destruct (playSegmentBody _ b s e). exact H'.
    + unfold finishPlay.
      pose proof (playSegmentBody_endedAt
                    (setContext (player w)
                       (setCtxState (audioContext (player w)) running))
                    b s e h H) as H'.
      destruct (playSegmentBody _ b s e). exact H'.
    + exact H.
    + exact H.
    + exact H.
  - unfold endedEvent.
    destruct (sourceNodes (audioContext (player w)) !! h0) as [n0|];
      [|discriminate].
    destruct (canEnd n0); [|discriminate].
    intros Hw H.
    assert (H' : endedAt (setContext (player w)
                   (updSource (audioContext (player w)) h0 setEnded)) h)
      by (apply (endedAt_updSource (player w)); [auto | exact H]).
    destruct (endedListener n0).
    + unfold endedListenerBody in Hw. cbn [setFlags onSegmentEnd] in Hw.
      destruct (onSegmentEnd _); injection Hw as <-; exact H'.
    + injection Hw as <-. exact H'.
Qed.

Lemma run_endedAt (tr : list Label) (h : nat) : forall w w',
  run tr w = Some w' -> endedAt (player w) h -> endedAt (player w') h.
Proof.
  induction tr as [|l tr IH]; intros w w'; cbn [run].
  - now intros [= <-].
  - destruct (step l w) as [w1|] eqn:Hs; [|discriminate].
    intros Hr H. apply (IH w1 w' Hr). exact (step_endedAt l w w1 h Hs H).
Qed.

(** In 'once' mode with a callback registered, the source that
    [playSegmentWithMode] starts does not loop and carries the listener; in
    'loop' mode, or without a callback, it carries none. *)
Lemma playSegmentWithMode_listener (p p' : Player) (b : AudioBuffer)
    (s e : Q) :
  playSegmentWithMode p b s e = (p', Fulfilled) ->
  exists n, currentNode p' = Some n /\
            loop n = negb (isOnce (loopMode p)) /\
            endedListener n
            = isOnce (loopMode p) && bool_decide (is_Some (onSegmentEnd p)).
Proof.
  unfold playSegmentWithMode.
  destruct (makeSegment b s e) as [seg|]; [|discriminate].
  intros [= <-]. rewrite startSource_eq. unfold currentNode.
  cbn [currentSource audioContext sourceNodes].
  eexists. split; [apply list_lookup_middle; reflexivity|].
  split; reflexivity.
Qed.

(** The segment's node in [playingOnce]: it does not loop and carries the
    listener. *)
Example playingOnce_node :
  sourceNodes (audioContext (player playingOnce)) !! 0%nat
  = Some {| buffer := Some {| sampleRate := 4; bufLength := 4;
                              channels := [[Num 2; Num 3; Num 4; Num 5]] |};
            loop := false; out := Some 0%nat; started := true;
            stopped := false; ended := false; endedListener := true |}.
Proof. vm_compute. reflexivity. Qed.

(** C9, as stated, fails: after the caller's stop() the stopped node's
    ended event runs the listener, and the callback is invoked although the
    segment did not finish by itself. *)
Lemma callback_fires_after_stop :
  (stopped <$> sourceNodes (audioContext (player stoppedByCaller)) !! 0%nat)
  = Some true /\
  option_map log (endedEvent stoppedByCaller 0)
  = Some (log stoppedByCaller ++ [CallbackInvoked 0 false]).
Proof. split; vm_compute; reflexivity. Qed.

(** C9, amended: the listener that playSegment attaches in 'once' mode
    runs when the ended event of the segment's source is dispatched, which
    happens once per source, when the segment has finished by itself or
    after stop() has stopped it; it sets isPlaying to false and then
    invokes the callback registered at that moment, exactly once; the event
    cannot happen again for that source. *)
Theorem ended_listener_fires_once (w w' : World) (h : nat) (n : SourceNode)
    (cb : nat) :
  sourceNodes (audioContext (player w)) !! h = Some n ->
  endedListener n = true ->
  onSegmentEnd (player w) = Some cb ->
  endedEvent w h = Some w' ->
  (stopped n = true \/ loop n = false) /\
  log w' = log w ++ [CallbackInvoked cb false] /\
  isPlaying (player w') = false /\
  forall tr w'', run tr w' = Some w'' -> endedEvent w'' h = None.
Proof.
  intros Hn Hl Hcb. unfold endedEvent. rewrite Hn, Hl.
  destruct (canEnd n) eqn:Hce; [|discriminate].
  unfold endedListenerBody. cbn [setFlags setContext onSegmentEnd].
  rewrite Hcb. cbn [isPlaying]. intros [= <-].
  split.
  { unfold canEnd in Hce. destruct (stopped n), (loop n); auto.
    now rewrite andb_false_r in Hce. }
  split; [reflexivity|]. split; [reflexivity|].
  intros tr w'' Hrun.
  assert (He : endedAt (player w'') h).
  { apply (run_endedAt tr h _ _ Hrun). cbn [player].
    unfold endedAt. cbn [audioContext setContext setFlags].
    rewrite lookup_updSource, decide_True, Hn by reflexivity.
    cbn. eauto. }
  destruct He as (m & Hm & Hend). rewrite Hm.
  unfold canEnd. rewrite Hend. cbn. now rewrite andb_false_r.
Qed.

Lemma ended_listener_fires_once_witness :
  exists (n : SourceNode) (w' : World),
    sourceNodes (audioContext (player playingOnce)) !! 0%nat = Some n /\
    endedEvent playingOnce 0 = Some w' /\
    (stopped n = true \/ loop n = false) /\
    log w' = log playingOnce ++ [CallbackInvoked 0 false] /\
    isPlaying (player w') = false /\
    forall tr w'', run tr w' = Some w'' -> endedEvent w'' 0 = None.
Proof.
  eexists _, _. split; [vm_compute; reflexivity|].
  split; [vm_compute; reflexivity|].
  apply (ended_listener_fires_once playingOnce _ 0 _ 0);
    vm_compute; reflexivity.
Defined.

(** Every invocation of the callback finds isPlaying already false. *)
Lemma callback_sees_not_playing (l : Label) (w w' : World) :
  step l w = Some w' ->
  forall cb flag, In (CallbackInvoked cb flag) (log w') ->
    In (CallbackInvoked cb flag) (log w) \/ flag = false.
Proof.
  destruct l as [c | i | h]; cbn [step].
  - intros [= <-] cb flag. destruct c as [[b|] s e | | mode k]; cbn [call].
    + destruct (stopSync (player w)). cbn. auto.
    + cbn. rewrite in_app_iff. cbn. intuition discriminate.
    + destruct (stopSync (player w)). cbn. auto.
    + cbn. auto.
  - destruct (pending w !! i) as [t|]; [|discriminate].
    intros [= <-] cb flag.
    destruct t as [b s e | b s e | | | ]; cbn [runTask]; cbn; auto.
    + destruct (ctxState _); cbn; auto.
      unfold finishPlay. destruct (playSegmentBody _ b s e). cbn.
      rewrite in_app_iff. cbn. intuition discriminate.
    + unfold finishPlay. destruct (playSegmentBody _ b s e). cbn.
      rewrite in_app_iff. cbn. intuition discriminate.
  - unfold endedEvent.
    destruct (sourceNodes (audioContext (player w)) !! h) as [n|];
      [|discriminate].
    destruct (canEnd n); [|discriminate].
    destruct (endedListener n).
    + unfold endedListenerBody. cbn [setFlags onSegmentEnd isPlaying].
      destruct (onSegmentEnd _); intros [= <-] cb flag; cbn; auto.
      rewrite in_app_iff. cbn. intros [H | [[= _ <-] | []]]; auto.
    + intros [= <-] cb flag. cbn. auto.
Qed.

End AudioPlayerFacts.

(* ====================================================================== *)
(** * Properties of rounding *)
(* ====================================================================== *)

Module Binary64Facts.

Import Binary64.
Local Open Scope Z_scope.



















(** ** Rounding a rational number *)








End Binary64Facts.

(* ====================================================================== *)
(** * Properties of the window of [playSegment] *)
(* ====================================================================== *)

Module AudioPlayer64Facts.

Import AudioPlayer Binary64 AudioPlayer64.

(** ** The segment copy *)


(** ** The test on the window *)

Lemma test_true (a z bound d : Q) :
  geq a z || lt a 0 || gt z bound || geq a d = true <->
  (z <= a \/ a < 0 \/ bound < z \/ d <= a)%Q.
Proof.
  rewrite !orb_true_iff, !AudioPlayerFacts.geq_true,
    AudioPlayerFacts.lt_true, AudioPlayerFacts.gt_true.
  tauto.
Qed.


Lemma window_test_true (b : AudioBuffer) (a z : Q) :
  invalidTimes b a z = true <->
  (z <= a \/ a < 0 \/ add (duration b) tolerance < z \/ duration b <= a)%Q.
Proof. exact (test_true a z (add (duration b) tolerance) (duration b)). Qed.









(** ** Rounding shows *)

(** The window from 0 to 0.15 s at 8000 frames per second: the rounded
    product gives 1200 frames where the exact product of the same two
    doubles gives 1199. *)
Example rounded_product_frames :
  Qfloor (mul (sub fifteenHundredths 0) (sampleRate tone)) = 1200%Z /\
  Qfloor ((fifteenHundredths - 0) * sampleRate tone) = 1199%Z.
Proof. vm_compute. split; reflexivity. Qed.

(** An end that equals the rounded sum of the duration and 0.1 is accepted
    although it lies more than one tenth past the duration. *)
Example end_at_rounded_threshold :
  (duration tone + (1 # 10) < add (duration tone) tolerance)%Q /\
  invalidTimes tone tenth (add (duration tone) tolerance) = false.
Proof. vm_compute. split; reflexivity. Qed.




(** C6, amended: the test is on the window after the defaults are resolved
    (a start that is absent or 0 becomes 0, an end that is absent or 0
    becomes the duration) and its last bound is the double that the sum of
    the duration and 0.1 rounds to.  Whenever that window has start >= end,
    start < 0, start >= duration or end above that bound, playSegment is
    fulfilled and plays the entire buffer, looped; in every other case the
    window goes to playSegmentWithMode with its end clamped to the
    duration. *)
Theorem invalid_window_falls_back (p : Player) (b : AudioBuffer)
    (startTime endTime : option Q) :
  ((orDefault endTime (duration b) <= orDefault startTime 0 \/
    orDefault startTime 0 < 0 \/
    duration b <= orDefault startTime 0 \/
    add (duration b) tolerance < orDefault endTime (duration b))%Q ->
   playSegmentBody p b startTime endTime = (playSimpleLoop p b, Fulfilled) /\
   nowPlaying (playSimpleLoop p b) b true) /\
  (~ (orDefault endTime (duration b) <= orDefault startTime 0 \/
      orDefault startTime 0 < 0 \/
      duration b <= orDefault startTime 0 \/
      add (duration b) tolerance < orDefault endTime (duration b))%Q ->
   playSegmentBody p b startTime endTime
   = playSegmentWithMode p b (orDefault startTime 0)
       (mathMin (orDefault endTime (duration b)) (duration b))).
Proof.
  split.
  - intros H. split; [|apply AudioPlayerFacts.startSource_nowPlaying].
    unfold playSegmentBody.
    assert (E : invalidTimes b (orDefault startTime 0)
                  (orDefault endTime (duration b)) = true)
      by (apply window_test_true; tauto).
    now rewrite E.
  - intros H. unfold playSegmentBody.
    destruct (invalidTimes b (orDefault startTime 0)
                (orDefault endTime (duration b))) eqn:E; [|reflexivity].
    exfalso. apply H. apply window_test_true in E. tauto.
Qed.

Lemma invalid_window_falls_back_witness :
  (playSegmentBody oncePlayer tone (Some 5%Q) (Some 1%Q)
   = (playSimpleLoop oncePlayer tone, Fulfilled) /\
   nowPlaying (playSimpleLoop oncePlayer tone) tone true) /\
  playSegmentBody oncePlayer tone (Some tenth)
    (Some (add (duration tone) tolerance))
  = playSegmentWithMode oncePlayer tone (orDefault (Some tenth) 0)
      (mathMin (orDefault (Some (add (duration tone) tolerance))
                  (duration tone)) (duration tone)).
Proof.
  split.
  - apply (invalid_window_falls_back oncePlayer tone (Some 5%Q) (Some 1%Q)).
    left. vm_compute. discriminate.
  - apply (invalid_window_falls_back oncePlayer tone (Some tenth)
             (Some (add (duration tone) tolerance))).
    vm_compute. intros [H|[H|[H|H]]]; [apply H; reflexivity|discriminate H|
      apply H; reflexivity|discriminate H].
Defined.

(** On the windows of the two examples that refute C6 and C8 the exact and
    the rounded computation agree: no number in them needs rounding. *)
Example exact_and_rounded_agree :
  playSegmentBody (construct running) demoBuffer (Some (1 # 2)) (Some 0%Q)
  = AudioPlayer.playSegmentBody (construct running) demoBuffer
      (Some (1 # 2)) (Some 0%Q) /\
  playSegmentBody oncePlayer demoBuffer (Some 1%Q) (Some 0%Q)
  = AudioPlayer.playSegmentBody oncePlayer demoBuffer (Some 1%Q) (Some 0%Q).
Proof. vm_compute. split; reflexivity. Qed.



End AudioPlayer64Facts.

(* ====================================================================== *)
(** * Properties of the scene-audio glue *)
(* ====================================================================== *)

Module MainFacts.

Import AudioPlayer Main MainNotions.





Lemma byNewest_plain (newest : Token) (sc : Scene) (o : Obs) :
  obsToken o = newest -> isPlaySegment o = false -> byNewest newest sc o.
Proof. intros H1 H2. split; [exact H1|]. rewrite H2. discriminate. Qed.














(** In that run the second request does reach playSegment, for scene 3. *)
Example newest_request_plays :
  trace demoFinal
  = [SetStatus "z81mm2p0c"%string LoadingAudio;
     LoadAudioFromZip "z81mm2p0c"%string "c.wav"%string;
     PlayerSetLoopMode "z81mm2p0c"%string loopForever;
     PlayerPlaySegment "z81mm2p0c"%string (demoScene 3 "c.wav"%string)
       (Some (1 # 2)) (Some (3 # 2));
     Dispatched "z81mm2p0c"%string EventSystem.AUDIO_STARTED;
     SetStatus "z81mm2p0c"%string PlayingLooped].
Proof. vm_compute. reflexivity. Qed.

(** The code has no check after playing: a request superseded while its
    playSegment call is in flight still dispatches AUDIO_STARTED and writes
    the status text when the call returns. *)
Example no_check_after_playing :
  option_map trace
    (run [MEffect 2 "k3f9x0a1q"%string false; MTimer 0;
          MLoaded 0 (Some demoBuffer);
          MEffect 3 "z81mm2p0c"%string false; MPlayed 0 Fulfilled] demoState)
  = Some [SetStatus "k3f9x0a1q"%string LoadingAudio;
          LoadAudioFromZip "k3f9x0a1q"%string "b.wav"%string;
          PlayerSetLoopMode "k3f9x0a1q"%string loopForever;
          PlayerPlaySegment "k3f9x0a1q"%string (demoScene 2 "b.wav"%string)
            (Some (1 # 2)) (Some (3 # 2));
          Dispatched "k3f9x0a1q"%string EventSystem.AUDIO_STARTED;
          SetStatus "k3f9x0a1q"%string PlayingLooped].
Proof. vm_compute. reflexivity. Qed.

End MainFacts.

(* ====================================================================== *)
(** * More on the event system *)
(* ====================================================================== *)

Module EventSystemExtras.

Import EventSystem EventSystemNotions EventSystemFacts.
Local Open Scope Z_scope.

(** X1.  A scene index outside 1..totalScenes is ignored, by SCENE_SET and
    by SCENE_NAVIGATE alike: the stored state object stays the very same
    and no effect is derived, not even UPDATE_UI. *)
Theorem out_of_range_scene_is_ignored (sys : System) (target : Z) :
  ~ (1 <= target <= totalScenes (val (state sys))) ->
  state (fst (dispatch sys (SCENE_SET target))) = state sys /\
  snd (dispatch sys (SCENE_SET target)) = [] /\
  state (fst (dispatch sys
                (SCENE_NAVIGATE (target - currentSceneIndex (val (state sys))))))
  = state sys /\
  snd (dispatch sys
         (SCENE_NAVIGATE (target - currentSceneIndex (val (state sys))))) = [].
Proof.
  intros Hout.
  assert (E : (target >=? 1) && (target <=? totalScenes (val (state sys)))
              = false).
  { destruct (target >=? 1) eqn:E1; [|reflexivity].
    destruct (target <=? totalScenes (val (state sys))) eqn:E2;
      [|reflexivity].
    exfalso. apply Hout. lia. }
  assert (R1 : reduce (nextAddr sys) (state sys) (SCENE_SET target)
               = state sys) by (cbn; now rewrite E).
  assert (R2 : reduce (nextAddr sys) (state sys)
                 (SCENE_NAVIGATE
                    (target - currentSceneIndex (val (state sys))))
               = state sys).
  { cbn.
    replace (currentSceneIndex (val (state sys))
             + (target - currentSceneIndex (val (state sys))))
      with target by lia.
    now rewrite E. }
  unfold dispatch. cbn [fst snd state]. rewrite R1, R2.
  unfold getEffects, not_same_object.
  rewrite Nat.eqb_refl, Z.eqb_refl, Bool.eqb_reflx. cbn. auto.
Qed.

Lemma out_of_range_scene_is_ignored_witness :
  let sys := dispatchAll eventSystem [PROJECT_LOADED 3] in
  state (fst (dispatch sys (SCENE_SET 4))) = state sys /\
  snd (dispatch sys (SCENE_SET 4)) = [] /\
  state (fst (dispatch sys
                (SCENE_NAVIGATE (4 - currentSceneIndex (val (state sys))))))
  = state sys /\
  snd (dispatch sys
         (SCENE_NAVIGATE (4 - currentSceneIndex (val (state sys))))) = [].
Proof.
  apply (out_of_range_scene_is_ignored
           (dispatchAll eventSystem [PROJECT_LOADED 3]) 4).
  cbn. lia.
Defined.

(** X2.  AUTO_ADVANCE outside auto mode changes nothing and still derives
    ADVANCE_SCENE.  In auto mode it moves to the next scene, wrapping to 1,
    and derives UPDATE_UI, then STOP_AUDIO and LOAD_SCENE_AUDIO only if the
    index changed, then ADVANCE_SCENE: when the wrap leads from scene 1 to
    scene 1 (a single scene) no audio effect is derived. *)
Theorem auto_advance_effects (sys : System) :
  wf sys ->
  let s := val (state sys) in
  let next := nextScene (currentSceneIndex s) (totalScenes s) in
  if isAutoMode s then
    val (state (fst (dispatch sys AUTO_ADVANCE))) = with_index s next /\
    snd (dispatch sys AUTO_ADVANCE)
    = UPDATE_UI ::
      (if next =? currentSceneIndex s then []
       else [STOP_AUDIO; LOAD_SCENE_AUDIO next]) ++ [ADVANCE_SCENE]
  else
    state (fst (dispatch sys AUTO_ADVANCE)) = state sys /\
    snd (dispatch sys AUTO_ADVANCE) = [ADVANCE_SCENE].
Proof.
  intros Hwf s next. subst s next. unfold nextScene, dispatch.
  cbn [fst snd state reduce].
  destruct (isAutoMode (val (state sys))) eqn:Ea; cbn [negb].
  - split; [reflexivity|].
    unfold getEffects. rewrite fresh_not_same by exact Hwf.
    cbn [val spread with_index currentSceneIndex isAutoMode isPlaying
         is_PROJECT_LOADED is_PLAY_PAUSE is_AUTO_ADVANCE].
    rewrite Ea. cbn [Bool.eqb negb app].
    rewrite (Z.eqb_sym (currentSceneIndex (val (state sys)))).
    destruct (_ =? currentSceneIndex (val (state sys))); reflexivity.
  - split; [reflexivity|].
    unfold getEffects, not_same_object.
    rewrite Nat.eqb_refl, Z.eqb_refl, Bool.eqb_reflx. reflexivity.
Qed.

Lemma auto_advance_effects_witness :
  let sys := dispatchAll eventSystem [PROJECT_LOADED 1; MODE_TOGGLE] in
  val (state (fst (dispatch sys AUTO_ADVANCE)))
  = with_index (val (state sys)) 1 /\
  snd (dispatch sys AUTO_ADVANCE) = [UPDATE_UI; ADVANCE_SCENE].
Proof.
  apply (auto_advance_effects
           (dispatchAll eventSystem [PROJECT_LOADED 1; MODE_TOGGLE])).
  unfold wf. cbn. lia.
Defined.

(** X3.  MODE_TOGGLE derives UPDATE_UI and STOP_AUDIO, and reloads the
    scene's audio exactly when the new state is playing or in auto mode;
    toggling twice restores every field of the state. *)
Theorem mode_toggle_twice (sys : System) :
  wf sys ->
  let s := val (state sys) in
  snd (dispatch sys MODE_TOGGLE)
  = UPDATE_UI :: STOP_AUDIO ::
    (if isPlaying s || negb (isAutoMode s)
     then [LOAD_SCENE_AUDIO (currentSceneIndex s)] else []) /\
  val (state (fst (dispatch (fst (dispatch sys MODE_TOGGLE)) MODE_TOGGLE)))
  = s.
Proof.
  intros Hwf s. subst s. split.
  - unfold dispatch. cbn [fst snd state reduce]. unfold getEffects.
    rewrite fresh_not_same by exact Hwf.
    cbn [val spread with_auto currentSceneIndex isAutoMode isPlaying
         is_PROJECT_LOADED is_PLAY_PAUSE is_AUTO_ADVANCE].
    rewrite Z.eqb_refl.
    destruct (isAutoMode (val (state sys))), (isPlaying (val (state sys)));
      reflexivity.
  - cbn. destruct (val (state sys)) as [i a pl n ld]. cbn.
    now rewrite negb_involutive.
Qed.

Lemma mode_toggle_twice_witness :
  let sys := dispatchAll eventSystem [PROJECT_LOADED 3] in
  snd (dispatch sys MODE_TOGGLE)
  = UPDATE_UI :: STOP_AUDIO ::
    (if isPlaying (val (state sys)) || negb (isAutoMode (val (state sys)))
     then [LOAD_SCENE_AUDIO (currentSceneIndex (val (state sys)))] else []) /\
  val (state (fst (dispatch (fst (dispatch sys MODE_TOGGLE)) MODE_TOGGLE)))
  = val (state sys).
Proof.
  apply (mode_toggle_twice (dispatchAll eventSystem [PROJECT_LOADED 3])).
  unfold wf. cbn. lia.
Defined.

(** X4.  PROJECT_LOADED resets the index to 1 and derives UPDATE_UI and
    LOAD_SCENE_AUDIO{1}; if the index was not 1 before, the index-change
    rule fires as well and the same scene is requested a second time, after
    a STOP_AUDIO. *)
Theorem project_loaded_effects (sys : System) (n : Z) :
  wf sys ->
  snd (dispatch sys (PROJECT_LOADED n))
  = if currentSceneIndex (val (state sys)) =? 1
    then [UPDATE_UI; LOAD_SCENE_AUDIO 1]
    else [UPDATE_UI; LOAD_SCENE_AUDIO 1; STOP_AUDIO; LOAD_SCENE_AUDIO 1].
Proof.
  intros Hwf. unfold dispatch. cbn [fst snd state reduce]. unfold getEffects.
  rewrite fresh_not_same by exact Hwf.
  cbn [val spread currentSceneIndex isAutoMode isPlaying
       is_PROJECT_LOADED is_PLAY_PAUSE is_AUTO_ADVANCE].
  rewrite Bool.eqb_reflx.
  destruct (currentSceneIndex (val (state sys)) =? 1); reflexivity.
Qed.

Lemma project_loaded_effects_witness :
  snd (dispatch (dispatchAll eventSystem [PROJECT_LOADED 3; SCENE_SET 2])
         (PROJECT_LOADED 5))
  = [UPDATE_UI; LOAD_SCENE_AUDIO 1; STOP_AUDIO; LOAD_SCENE_AUDIO 1].
Proof.
  apply (project_loaded_effects
           (dispatchAll eventSystem [PROJECT_LOADED 3; SCENE_SET 2]) 5).
  unfold wf. cbn. lia.
Defined.


Lemma dispatchAll_snoc (sys : System) (evs : list AppEvent) (ev : AppEvent) :
  dispatchAll sys (evs ++ [ev]) = fst (dispatch (dispatchAll sys evs) ev).
Proof. unfold dispatchAll. now rewrite fold_left_app. Qed.

(** Every LOAD_SCENE_AUDIO derived by [getEffects] names the index of the
    new state. *)
Lemma getEffects_load (o n : StateObj) (ev : AppEvent) (i : Z) :
  In (LOAD_SCENE_AUDIO i) (getEffects o n ev) ->
  i = currentSceneIndex (val n).
Proof.
  unfold getEffects. rewrite !in_app_iff.
  intros [H | [H | [H | [H | [H | H]]]]].
  - destruct (not_same_object o n); cbn in H; intuition discriminate.
  - destruct (is_PROJECT_LOADED ev); cbn in H; intuition congruence.
  - destruct (negb _); cbn in H; intuition (discriminate || congruence).
  - destruct (negb _); cbn in H; [|contradiction].
    destruct H as [H | H]; [discriminate|].
    destruct (_ || _); cbn in H; intuition congruence.
  - destruct (is_PLAY_PAUSE ev); cbn in H; [|contradiction].
    destruct (isPlaying (val o)); cbn in H;
      intuition (discriminate || congruence).
  - destruct (is_AUTO_ADVANCE ev); cbn in H; intuition discriminate.
Qed.

(** X5.  Whatever events were dispatched before, every LOAD_SCENE_AUDIO
    effect of a dispatch names the scene index of the state it leads to,
    and that index is 1 or lies within 1..totalScenes. *)
Theorem load_effect_names_current_scene (evs : list AppEvent)
    (ev : AppEvent) (i : Z) :
  In (LOAD_SCENE_AUDIO i) (effectsAfter evs ev) ->
  i = currentSceneIndex (reached (evs ++ [ev])) /\
  (i = 1 \/ 1 <= i <= totalScenes (reached (evs ++ [ev]))).
Proof.
  unfold effectsAfter, reached. rewrite dispatchAll_snoc.
  intros H. apply getEffects_load in H.
  change (reduce _ _ ev) with
    (state (fst (dispatch (dispatchAll eventSystem evs) ev))) in H.
  split; [exact H|]. rewrite H.
  rewrite <- dispatchAll_snoc.
  apply (dispatchAll_indexOk (evs ++ [ev]) eventSystem). now left.
Qed.

Lemma load_effect_names_current_scene_witness :
  3 = currentSceneIndex
        (reached ([PROJECT_LOADED 4; SCENE_SET 2] ++ [SCENE_NAVIGATE 1])) /\
  (3 = 1 \/
   1 <= 3 <= totalScenes
               (reached ([PROJECT_LOADED 4; SCENE_SET 2]
                         ++ [SCENE_NAVIGATE 1]))).
Proof.
  apply (load_effect_names_current_scene [PROJECT_LOADED 4; SCENE_SET 2]
           (SCENE_NAVIGATE 1) 3).
  vm_compute. tauto.
Defined.

Lemma dispatchAll_total (evs : list AppEvent) : forall sys,
  totalScenes (val (state (dispatchAll sys evs)))
  = lastTotal (totalScenes (val (state sys))) evs /\
  projectLoaded (val (state (dispatchAll sys evs)))
  = projectLoaded (val (state sys)) || existsb is_PROJECT_LOADED evs.
Proof.
  induction evs as [|e evs IH]; intros sys; cbn [dispatchAll fold_left].
  - cbn. now rewrite orb_false_r.
  - fold (dispatchAll (fst (dispatch sys e)) evs).
    destruct (IH (fst (dispatch sys e))) as [-> ->].
    cbn [existsb lastTotal].
    destruct e as [n|d|i| | | | | ]; cbn [dispatch fst state reduce].
    + cbn. split; [reflexivity|]. now rewrite orb_true_r.
    + destruct (_ && _); cbn; rewrite ?orb_false_l; split; reflexivity.
    + destruct (_ && _); cbn; rewrite ?orb_false_l; split; reflexivity.
    + cbn. split; reflexivity.
    + cbn. split; reflexivity.
    + cbn. split; reflexivity.
    + cbn. split; reflexivity.
    + destruct (negb _); cbn; split; reflexivity.
Qed.

(** X6.  Only PROJECT_LOADED writes totalScenes and projectLoaded: after
    any events, totalScenes is what the last PROJECT_LOADED carried (0 if
    there was none) and projectLoaded tells whether there was one; no event
    sets projectLoaded back to false. *)
Theorem total_scenes_from_last_load (evs : list AppEvent) :
  totalScenes (reached evs) = lastTotal 0 evs /\
  projectLoaded (reached evs) = existsb is_PROJECT_LOADED evs.
Proof. apply (dispatchAll_total evs eventSystem). Qed.


End EventSystemExtras.

(* ====================================================================== *)
(** * More on the audio player *)
(* ====================================================================== *)

Module AudioPlayerExtras.

Import AudioPlayer AudioPlayerNotions AudioPlayerFacts.

(** ** [getDuration] *)

Lemma stopSync_currentBuffer (p : Player) :
  currentBuffer (fst (stopSync p)) = currentBuffer p.
Proof.
  unfold stopSync.
  destruct (stopCleanupSource (setFlags p false true)) as [p2|] eqn:E;
    [|reflexivity].
  assert (H2 : currentBuffer p2 = currentBuffer p).
  { revert E. unfold stopCleanupSource.
    destruct (currentSource _); [|now intros [= <-]].
    destruct (sourceStop _ _); [|discriminate]. now intros [= <-]. }
  assert (H3 : currentBuffer (stopCleanupGain p2) = currentBuffer p2)
    by (unfold stopCleanupGain; now destruct (currentGain p2)).
  destruct (ctxState _); cbn [fst]; congruence.
Qed.

Lemma stopDone_currentBuffer (p : Player) :
  currentBuffer (stopDone p) = currentBuffer p.
Proof.
  unfold stopDone. pose proof (stopSync_currentBuffer p) as H.
  destruct (stopSync p) as [p1 [|]]; exact H.
Qed.

(** X7.  After a fulfilled playSegment, getDuration reports the duration
    of the whole buffer that was passed in, not that of the segment being
    played, and it goes on reporting it after stop(). *)
Theorem getDuration_is_whole_buffer (p p' : Player) (b : AudioBuffer)
    (s e : option Q) :
  playSegmentBody p b s e = (p', Fulfilled) ->
  (getDuration p' == duration b)%Q /\
  getDuration (stopDone p') = getDuration p'.
Proof.
  intros H.
  assert (Hb : currentBuffer p' = Some b).
  { revert H. unfold playSegmentBody, playSimpleLoop, playSegmentWithMode.
    destruct (invalidTimes _ _ _).
    - intros [= <- ]. now rewrite startSource_eq.
    - destruct (makeSegment _ _ _); [|discriminate].
      intros [= <-]. now rewrite startSource_eq. }
  split.
  - unfold getDuration. rewrite Hb. cbn [option_map].
    apply orDefault_Qeq. reflexivity.
  - unfold getDuration. now rewrite stopDone_currentBuffer.
Qed.

Lemma getDuration_is_whole_buffer_witness :
  (getDuration (fst (playSegmentBody (construct running) demoBuffer
                       (Some (1 # 2)) (Some (3 # 2))))
   == duration demoBuffer)%Q /\
  getDuration (stopDone (fst (playSegmentBody (construct running) demoBuffer
                                (Some (1 # 2)) (Some (3 # 2)))))
  = getDuration (fst (playSegmentBody (construct running) demoBuffer
                        (Some (1 # 2)) (Some (3 # 2)))).
Proof.
  apply (getDuration_is_whole_buffer (construct running) _ demoBuffer
           (Some (1 # 2)) (Some (3 # 2))).
  vm_compute. reflexivity.
Defined.

(** ** The tolerance of the window test *)



(** ** What [stop] and [playSegment] leave alone *)

(** [stop] touches no source node but the current one and no gain node but
    the current one, and it never makes another node current. *)
Lemma stopSync_frame (p : Player) :
  (forall h, currentSource p <> Some h ->
     sourceNodes (audioContext (fst (stopSync p))) !! h
     = sourceNodes (audioContext p) !! h) /\
  (forall g, currentGain p <> Some g ->
     gainNodes (audioContext (fst (stopSync p))) !! g
     = gainNodes (audioContext p) !! g) /\
  (currentSource (fst (stopSync p)) = None \/
   currentSource (fst (stopSync p)) = currentSource p) /\
  (currentGain (fst (stopSync p)) = None \/
   currentGain (fst (stopSync p)) = currentGain p).
Proof.
  destruct p as [[st srcs gains] cs cb cg ip sr lm k].
  unfold stopSync, stopCleanupSource, sourceStop, stopCleanupGain.
  cbn [setFlags currentSource currentGain audioContext sourceNodes].
  destruct cs as [h0|].
  - destruct (srcs !! h0) as [n0|] eqn:En; [|cbn; auto].
    destruct (started n0); [|cbn; auto].
    destruct cg as [g0|], st; cbn; repeat split; auto;
      intros x Hx;
      rewrite ?list_lookup_alter_ne by congruence;
      rewrite ?list_lookup_insert_ne by congruence; reflexivity.
  - destruct cg as [g0|], st; cbn; repeat split; auto;
      intros x Hx;
      rewrite ?list_lookup_insert_ne by congruence; reflexivity.
Qed.

Lemma stopSync_orphan (p : Player) (h : nat) :
  orphan p h -> orphan (fst (stopSync p)) h.
Proof.
  intros (n & g & Hn & Hc & Ho & Hg & Hgn & Hrest).
  destruct (stopSync_frame p) as (Fs & Fg & Cs & Cg).
  exists n, g. rewrite (Fs h Hc), (Fg g Hg).
  repeat split; try tauto.
  - destruct Cs as [-> | ->]; [discriminate | exact Hc].
  - destruct Cg as [-> | ->]; [discriminate | exact Hg].
Qed.

Lemma startSource_orphan (p : Player) (played original : AudioBuffer)
    (looping listen : bool) (h : nat) :
  orphan p h -> orphan (startSource p played original looping listen) h.
Proof.
  intros (n & g & Hn & Hc & Ho & Hg & Hgn & Hrest).
  rewrite startSource_eq. exists n, g.
  cbn [audioContext sourceNodes gainNodes currentSource currentGain].
  pose proof (lookup_lt_Some _ _ _ Hn) as Hlt.
  pose proof (lookup_lt_Some _ _ _ Hgn) as Hglt.
  rewrite !lookup_app_l by assumption.
  repeat split; try tauto.
  - intros [= E]. lia.
  - intros [= E]. lia.
Qed.

Lemma playSegmentBody_orphan (p : Player) (b : AudioBuffer)
    (s e : option Q) (h : nat) :
  orphan p h -> orphan (fst (playSegmentBody p b s e)) h.
Proof.
  intros H. unfold playSegmentBody.
  destruct (invalidTimes _ _ _); cbn [fst].
  - now apply startSource_orphan.
  - unfold playSegmentWithMode. destruct (makeSegment _ _ _); cbn [fst].
    + now apply startSource_orphan.
    + exact H.
Qed.

Lemma step_orphan (l : Label) (w w' : World) (h : nat) :
  step l w = Some w' -> orphan (player w) h -> orphan (player w') h.
Proof.
  destruct l as [c | i | h0]; cbn [step].
  - intros [= <-] H. destruct c as [[b|] s e | | mode cb]; cbn [call].
    + pose proof (stopSync_orphan _ h H) as H'.
      destruct (stopSync (player w)). exact H'.
    + exact H.
    + pose proof (stopSync_orphan _ h H) as H'.
      destruct (stopSync (player w)). exact H'.
    + exact H.
  - destruct (pending w !! i) as [t|]; [|discriminate].
    intros [= <-] H. destruct t as [b s e | b s e | | | ]; cbn [runTask].
    + destruct (ctxState _); [|exact H].
      unfold finishPlay.
      pose proof (playSegmentBody_orphan
                    (setFlags (player w) (isPlaying (player w)) false)
                    b s e h H) as H'.
      destruct (playSegmentBody _ b s e). exact H'.
    + unfold finishPlay.
      pose proof (playSegmentBody_orphan
                    (setContext (player w)
                       (setCtxState (audioContext (player w)) running))
                    b s e h H) as H'.
      destruct (playSegmentBody _ b s e). exact H'.
    + exact H.
    + exact H.
    + exact H.
  - unfold endedEvent.
    destruct (sourceNodes (audioContext (player w)) !! h0) as [n0|] eqn:En0;
      [|discriminate].
    destruct (canEnd n0) eqn:Hce; [|discriminate].
    intros Hw (n & g & Hn & Hc & Ho & Hg & Hgn & Hl & Hst & Hsp & Hen).
    assert (Hne : h0 <> h).
    { intros ->. rewrite Hn in En0. injection En0 as <-.
      unfold canEnd in Hce. rewrite Hst, Hsp, Hen, Hl in Hce. discriminate. }
    assert (H' : orphan (setContext (player w)
                   (updSource (audioContext (player w)) h0 setEnded)) h).
    { exists n, g. cbn [setContext audioContext currentSource currentGain].
      rewrite lookup_updSource, decide_False by exact Hne.
      repeat split; assumption. }
    destruct (endedListener n0).
    + unfold endedListenerBody in Hw. cbn [setFlags onSegmentEnd] in Hw.
      destruct (onSegmentEnd _); injection Hw as <-; exact H'.
    + injection Hw as <-. exact H'.
Qed.

Lemma orphan_sounding (p : Player) (h : nat) :
  orphan p h -> soundingAt (audioContext p) h = true.
Proof.
  intros (n & g & Hn & _ & Ho & _ & Hgn & _ & Hst & Hsp & Hen).
  unfold soundingAt, sounding. rewrite Hn, Hst, Hsp, Hen, Ho, Hgn.
  reflexivity.
Qed.

(** X9.  A looping source that has stopped being the player's current
    source (as the first source does after two overlapping playSegment
    calls) is out of reach for good: whatever calls to playSegment, stop
    and setLoopMode follow, and whatever continuations and ended events
    run, it is never stopped or disconnected and keeps sounding. *)
Theorem orphaned_source_sounds_forever (tr : list Label) : forall (w w' : World)
    (h : nat),
  orphan (player w) h ->
  run tr w = Some w' ->
  orphan (player w') h /\ soundingAt (audioContext (player w')) h = true.
Proof.
  induction tr as [|l tr IH]; intros w w' h Ho; cbn [run].
  - intros [= <-]. split; [exact Ho | now apply orphan_sounding].
  - destruct (step l w) as [w1|] eqn:Hs; [|discriminate].
    intros Hr. apply (IH w1 w' h); [|exact Hr].
    exact (step_orphan l w w1 h Hs Ho).
Qed.

Lemma overlapped_orphan : orphan (player overlapped) 0.
Proof.
  eexists _, _. split; [vm_compute; reflexivity|].
  split; [vm_compute; discriminate|].
  split; [reflexivity|].
  split; [vm_compute; discriminate|].
  split; [vm_compute; reflexivity|].
  repeat split.
Qed.

Lemma orphaned_source_sounds_forever_witness :
  exists w' : World,
    run (LCall CallStop :: awaitedPlay ++ [LCall CallStop]) overlapped
    = Some w' /\
    orphan (player w') 0 /\
    soundingAt (audioContext (player w')) 0 = true.
Proof.
  eexists. split; [vm_compute; reflexivity|].
  apply (orphaned_source_sounds_forever
           (LCall CallStop :: awaitedPlay ++ [LCall CallStop]) overlapped).
  - exact overlapped_orphan.
  - vm_compute. reflexivity.
Defined.


(** ** A looping source between calls *)

Lemma step_keeps_looping (l : Label) (w w' : World) (played : AudioBuffer) :
  isInternal l = true ->
  nowPlaying (player w) played true ->
  playCount (pending w) = 0%nat ->
  step l w = Some w' ->
  nowPlaying (player w') played true /\ playCount (pending w') = 0%nat.
Proof.
  intros Hint Hnp Hcount.
  destruct l as [c | i | h0]; [discriminate| |]; cbn [step].
  - destruct (pending w !! i) as [t|] eqn:Hi; [|discriminate].
    intros [= <-].
    pose proof (playCount_delete _ _ _ Hi) as Hd. rewrite Hcount in Hd.
    destruct t as [b s e | b s e | | | ]; cbn [isPlayTask] in Hd;
      try lia; cbn [runTask player pending];
      rewrite ?playCount_app; cbn [playCount isPlayTask];
      (split; [exact Hnp | lia]).
  - unfold endedEvent.
    destruct (sourceNodes (audioContext (player w)) !! h0) as [n0|] eqn:En0;
      [|discriminate].
    destruct (canEnd n0) eqn:Hce; [|discriminate].
    intros Hw.
    destruct Hnp as (n & Hn & Hb & Hl & Hst & Hsp & Hso).
    unfold currentNode in Hn.
    destruct (currentSource (player w)) as [hc|] eqn:Ec; [|discriminate].
    assert (Hne : h0 <> hc).
    { intros ->. rewrite Hn in En0. injection En0 as <-.
      unfold canEnd in Hce. rewrite Hsp, Hl in Hce.
      cbn in Hce. now rewrite andb_false_r in Hce. }
    assert (H' : nowPlaying (setContext (player w)
                   (updSource (audioContext (player w)) h0 setEnded))
                   played true).
    { exists n. unfold currentNode.
      cbn [setContext currentSource audioContext]. rewrite Ec.
      rewrite lookup_updSource, decide_False by exact Hne.
      repeat split; assumption. }
    destruct (endedListener n0).
    + unfold endedListenerBody in Hw. cbn [setFlags onSegmentEnd] in Hw.
      destruct (onSegmentEnd _); injection Hw as <-;
        (split; [exact H' | exact Hcount]).
    + injection Hw as <-. split; [exact H' | exact Hcount].
Qed.

(** X10.  A looping source, once playing with no playSegment in flight,
    goes on playing until the next call from outside: no continuation of an
    earlier stop() and no ended event silences it or replaces it.  So the
    fallback of playSegment (which loops in either mode) ends only through
    a later stop() or playSegment(). *)
Theorem looping_source_plays_until_next_call (tr : list Label) :
  forall (w w' : World) (played : AudioBuffer),
    nowPlaying (player w) played true ->
    playCount (pending w) = 0%nat ->
    forallb isInternal tr = true ->
    run tr w = Some w' ->
    nowPlaying (player w') played true.
Proof.
  induction tr as [|l tr IH]; intros w w' played Hnp Hc Hint; cbn [run].
  - now intros [= <-].
  - cbn in Hint. apply andb_true_iff in Hint as [Hl Hint].
    destruct (step l w) as [w1|] eqn:Hs; [|discriminate].
    destruct (step_keeps_looping l w w1 played Hl Hnp Hc Hs) as [Hnp1 Hc1].
    now apply IH.
Qed.


Lemma looping_source_plays_until_next_call_witness :
  exists w' : World,
    run [LResume 0; LResume 0] fallbackPlaying = Some w' /\
    nowPlaying (player w') demoBuffer true.
Proof.
  eexists. split; [vm_compute; reflexivity|].
  apply (looping_source_plays_until_next_call [LResume 0; LResume 0]
           fallbackPlaying).
  - eexists. split; [vm_compute; reflexivity|].
    repeat split; vm_compute; reflexivity.
  - vm_compute. reflexivity.
  - reflexivity.
  - vm_compute. reflexivity.
Defined.


(** ** Every call ends *)

Lemma queueWeight_app (l1 l2 : list Task) :
  queueWeight (l1 ++ l2) = (queueWeight l1 + queueWeight l2)%nat.
Proof. induction l1 as [|t l1 IH]; cbn; [reflexivity | rewrite IH; lia]. Qed.

(** Resuming the oldest task is always possible and lowers the weight. *)
Lemma resume_oldest (w : World) (t : Task) (rest : list Task) :
  pending w = t :: rest ->
  exists w', step (LResume 0) w = Some w' /\
             (queueWeight (pending w') < queueWeight (pending w))%nat.
Proof.
  intros Hp. cbn [step]. rewrite Hp. cbn [lookup list_lookup].
  change (delete 0%nat (t :: rest)) with rest.
  eexists. split; [reflexivity|].
  destruct t as [b s e | b s e | | | ]; cbn [runTask].
  - destruct (ctxState _).
    + unfold finishPlay. destruct (playSegmentBody _ b s e).
      cbn [pending queueWeight taskWeight]. lia.
    + cbn [pending]. rewrite queueWeight_app. cbn. lia.
  - unfold finishPlay. destruct (playSegmentBody _ b s e).
    cbn [pending queueWeight taskWeight]. lia.
  - cbn [pending]. rewrite queueWeight_app. cbn. lia.
  - cbn [pending]. rewrite queueWeight_app. cbn. lia.
  - cbn [pending queueWeight taskWeight]. lia.
Qed.

Lemma drain_bounded (k : nat) : forall w : World,
  (queueWeight (pending w) <= k)%nat ->
  exists (n : nat) (w' : World),
    (n <= queueWeight (pending w))%nat /\
    run (repeat (LResume 0) n) w = Some w' /\ pending w' = [].
Proof.
  induction k as [|k IH]; intros w Hk.
  - exists 0%nat, w. split; [lia|]. split; [reflexivity|].
    destruct (pending w) as [|t rest]; [reflexivity|].
    cbn in Hk. destruct t; cbn in Hk; lia.
  - destruct (pending w) as [|t rest] eqn:Hp.
    + exists 0%nat, w. repeat split; [cbn; lia | exact Hp].
    + destruct (resume_oldest w t rest Hp) as (w1 & Hs & Hlt).
      rewrite Hp in Hlt.
      destruct (IH w1 ltac:(lia)) as (n & w' & Hn & Hr & He).
      exists (S n), w'. split; [lia|]. split; [|exact He].
      cbn [repeat run]. rewrite Hs. exact Hr.
Qed.

(** X11.  No call hangs on the player's own account: from any state,
    resuming the oldest pending continuation again and again empties the
    queue, after at most three resumptions for each stop() and two for each
    playSegment() in flight. *)
Theorem pending_calls_drain (w : World) :
  exists (n : nat) (w' : World),
    (n <= queueWeight (pending w))%nat /\
    run (repeat (LResume 0) n) w = Some w' /\ pending w' = [].
Proof. apply (drain_bounded (queueWeight (pending w))). lia. Qed.

(** ** [stop] during [playSegment] *)






(** ** [stop] with no [playSegment] in flight *)

Lemma stopSync_flags (p : Player) :
  isPlaying (fst (stopSync p)) = false /\
  stopRequested (fst (stopSync p)) = true.
Proof.
  destruct p as [[st srcs gains] cs cb cg ip sr lm k].
  unfold stopSync, stopCleanupSource, sourceStop, stopCleanupGain.
  cbn [setFlags currentSource currentGain audioContext sourceNodes].
  destruct cs as [h0|].
  - destruct (srcs !! h0) as [n0|]; [|split; reflexivity].
    destruct (started n0); [|split; reflexivity].
    destruct cg, st; split; reflexivity.
  - destruct cg, st; split; reflexivity.
Qed.

Lemma silenced_context (p : Player) (rest : list Task) (l : list Obs)
    (c : ContextState) :
  noneLive p -> currentSource p = None -> isPlaying p = false ->
  playCount rest = 0%nat ->
  silenced {| player := setContext p (setCtxState (audioContext p) c);
              pending := rest; log := l |}.
Proof. intros H1 H2 H3 H4. repeat split; assumption. Qed.

(** A step that is no call keeps the player silent. *)
Lemma step_silenced (l : Label) (w w' : World) :
  isInternal l = true -> silenced w -> step l w = Some w' -> silenced w'.
Proof.
  intros Hl (Hq & Hc & Hp & Hn) H.
  destruct l as [c|i|h]; [discriminate| |]; cbn [step] in H.
  - destruct (pending w !! i) as [t|] eqn:Ei; [|discriminate].
    injection H as <-.
    pose proof (AudioPlayerFacts.playCount_delete _ _ _ Ei) as Hd.
    rewrite Hn in Hd.
    assert (Ht : isPlayTask t = false) by (destruct (isPlayTask t); [lia|reflexivity]).
    rewrite Ht in Hd.
    assert (Hrest : playCount (delete i (pending w)) = 0%nat) by lia.
    destruct t; try discriminate Ht; cbn [runTask].
    + apply silenced_context; try assumption.
      rewrite AudioPlayerFacts.playCount_app, Hrest. reflexivity.
    + repeat split; try assumption. cbn [pending].
      rewrite AudioPlayerFacts.playCount_app, Hrest. reflexivity.
    + apply silenced_context; assumption.
  - unfold endedEvent in H.
    destruct (sourceNodes (audioContext (player w)) !! h) as [n|] eqn:En;
      [|discriminate].
    destruct (canEnd n); [|discriminate].
    assert (Hq' : noneLive
                    (setContext (player w)
                       (updSource (audioContext (player w)) h setEnded))).
    { intros h' n' Hn'. cbn [setContext audioContext] in Hn'.
      rewrite AudioPlayerFacts.lookup_updSource in Hn'.
      case_decide as Hh.
      - subst h'. rewrite En in Hn'. cbn in Hn'. injection Hn' as <-.
        rewrite AudioPlayerFacts.live_setEnded. exact (Hq h n En).
      - exact (Hq h' n' Hn'). }
    destruct (endedListener n).
    + unfold endedListenerBody in H.
      cbn [setFlags onSegmentEnd setContext] in H.
      destruct (onSegmentEnd (player w)); injection H as <-;
        repeat split; try assumption.
    + injection H as <-. repeat split; assumption.
Qed.

Lemma run_silenced (tr : list Label) : forall w w' : World,
  forallb isInternal tr = true -> silenced w -> run tr w = Some w' ->
  silenced w'.
Proof.
  induction tr as [|l tr IH]; intros w w' Hi Hs H; cbn [run] in H.
  - now injection H as <-.
  - cbn in Hi. apply andb_true_iff in Hi as [Hl Hi].
    destruct (step l w) as [w1|] eqn:E; [|discriminate].
    apply (IH w1 w' Hi); [|exact H].
    exact (step_silenced l w w1 Hl Hs E).
Qed.

(** X13.  In serial use and with no playSegment in flight, stop() silences
    the player at once and for as long as no further call is made: whatever
    continuations and ended events run after the call, in whatever order,
    no source is sounding, there is no current source and getIsPlaying() is
    false.  This holds in particular at the moment the awaited stop()
    returns. *)
Theorem stop_silences_idle_player (s : ContextState) (tr rest : list Label)
    (w w' : World) :
  runSerial tr (initial s) = Some w ->
  playPending w = false ->
  forallb isInternal rest = true ->
  run (LCall CallStop :: rest) w = Some w' ->
  soundingCount w' = 0%nat /\
  currentSource (player w') = None /\
  getIsPlaying (player w') = false.
Proof.
  intros Hrun Hidle Hrest H. cbn [run step] in H.
  pose proof (AudioPlayerFacts.runSerial_inv tr _ _
                (AudioPlayerFacts.initial_inv s) Hrun) as I.
  pose proof (AudioPlayerFacts.stopSync_quiet _
                (invCurrent w I) (invLive w I)) as Hq.
  destruct (AudioPlayerFacts.stopSync_sources _ (invCurrent w I))
    as [Hnone _].
  destruct (stopSync_flags (player w)) as [Hip _].
  apply AudioPlayerFacts.playPending_count in Hidle.
  assert (S : silenced (call CallStop w)).
  { unfold call. destruct (stopSync (player w)) as [p1 waiting].
    cbn [fst] in Hq, Hnone, Hip. repeat split; try assumption.
    cbn [pending]. rewrite AudioPlayerFacts.playCount_app, Hidle.
    destruct waiting; reflexivity. }
  destruct (run_silenced rest _ w' Hrest S H) as (Hq' & Hc' & Hp' & _).
  split; [|split].
  - now apply AudioPlayerFacts.noneLive_soundingCount.
  - exact Hc'.
  - unfold getIsPlaying. now rewrite Hp'.
Qed.

Lemma stop_silences_idle_player_witness :
  soundingCount afterPlaying = 1%nat /\
  pending afterStopping = [] /\
  soundingCount afterStopping = 0%nat /\
  currentSource (player afterStopping) = None /\
  getIsPlaying (player afterStopping) = false.
Proof.
  split; [vm_compute; reflexivity|].
  split; [vm_compute; reflexivity|].
  apply (stop_silences_idle_player running awaitedPlay
           (stopContinuations afterPlaying) afterPlaying afterStopping).
  - vm_compute. reflexivity.
  - vm_compute. reflexivity.
  - vm_compute. reflexivity.
  - vm_compute. reflexivity.
Defined.


End AudioPlayerExtras.

(* ====================================================================== *)
(** * Properties of the buffer cache *)
(* ====================================================================== *)

Module AudioCacheFacts.

Import AudioPlayer AudioCache.

Section Load.

Variable decode : Bytes -> option AudioBuffer.




Lemma step_keeps_paths (l : Label) (st st' : State) (path : string) :
  isClear l = false ->
  step decode l st = Some st' ->
  is_Some (audioBuffers st !! path) -> is_Some (audioBuffers st' !! path).
Proof.
  intros Hl H Hc.
  destruct l as [zip q|i|]; [| |discriminate]; cbn [step] in H.
  - injection H as <-. unfold loadAudioFromZip.
    destruct (audioBuffers st !! q); [exact Hc|].
    destruct (zip !! q); exact Hc.
  - destruct (pending st !! i) as [t|]; [|discriminate].
    injection H as <-.
    destruct t as [q f|q bytes]; cbn [resume].
    + destruct (content f); exact Hc.
    + destruct (decode bytes) as [b'|]; [|exact Hc].
      cbn [audioBuffers].
      destruct (decide (q = path)) as [->|Hq].
      * rewrite lookup_insert_eq. eauto.
      * now rewrite lookup_insert_ne.
Qed.

(** X15.  Without clearCache a path that is cached stays cached, but not
    always with the same buffer: a load that is in flight stores its
    buffer when its decoding ends without looking at the cache again, so
    it replaces what another load of the path has stored meanwhile.  The
    cache changes at no other moment: no other step of a load changes it,
    and a load that returns null (file absent, unreadable or undecodable)
    changes it at none of its steps. *)
Theorem load_keeps_paths_cached (st : State) :
  (forall (tr : list Label) (st' : State) (path : string),
     existsb isClear tr = false ->
     run decode tr st = Some st' ->
     is_Some (audioBuffers st !! path) ->
     is_Some (audioBuffers st' !! path)) /\
  (forall (i : nat) (path : string) (bytes : Bytes) (b : AudioBuffer),
     pending st !! i = Some (AfterDecode path bytes) ->
     decode bytes = Some b ->
     exists st',
       step decode (LResume i) st = Some st' /\
       audioBuffers st' !! path = Some b /\
       returned st' = returned st ++ [(path, Some b)]) /\
  (forall (l : Label) (st' : State),
     isClear l = false ->
     step decode l st = Some st' ->
     audioBuffers st' = audioBuffers st \/
     exists (i : nat) (path : string) (bytes : Bytes) (b : AudioBuffer),
       l = LResume i /\
       pending st !! i = Some (AfterDecode path bytes) /\
       decode bytes = Some b /\
       audioBuffers st' = <[path := b]> (audioBuffers st) /\
       returned st' = returned st ++ [(path, Some b)]).
Proof.
  split; [|split].
  - intros tr. revert st.
    induction tr as [|l tr IH]; intros st0 st' path Hcl H Hc;
      cbn [run] in H.
    + now injection H as <-.
    + cbn in Hcl. apply orb_false_iff in Hcl as [Hl Hcl].
      destruct (step decode l st0) as [st1|] eqn:E; [|discriminate].
      apply (IH st1 st' path Hcl H).
      exact (step_keeps_paths l st0 st1 path Hl E Hc).
  - intros i path bytes b Hi Hd. cbn [step]. rewrite Hi. cbn [resume].
    rewrite Hd. eexists. split; [reflexivity|]. cbn.
    split; [apply lookup_insert_eq|reflexivity].
  - intros l st' Hl H.
    destruct l as [zip q|i|]; [| |discriminate]; cbn [step] in H.
    + injection H as <-. left. unfold loadAudioFromZip.
      destruct (audioBuffers st !! q); [reflexivity|].
      destruct (zip !! q); reflexivity.
    + destruct (pending st !! i) as [t|] eqn:Ei; [|discriminate].
      injection H as <-.
      destruct t as [q f|q bytes]; cbn [resume].
      * left. destruct (content f); reflexivity.
      * destruct (decode bytes) as [b'|] eqn:Ed; [|left; reflexivity].
        right. exists i, q, bytes, b'. repeat split; assumption.
Qed.

End Load.


Lemma load_keeps_paths_cached_witness :
  is_Some (audioBuffers firstStored !! "ref.wav"%string) /\
  exists (b : AudioBuffer) (st' : State),
    step demoDecode (LResume 0) firstStored = Some st' /\
    audioBuffers st' !! "ref.wav"%string = Some b /\
    audioBuffers firstStored !! "ref.wav"%string <> Some b /\
    returned st'
    = returned firstStored ++ [("ref.wav"%string, Some b)].
Proof.
  split; [vm_compute; eauto|].
  destruct (proj1 (proj2 (load_keeps_paths_cached demoDecode firstStored))
              0%nat "ref.wav"%string [Byte.x52; Byte.x49; Byte.x46]
              {| sampleRate := 4; bufLength := 3;
                 channels := [[silence; silence; silence]] |})
    as (st' & Hs & Hc & Hr).
  - vm_compute. reflexivity.
  - reflexivity.
  - eexists _, st'. split; [exact Hs|]. split; [exact Hc|].
    split; [|exact Hr]. vm_compute. discriminate.
Defined.

End AudioCacheFacts.

(* ====================================================================== *)
(** * Properties of the pitch-class-set analysis *)
(* ====================================================================== *)

Module PitchClassSetFacts.

Import PitchClassSet.
Local Open Scope Z_scope.

(** ** Sorting and the enumeration of all pitch-class lists *)

#[local] Instance Zle_total : Total Z.le.
Proof. intros x y. lia. Qed.

#[local] Instance Zle_antisym : AntiSymm eq Z.le.
Proof. intros x y ? ?. lia. Qed.

#[local] Instance Zle_trans : Transitive Z.le.
Proof. intros x y z ? ?. lia. Qed.

Lemma sortAscending_perm (l : list Z) : sortAscending l ≡ₚ l.
Proof. apply merge_sort_Permutation. Qed.

Lemma sortAscending_sorted (l : list Z) : Sorted Z.le (sortAscending l).
Proof. apply Sorted_merge_sort. apply _. Qed.

(** Lists with the same elements sort to the same list. *)
Lemma sortAscending_unique (l l' : list Z) :
  l ≡ₚ l' -> sortAscending l = sortAscending l'.
Proof.
  intros H. apply (Sorted_unique Z.le); try apply sortAscending_sorted.
  now rewrite !sortAscending_perm.
Qed.

Lemma sortAscending_idem (l : list Z) :
  sortAscending (sortAscending l) = sortAscending l.
Proof. apply sortAscending_unique, sortAscending_perm. Qed.

(** [getNormalForm] sees its argument only through the sorted copy. *)
Lemma getNormalForm_perm (l l' : list Z) :
  l ≡ₚ l' -> getNormalForm l = getNormalForm l'.
Proof.
  intros H. unfold getNormalForm.
  rewrite (sortAscending_unique l l' H).
  destruct l as [|x l], l' as [|x' l']; try reflexivity.
  apply Permutation_nil_l in H. discriminate.
Qed.

(** Sorted and free of duplicates means strictly ascending. *)
Lemma sorted_nodup_strict (l : list Z) :
  Sorted Z.le l -> NoDup l -> StronglySorted Z.lt l.
Proof.
  intros Hs Hn. apply (Sorted_StronglySorted Z.le) in Hs.
  induction l as [|x l IH]; [constructor|].
  apply StronglySorted_inv in Hs as [Hs Hall].
  apply NoDup_cons in Hn as [Hnotin Hn].
  constructor; [now apply IH|].
  rewrite Forall_forall in *. intros y Hy.
  assert (x <> y) by (intros ->; apply Hnotin, Hy).
  specialize (Hall y Hy). lia.
Qed.

(** Every strictly ascending list drawn from a strictly ascending list is
    among its sublists. *)
Lemma sublists_complete (r : list Z) : forall l : list Z,
  StronglySorted Z.lt r -> StronglySorted Z.lt l ->
  (forall x, In x l -> In x r) ->
  In l (sublists r).
Proof.
  induction r as [|x r IH]; intros l Hr Hl Hin; cbn [sublists].
  - destruct l as [|y l]; [now left|]. destruct (Hin y); now left.
  - apply StronglySorted_inv in Hr as [Hr Hx].
    rewrite Forall_forall in Hx.
    apply in_or_app.
    destruct l as [|y l].
    + right. apply IH; [exact Hr | constructor | intros ? []].
    + apply StronglySorted_inv in Hl as [Hl Hy].
      rewrite Forall_forall in Hy.
      destruct (Z.eq_dec y x) as [->|Hne].
      * left. apply in_map. apply IH; [exact Hr | exact Hl|].
        intros z Hz. destruct (Hin z (or_intror Hz)) as [<-|]; [|assumption].
        apply list_elem_of_In in Hz. specialize (Hy _ Hz). lia.
      * right. apply IH; [exact Hr | now constructor; [|apply Forall_forall]|].
        assert (Hyr : In y r).
        { destruct (Hin y (or_introl eq_refl)) as [E|];
            [congruence | assumption]. }
        intros z [<- | Hz]; [exact Hyr|].
        destruct (Hin z (or_intror Hz)) as [<-|]; [|assumption].
        apply list_elem_of_In in Hz, Hyr.
        specialize (Hy _ Hz). specialize (Hx _ Hyr). lia.
Qed.

Lemma chromatic_sorted : StronglySorted Z.lt chromatic.
Proof. unfold chromatic. repeat constructor; lia. Qed.

Lemma in_chromatic (x : Z) : 0 <= x < 12 <-> In x chromatic.
Proof.
  unfold chromatic. cbn. split; [|intuition lia].
  intros H.
  assert (x = 0 \/ x = 1 \/ x = 2 \/ x = 3 \/ x = 4 \/ x = 5 \/ x = 6 \/
          x = 7 \/ x = 8 \/ x = 9 \/ x = 10 \/ x = 11) by lia.
  intuition.
Qed.

(** The sorted copy of a list of pitch classes is one of the 4096
    enumerated lists. *)
Lemma sorted_pcs_enumerated (l : list Z) :
  isPcs l -> In (sortAscending l) allPcs.
Proof.
  intros [Hn Hr]. apply sublists_complete.
  - apply chromatic_sorted.
  - apply sorted_nodup_strict; [apply sortAscending_sorted|].
    now rewrite sortAscending_perm.
  - intros x Hx. apply in_chromatic.
    rewrite Forall_forall in Hr. apply Hr.
    apply list_elem_of_In in Hx. rewrite sortAscending_perm in Hx.
    exact Hx.
Qed.

(** ** The exhaustive checks *)

Lemma allPcs_transposition : forallb checkTransposition allPcs = true.
Proof. vm_compute. reflexivity. Qed.

Lemma allPcs_inversion : forallb checkInversion allPcs = true.
Proof. vm_compute. reflexivity. Qed.

Lemma allPcs_normalMember : forallb checkNormalMember allPcs = true.
Proof. vm_compute. reflexivity. Qed.

Lemma allPcs_classMember : forallb checkClassMember allPcs = true.
Proof. vm_compute. reflexivity. Qed.

Lemma allPcs_shape : forallb checkShape allPcs = true.
Proof. vm_compute. reflexivity. Qed.

Lemma allPcs_names : forallb checkNames allPcs = true.
Proof. vm_compute. reflexivity. Qed.

(** A check that holds of all enumerated lists holds of the sorted copy of
    any list of pitch classes. *)
Lemma checked (f : list Z -> bool) (l : list Z) :
  forallb f allPcs = true -> isPcs l -> f (sortAscending l) = true.
Proof.
  intros Hall Hl. rewrite forallb_forall in Hall.
  apply Hall, sorted_pcs_enumerated, Hl.
Qed.


(** ** Transposition and inversion of lists *)

Lemma transpose_perm (t : Z) (l l' : list Z) :
  l ≡ₚ l' -> transpose t l ≡ₚ transpose t l'.
Proof. apply Permutation_map. Qed.

Lemma invert_perm (l l' : list Z) : l ≡ₚ l' -> invert l ≡ₚ invert l'.
Proof. apply Permutation_map. Qed.

Lemma transpose_mod (t : Z) (l : list Z) :
  transpose t l = transpose (t mod 12) l.
Proof.
  unfold transpose. apply map_ext. intros x.
  now rewrite Zplus_mod_idemp_r.
Qed.

Lemma transpose_transpose (a b : Z) (l : list Z) :
  transpose a (transpose b l) = transpose (a + b) l.
Proof.
  unfold transpose. rewrite map_map. apply map_ext. intros x.
  rewrite Zplus_mod_idemp_l. f_equal. lia.
Qed.

Lemma transpose_0 (l : list Z) :
  Forall (fun x => 0 <= x < 12) l -> transpose 0 l = l.
Proof.
  intros H. unfold transpose. induction H as [|x l Hx _ IH]; cbn;
    [reflexivity|].
  rewrite IH, Z.add_0_r, Z.mod_small by exact Hx. reflexivity.
Qed.

Lemma invert_invert (l : list Z) :
  Forall (fun x => 0 <= x < 12) l -> invert (invert l) = l.
Proof.
  intros H. unfold invert. induction H as [|x l Hx _ IH]; cbn;
    [reflexivity|].
  rewrite IH. f_equal. Z.div_mod_to_equations. lia.
Qed.

Lemma invert_transpose (t : Z) (l : list Z) :
  invert (transpose t l) = transpose (- t) (invert l).
Proof.
  unfold invert, transpose. rewrite !map_map. apply map_ext. intros x.
  Z.div_mod_to_equations. lia.
Qed.

Lemma map_isPcs (f : Z -> Z) (l : list Z) :
  (forall x, 0 <= f x < 12) ->
  (forall x y, 0 <= x < 12 -> 0 <= y < 12 -> f x = f y -> x = y) ->
  isPcs l -> isPcs (map f l).
Proof.
  intros Hr Hinj [Hn Hl]. rewrite Forall_forall in Hl. split.
  - apply NoDup_ListNoDup. apply NoDup_map_NoDup_ForallPairs;
      [|now apply NoDup_ListNoDup].
    intros x y Hx Hy. apply Hinj; apply Hl, list_elem_of_In; assumption.
  - apply Forall_forall. intros y Hy. apply list_elem_of_In in Hy.
    apply in_map_iff in Hy as (x & <- & _). apply Hr.
Qed.

Lemma transpose_isPcs (t : Z) (l : list Z) : isPcs l -> isPcs (transpose t l).
Proof.
  apply map_isPcs.
  - intros x. apply Z.mod_pos_bound. lia.
  - intros x y Hx Hy. Z.div_mod_to_equations. lia.
Qed.

Lemma invert_isPcs (l : list Z) : isPcs l -> isPcs (invert l).
Proof.
  apply map_isPcs.
  - intros x. apply Z.mod_pos_bound. lia.
  - intros x y Hx Hy. Z.div_mod_to_equations. lia.
Qed.

Lemma perm_isPcs (l l' : list Z) : l ≡ₚ l' -> isPcs l -> isPcs l'.
Proof. intros H [Hn Hl]. split; now rewrite <- H. Qed.

(** ** Normal form and prime form do not depend on order, transposition or
    inversion *)

Lemma getNormalForm_sorted (l : list Z) :
  getNormalForm l = getNormalForm (sortAscending l).
Proof. apply getNormalForm_perm. symmetry. apply sortAscending_perm. Qed.

Lemma getNormalForm_transpose_1 (l : list Z) :
  isPcs l -> getNormalForm (transpose 1 l) = getNormalForm l.
Proof.
  intros Hl.
  pose proof (checked _ l allPcs_transposition Hl) as Hc.
  unfold checkTransposition in Hc. apply bool_decide_eq_true in Hc.
  rewrite (getNormalForm_sorted l), <- Hc.
  apply getNormalForm_perm, transpose_perm. symmetry.
  apply sortAscending_perm.
Qed.

Lemma getNormalForm_transpose_nat (n : nat) : forall l : list Z,
  isPcs l -> getNormalForm (transpose (Z.of_nat n) l) = getNormalForm l.
Proof.
  induction n as [|n IH]; intros l Hl.
  - cbn [Z.of_nat]. now rewrite transpose_0 by apply Hl.
  - replace (Z.of_nat (S n)) with (1 + Z.of_nat n) by lia.
    rewrite <- transpose_transpose.
    rewrite getNormalForm_transpose_1 by now apply transpose_isPcs.
    now apply IH.
Qed.

(** X16.  The normal form of a set of pitch classes depends neither on
    the order in which the pitch classes are listed nor on their
    transposition: any reordering and any transposition of the set give
    the same normal form. *)
Theorem normal_form_ignores_order_and_transposition (l l' : list Z)
    (t : Z) :
  isPcs l -> l' ≡ₚ l ->
  getNormalForm (transpose t l') = getNormalForm l.
Proof.
  intros Hl Hp.
  rewrite (getNormalForm_perm _ _ (transpose_perm t _ _ Hp)).
  rewrite transpose_mod.
  assert (Hm : 0 <= t mod 12) by (apply Z.mod_pos_bound; lia).
  rewrite <- (Z2Nat.id (t mod 12)) by exact Hm.
  now apply getNormalForm_transpose_nat.
Qed.

Lemma normal_form_ignores_order_and_transposition_witness :
  getNormalForm (transpose 5 [4; 0; 7]) = getNormalForm [0; 4; 7].
Proof.
  apply (normal_form_ignores_order_and_transposition [0; 4; 7] [4; 0; 7] 5).
  - split; [|repeat constructor; lia].
    apply NoDup_ListNoDup.
    repeat (constructor; [cbn; intuition lia|]). constructor.
  - apply (perm_swap 0 4 [7]).
Defined.


Lemma isPcsb_spec (l : list Z) : isPcsb l = true -> isPcs l.
Proof.
  unfold isPcsb. intros H. apply andb_true_iff in H as [Hn Hr].
  split; [now apply bool_decide_eq_true in Hn|].
  apply Forall_forall. intros x Hx. rewrite forallb_forall in Hr.
  apply list_elem_of_In in Hx. specialize (Hr x Hx). lia.
Qed.

Lemma classForm_perm (l l' : list Z) : l ≡ₚ l' -> classForm l = classForm l'.
Proof. intros H. unfold classForm. now rewrite (getNormalForm_perm l l' H). Qed.

Lemma classForm_invert (l : list Z) :
  isPcs l -> classForm (invert l) = classForm l.
Proof.
  intros Hl.
  pose proof (checked _ l allPcs_inversion Hl) as Hc.
  unfold checkInversion in Hc. apply bool_decide_eq_true in Hc.
  rewrite (classForm_perm l (sortAscending l))
    by (symmetry; apply sortAscending_perm).
  rewrite <- Hc. apply classForm_perm, invert_perm. symmetry.
  apply sortAscending_perm.
Qed.

(** X17.  The prime form computed for a set of pitch classes is the same
    for every transposition of the set, for its inversion, and for every
    transposition of its inversion. *)
Theorem prime_form_ignores_transposition_and_inversion (l : list Z) (t : Z) :
  isPcs l ->
  classForm (transpose t l) = classForm l /\
  classForm (invert l) = classForm l /\
  classForm (transpose t (invert l)) = classForm l.
Proof.
  intros Hl.
  assert (HT : forall m, isPcs m -> classForm (transpose t m) = classForm m).
  { intros m Hm. unfold classForm.
    now rewrite (normal_form_ignores_order_and_transposition m m t). }
  split; [now apply HT|]. split; [now apply classForm_invert|].
  rewrite HT by now apply invert_isPcs. now apply classForm_invert.
Qed.

Lemma prime_form_ignores_transposition_and_inversion_witness :
  classForm (transpose 7 [0; 4; 7]) = classForm [0; 4; 7] /\
  classForm (invert [0; 4; 7]) = classForm [0; 4; 7] /\
  classForm (transpose 7 (invert [0; 4; 7])) = classForm [0; 4; 7].
Proof.
  apply (prime_form_ignores_transposition_and_inversion [0; 4; 7] 7).
  apply isPcsb_spec. reflexivity.
Defined.


(** ** The forms belong to the set's class *)

Lemma sorted_eq_perm (a b : list Z) :
  sortAscending a = sortAscending b -> a ≡ₚ b.
Proof.
  intros H. rewrite <- (sortAscending_perm a), H. apply sortAscending_perm.
Qed.

Lemma normal_form_member (l : list Z) :
  isPcs l -> exists t, getNormalForm l ≡ₚ transpose t l.
Proof.
  intros Hl.
  pose proof (checked _ l allPcs_normalMember Hl) as Hc.
  unfold checkNormalMember in Hc. cbv zeta in Hc.
  apply existsb_exists in Hc as (t & _ & Ht).
  apply bool_decide_eq_true, sorted_eq_perm in Ht.
  exists t. rewrite (getNormalForm_sorted l), Ht.
  apply transpose_perm, sortAscending_perm.
Qed.

Lemma class_form_member (l : list Z) : isPcs l -> sameClass l (classForm l).
Proof.
  intros Hl.
  pose proof (checked _ l allPcs_classMember Hl) as Hc.
  unfold checkClassMember in Hc. cbv zeta in Hc.
  apply existsb_exists in Hc as (t & _ & Ht).
  exists t.
  rewrite (classForm_perm l (sortAscending l))
    by (symmetry; apply sortAscending_perm).
  apply orb_true_iff in Ht as [Ht | Ht];
    apply bool_decide_eq_true, sorted_eq_perm in Ht; rewrite Ht;
    [left | right].
  - apply transpose_perm, sortAscending_perm.
  - apply transpose_perm, invert_perm, sortAscending_perm.
Qed.

Lemma sameClass_sym (l1 l2 : list Z) :
  isPcs l1 -> sameClass l1 l2 -> sameClass l2 l1.
Proof.
  intros [_ Hr] [t [H | H]].
  - exists (- t). left.
    rewrite (transpose_perm (- t) _ _ H), transpose_transpose.
    replace (- t + t) with 0 by lia. now rewrite transpose_0.
  - exists t. right.
    rewrite (transpose_perm t _ _ (invert_perm _ _ H)).
    rewrite invert_transpose, invert_invert by exact Hr.
    rewrite transpose_transpose.
    replace (t + - t) with 0 by lia. now rewrite transpose_0.
Qed.

Lemma sameClass_trans (l1 l2 l3 : list Z) :
  isPcs l1 -> sameClass l1 l2 -> sameClass l2 l3 -> sameClass l1 l3.
Proof.
  intros [_ Hr] [a [H12 | H12]] [b [H23 | H23]].
  - exists (b + a). left.
    now rewrite H23, (transpose_perm b _ _ H12), transpose_transpose.
  - exists (b + - a). right.
    rewrite H23, (transpose_perm b _ _ (invert_perm _ _ H12)).
    now rewrite invert_transpose, transpose_transpose.
  - exists (b + a). right.
    now rewrite H23, (transpose_perm b _ _ H12), transpose_transpose.
  - exists (b + - a). left.
    rewrite H23, (transpose_perm b _ _ (invert_perm _ _ H12)).
    rewrite invert_transpose, invert_invert by exact Hr.
    now rewrite transpose_transpose.
Qed.

(** X18.  The prime form decides set-class membership: two sets of pitch
    classes get the same prime form exactly when one is a transposition of
    the other or of the other's inversion. *)
Theorem same_prime_form_iff_same_class (l1 l2 : list Z) :
  isPcs l1 -> isPcs l2 ->
  (classForm l1 = classForm l2 <-> sameClass l1 l2).
Proof.
  intros H1 H2. split.
  - intros E.
    apply (sameClass_trans l1 (classForm l1) l2 H1).
    + now apply class_form_member.
    + rewrite E. apply sameClass_sym; [exact H2|].
      now apply class_form_member.
  - intros [t [H | H]].
    + rewrite (classForm_perm _ _ H).
      symmetry.
      apply (prime_form_ignores_transposition_and_inversion l1 t H1).
    + rewrite (classForm_perm _ _ H).
      symmetry.
      apply (prime_form_ignores_transposition_and_inversion l1 t H1).
Qed.

Lemma same_prime_form_iff_same_class_witness :
  classForm [0; 4; 7] = classForm [2; 5; 9] <-> sameClass [0; 4; 7] [2; 5; 9].
Proof.
  apply (same_prime_form_iff_same_class [0; 4; 7] [2; 5; 9]);
    apply isPcsb_spec; reflexivity.
Defined.


(** ** The shape of the normal form *)

Lemma ascendingFrom_sorted (r : list Z) : forall x : Z,
  ascendingFrom x r = true ->
  StronglySorted Z.lt r /\ Forall (Z.lt x) r.
Proof.
  induction r as [|y r IH]; intros x H; cbn in H.
  - split; constructor.
  - apply andb_true_iff in H as [Hxy Hr]. apply Z.ltb_lt in Hxy.
    destruct (IH y Hr) as [Hs Hall]. split.
    + now constructor.
    + constructor; [exact Hxy|].
      eapply Forall_impl; [exact Hall|]. cbn. intros z Hz. lia.
Qed.

(** X19.  The normal form of a non-empty set of pitch classes starts with
    0, is strictly ascending and stays below 12, has as many entries as the
    set has pitch classes, and is a transposition of the set; the normal
    form of the empty set is empty. *)
Theorem normal_form_shape (l : list Z) :
  isPcs l ->
  getNormalForm [] = [] /\
  (l <> [] ->
   exists r,
     getNormalForm l = 0 :: r /\
     StronglySorted Z.lt (0 :: r) /\
     Forall (fun y => y < 12) r /\
     length (0 :: r) = length l /\
     exists t, getNormalForm l ≡ₚ transpose t l).
Proof.
  intros Hl. split; [reflexivity|]. intros Hne.
  pose proof (checked _ l allPcs_shape Hl) as Hc.
  unfold checkShape in Hc.
  rewrite <- (getNormalForm_sorted l) in Hc.
  destruct (getNormalForm l) as [|x r] eqn:En.
  - apply bool_decide_eq_true in Hc.
    exfalso. apply Hne. apply Permutation_nil_r.
    rewrite <- Hc. symmetry. apply sortAscending_perm.
  - apply andb_true_iff in Hc as [Hc Hlen].
    apply andb_true_iff in Hc as [Hc Hlt].
    apply andb_true_iff in Hc as [Hx Hasc].
    apply bool_decide_eq_true in Hx. subst x.
    exists r. split; [reflexivity|].
    destruct (ascendingFrom_sorted r 0 Hasc) as [Hs Hall].
    split; [now constructor|]. split; [|split].
    + apply Forall_forall. intros y Hy. rewrite forallb_forall in Hlt.
      apply list_elem_of_In in Hy. specialize (Hlt y Hy). lia.
    + apply Nat.eqb_eq in Hlen. rewrite Hlen.
      apply Permutation_length, sortAscending_perm.
    + rewrite <- En. now apply normal_form_member.
Qed.

Lemma normal_form_shape_witness :
  exists r,
    getNormalForm [7; 0; 4] = 0 :: r /\
    StronglySorted Z.lt (0 :: r) /\
    Forall (fun y => y < 12) r /\
    length (0 :: r) = length [7; 0; 4] /\
    exists t, getNormalForm [7; 0; 4] ≡ₚ transpose t [7; 0; 4].
Proof.
  apply (normal_form_shape [7; 0; 4]).
  - apply isPcsb_spec. reflexivity.
  - discriminate.
Defined.

(** ** Forte names *)

(** X20.  Every set of three pitch classes gets a Forte name, and a set of
    four pitch classes gets one unless its prime form is (0,1,3,7), the one
    four-note class that the table lacks. *)
Theorem forte_names_of_trichords_and_tetrachords (l : list Z) :
  isPcs l ->
  (length l = 3%nat -> is_Some (getSetName (classForm l))) /\
  (length l = 4%nat ->
   (getSetName (classForm l) = None <-> classForm l = [0; 1; 3; 7])).
Proof.
  intros Hl.
  pose proof (checked _ l allPcs_names Hl) as Hc.
  unfold checkNames in Hc.
  rewrite (Permutation_length (sortAscending_perm l)) in Hc.
  rewrite <- (classForm_perm l (sortAscending l)) in Hc
    by (symmetry; apply sortAscending_perm).
  split; intros Hn; rewrite Hn in Hc.
  - now apply bool_decide_eq_true in Hc.
  - case_bool_decide as Hf.
    + apply bool_decide_eq_true in Hc. tauto.
    + apply bool_decide_eq_true in Hc. split; [|contradiction].
      intros E. rewrite E in Hc. now destruct Hc.
Qed.

Lemma forte_names_of_trichords_and_tetrachords_witness :
  is_Some (getSetName (classForm [0; 4; 7])) /\
  (getSetName (classForm [0; 2; 4; 7]) = None
   <-> classForm [0; 2; 4; 7] = [0; 1; 3; 7]).
Proof.
  split.
  - apply (forte_names_of_trichords_and_tetrachords [0; 4; 7]).
    + apply isPcsb_spec. reflexivity.
    + reflexivity.
  - apply (forte_names_of_trichords_and_tetrachords [0; 2; 4; 7]).
    + apply isPcsb_spec. reflexivity.
    + reflexivity.
Defined.


(** ** The interval vector *)

Lemma total_alter_succ (v : list Z) : forall k : nat,
  (k < length v)%nat -> total (alter Z.succ k v) = total v + 1.
Proof.
  induction v as [|x v IH]; intros k Hk; cbn [length] in Hk; [lia|].
  destruct k as [|k].
  - change (alter Z.succ 0%nat (x :: v)) with (Z.succ x :: v).
    unfold total. cbn [fold_right]. lia.
  - change (alter Z.succ (S k) (x :: v)) with (x :: alter Z.succ k v).
    specialize (IH k ltac:(lia)).
    unfold total in *. cbn [fold_right]. lia.
Qed.

Lemma at_range (l : list Z) (i : nat) :
  Forall (fun x => 0 <= x < 12) l -> (i < length l)%nat ->
  0 <= at_ l i < 12.
Proof.
  intros H Hi. rewrite Forall_forall in H. apply H.
  apply list_elem_of_In. unfold at_. now apply nth_In.
Qed.

Lemma at_inj (l : list Z) (i j : nat) :
  NoDup l -> (i < length l)%nat -> (j < length l)%nat ->
  at_ l i = at_ l j -> i = j.
Proof.
  intros Hn Hi Hj E. apply NoDup_ListNoDup in Hn.
  exact (proj1 (List.NoDup_nth l 0) Hn i j Hi Hj E).
Qed.

Lemma intervalStep_counts (pcs : list Z) (i j : nat) (v : list Z) :
  0 <= at_ pcs i < 12 -> 0 <= at_ pcs j < 12 -> at_ pcs i <> at_ pcs j ->
  length v = 6%nat ->
  total (intervalStep pcs i v j) = total v + 1 /\
  length (intervalStep pcs i v j) = 6%nat.
Proof.
  intros Hi Hj Hne Hv. unfold intervalStep.
  set (ic := Z.min _ _).
  assert (Hic : 1 <= ic <= 6) by (subst ic; lia).
  assert (E : (ic >? 0) && (ic <=? 6) = true).
  { apply andb_true_iff. split; [apply Z.gtb_lt|apply Z.leb_le]; lia. }
  rewrite E. split.
  - apply total_alter_succ. lia.
  - now rewrite length_alter.
Qed.

Lemma inner_count (l : list Z) (i : nat) :
  isPcs l -> (i < length l)%nat ->
  forall (js : list nat) (v : list Z),
    Forall (fun j => (j < length l)%nat /\ j <> i) js ->
    length v = 6%nat ->
    total (fold_left (intervalStep l i) js v)
      = total v + Z.of_nat (length js) /\
    length (fold_left (intervalStep l i) js v) = 6%nat.
Proof.
  intros [Hn Hr] Hi. induction js as [|j js IH]; intros v Hjs Hv;
    cbn [fold_left length].
  - split; [lia|exact Hv].
  - apply Forall_cons in Hjs as [[Hj Hji] Hjs].
    destruct (intervalStep_counts l i j v) as [Ht Hl]; auto using at_range.
    { intros E. apply Hji. symmetry. now apply (at_inj l i j). }
    destruct (IH _ Hjs Hl) as [Ht' Hl']. split; [|exact Hl'].
    rewrite Ht', Ht. lia.
Qed.

Lemma outer_count (l : list Z) :
  isPcs l ->
  forall (idxs : list nat) (v : list Z),
    Forall (fun i => (i < length l)%nat) idxs ->
    length v = 6%nat ->
    let r :=
      fold_left
        (fun vector i =>
           fold_left (intervalStep l i) (seq (S i) (length l - S i)) vector)
        idxs v in
    total r = total v + total (map (fun i => Z.of_nat (length l - S i)) idxs) /\
    length r = 6%nat.
Proof.
  intros Hl. induction idxs as [|i idxs IH]; intros v His Hv r; subst r;
    cbn [fold_left map].
  - split; [unfold total; cbn [fold_right]; lia|exact Hv].
  - apply Forall_cons in His as [Hi His].
    destruct (inner_count l i Hl Hi (seq (S i) (length l - S i)) v)
      as [Ht Hlen]; [|exact Hv|].
    { apply Forall_forall. intros j Hj. apply elem_of_seq in Hj. lia. }
    destruct (IH _ His Hlen) as [Ht' Hl']. split; [|exact Hl'].
    rewrite Ht', Ht, length_seq.
    unfold total. cbn [fold_right]. lia.
Qed.

Lemma pairs_sum (n : nat) : forall m k : nat,
  (k + m = n)%nat ->
  2 * total (map (fun i => Z.of_nat (n - S i)) (seq k m))
    = Z.of_nat m * (Z.of_nat m - 1).
Proof.
  induction m as [|m IH]; intros k H; cbn [seq map].
  - unfold total. cbn [fold_right]. lia.
  - specialize (IH (S k) ltac:(lia)).
    replace (n - S k)%nat with m by lia.
    unfold total in *. cbn [fold_right]. rewrite Nat2Z.inj_succ. nia.
Qed.

(** X21.  The interval vector of a set of [n] pitch classes has six entries
    that add up to [n (n - 1) / 2]: every pair of distinct pitch classes is
    counted once, in one of the six interval classes. *)
Theorem interval_vector_counts_every_pair (l : list Z) :
  isPcs l ->
  length (getIntervalVector l) = 6%nat /\
  2 * total (getIntervalVector l)
    = Z.of_nat (length l) * (Z.of_nat (length l) - 1).
Proof.
  intros Hl. unfold getIntervalVector.
  destruct (outer_count l Hl (seq 0 (length l)) [0; 0; 0; 0; 0; 0])
    as [Ht Hlen]; [|reflexivity|].
  { apply Forall_forall. intros i Hi. apply elem_of_seq in Hi. lia. }
  split; [exact Hlen|].
  rewrite Ht. change (total [0; 0; 0; 0; 0; 0]) with 0.
  rewrite Z.add_0_l. now apply pairs_sum.
Qed.

Lemma interval_vector_counts_every_pair_witness :
  length (getIntervalVector [0; 4; 7]) = 6%nat /\
  2 * total (getIntervalVector [0; 4; 7])
    = Z.of_nat (length [0; 4; 7]) * (Z.of_nat (length [0; 4; 7]) - 1).
Proof.
  apply (interval_vector_counts_every_pair [0; 4; 7]).
  apply isPcsb_spec. reflexivity.
Defined.

Lemma fold_left_ext_in {A B : Type} (f g : A -> B -> A) (l : list B) :
  (forall a x, In x l -> f a x = g a x) ->
  forall a, fold_left f l a = fold_left g l a.
Proof.
  induction l as [|x l IH]; intros H a; cbn [fold_left]; [reflexivity|].
  rewrite (H a x) by now left.
  apply IH. intros a' y Hy. apply H. now right.
Qed.

Lemma at_map (f : Z -> Z) (l : list Z) (i : nat) :
  (i < length l)%nat -> at_ (map f l) i = f (at_ l i).
Proof.
  intros Hi. unfold at_.
  rewrite (nth_indep _ 0 (f 0)) by (rewrite length_map; exact Hi).
  apply map_nth.
Qed.

Lemma getIntervalVector_map (f : Z -> Z) (l : list Z) :
  (forall a b, 0 <= a < 12 -> 0 <= b < 12 ->
     Z.min (Z.abs (f a - f b)) (12 - Z.abs (f a - f b))
     = Z.min (Z.abs (a - b)) (12 - Z.abs (a - b))) ->
  Forall (fun x => 0 <= x < 12) l ->
  getIntervalVector (map f l) = getIntervalVector l.
Proof.
  intros Hf Hr. unfold getIntervalVector. rewrite length_map.
  apply fold_left_ext_in. intros v i Hi.
  apply in_seq in Hi.
  apply fold_left_ext_in. intros v' j Hj.
  apply in_seq in Hj.
  unfold intervalStep.
  rewrite !at_map by lia.
  rewrite Hf by (apply at_range; [exact Hr|lia]).
  reflexivity.
Qed.

(** X22.  The interval vector is the same for a list of pitch classes, for
    each of its transpositions and for its inversion. *)
Theorem interval_vector_ignores_transposition_and_inversion
    (l : list Z) (t : Z) :
  Forall (fun x => 0 <= x < 12) l ->
  getIntervalVector (transpose t l) = getIntervalVector l /\
  getIntervalVector (invert l) = getIntervalVector l.
Proof.
  intros Hr. split.
  - unfold transpose. apply getIntervalVector_map; [|exact Hr].
    intros a b Ha Hb. Z.div_mod_to_equations. lia.
  - unfold invert. apply getIntervalVector_map; [|exact Hr].
    intros a b Ha Hb. Z.div_mod_to_equations. lia.
Qed.

Lemma interval_vector_ignores_transposition_and_inversion_witness :
  getIntervalVector (transpose 5 [0; 4; 7]) = getIntervalVector [0; 4; 7] /\
  getIntervalVector (invert [0; 4; 7]) = getIntervalVector [0; 4; 7].
Proof.
  apply (interval_vector_ignores_transposition_and_inversion [0; 4; 7] 5).
  repeat (constructor; [lia|]). constructor.
Defined.


(** ** Extraction from the notes of a clip *)

Lemma setAdd_spec (s : list Z) (x : Z) :
  NoDup s ->
  NoDup (setAdd s x) /\ (forall y, y ∈ setAdd s x <-> y ∈ s \/ y = x).
Proof.
  intros Hs. unfold setAdd. case_bool_decide as Hx.
  - split; [exact Hs|]. intros y. split; [now left|].
    intros [H| ->]; assumption.
  - split.
    + apply NoDup_app. split; [exact Hs|]. split.
      * intros y Hy Hy'. apply list_elem_of_singleton in Hy'. now subst.
      * apply NoDup_singleton.
    + intros y. rewrite elem_of_app, list_elem_of_singleton. reflexivity.
Qed.

Lemma collect_spec (notes : list Note) : forall acc : list Z,
  NoDup acc ->
  let r := fold_left (fun s note => setAdd s (Z.rem (key note) 12)) notes acc in
  NoDup r /\
  (forall pc, pc ∈ r <->
     pc ∈ acc \/ exists n, n ∈ notes /\ pc = Z.rem (key n) 12).
Proof.
  induction notes as [|n notes IH]; intros acc Hacc r; subst r;
    cbn [fold_left].
  - split; [exact Hacc|]. intros pc. split; [now left|].
    intros [H|(n & Hn & _)]; [exact H|]. now apply elem_of_nil in Hn.
  - destruct (setAdd_spec acc (Z.rem (key n) 12) Hacc) as [Hn Hin].
    destruct (IH _ Hn) as [Hr Hm]. split; [exact Hr|].
    intros pc. rewrite Hm, Hin. split.
    + intros [[H| ->]|(m & Hm' & E)].
      * now left.
      * right. exists n. split; [left|reflexivity].
      * right. exists m. split; [now right|exact E].
    + intros [H|(m & Hm' & E)].
      * left. now left.
      * apply elem_of_cons in Hm' as [->|Hm'].
        -- left. now right.
        -- right. now exists m.
Qed.

Lemma getPitchClassName_defined (pc : Z) :
  0 <= pc < 12 -> is_Some (getPitchClassName pc).
Proof.
  intros H. unfold getPitchClassName. cbv zeta.
  rewrite Z.rem_small by lia.
  destruct (pc <? 0) eqn:E; [apply Z.ltb_lt in E; lia|].
  apply lookup_lt_is_Some. cbn [length]. lia.
Qed.

(** X23.  From notes with non-negative keys, [extractPitchClassSet] collects
    distinct pitch classes between 0 and 11: exactly the keys' remainders
    modulo 12, each of which has a name. *)
Theorem extracted_pitch_classes (notes : list Note) :
  Forall (fun n => 0 <= key n) notes ->
  let ps := extractPitchClassSet notes in
  isPcs (pitchClasses ps) /\
  (forall pc, pc ∈ pitchClasses ps <->
     exists n, n ∈ notes /\ pc = key n mod 12) /\
  Forall (fun pc => is_Some (getPitchClassName pc)) (pitchClasses ps).
Proof.
  intros Hk ps. subst ps. unfold extractPitchClassSet. cbv zeta.
  cbn [pitchClasses].
  destruct (collect_spec notes [] (NoDup_nil_2 (A := Z))) as [Hn Hm].
  cbv zeta in Hn, Hm.
  set (pcs := fold_left _ notes []) in *.
  assert (Hmem : forall pc, pc ∈ pcs <->
            exists n, n ∈ notes /\ pc = key n mod 12).
  { intros pc. rewrite Hm. split.
    - intros [H|(n & Hn' & E)]; [now apply elem_of_nil in H|].
      exists n. split; [exact Hn'|].
      rewrite Forall_forall in Hk. specialize (Hk n Hn').
      rewrite E. apply Z.rem_mod_nonneg; lia.
    - intros (n & Hn' & E). right. exists n. split; [exact Hn'|].
      rewrite Forall_forall in Hk. specialize (Hk n Hn').
      rewrite E. symmetry. apply Z.rem_mod_nonneg; lia. }
  assert (Hr : Forall (fun x => 0 <= x < 12) pcs).
  { apply Forall_forall. intros pc Hpc. apply Hmem in Hpc as (n & _ & ->).
    apply Z.mod_pos_bound. lia. }
  split; [split; assumption|]. split; [exact Hmem|].
  eapply Forall_impl; [exact Hr|].
  intros pc Hpc. now apply getPitchClassName_defined.
Qed.

Lemma extracted_pitch_classes_witness :
  let notes := [mkNote 0 1 60 1 0; mkNote 1 1 64 1 0; mkNote 2 1 72 1 0] in
  let ps := extractPitchClassSet notes in
  isPcs (pitchClasses ps) /\
  (forall pc, pc ∈ pitchClasses ps <->
     exists n, n ∈ notes /\ pc = key n mod 12) /\
  Forall (fun pc => is_Some (getPitchClassName pc)) (pitchClasses ps).
Proof.
  apply (extracted_pitch_classes
           [mkNote 0 1 60 1 0; mkNote 1 1 64 1 0; mkNote 2 1 72 1 0]).
  repeat (constructor; [cbn; lia|]). constructor.
Defined.

(** X24.  A note with a negative key that is no multiple of 12 puts a
    negative number among the pitch classes, and that number has no name. *)
Theorem negative_key_gives_unnamed_pitch_class
    (notes : list Note) (n : Note) :
  n ∈ notes -> key n < 0 -> key n mod 12 <> 0 ->
  exists pc,
    pc ∈ pitchClasses (extractPitchClassSet notes) /\
    pc = key n mod 12 - 12 /\ pc < 0 /\
    getPitchClassName pc = None.
Proof.
  intros Hn Hneg Hmod. exists (Z.rem (key n) 12).
  assert (E : Z.rem (key n) 12 = key n mod 12 - 12).
  { Z.to_euclidean_division_equations. lia. }
  assert (Hlt : Z.rem (key n) 12 < 0).
  { rewrite E. pose proof (Z.mod_pos_bound (key n) 12). lia. }
  split; [|split; [exact E|split; [exact Hlt|]]].
  - unfold extractPitchClassSet. cbv zeta. cbn [pitchClasses].
    destruct (collect_spec notes [] (NoDup_nil_2 (A := Z))) as [_ Hm].
    apply Hm. right. now exists n.
  - unfold getPitchClassName. cbv zeta.
    assert (E2 : Z.rem (Z.rem (key n) 12) 12 = Z.rem (key n) 12).
    { apply Z.rem_small_iff; [lia|].
      Z.to_euclidean_division_equations. lia. }
    rewrite E2.
    destruct (Z.rem (key n) 12 <? 0) eqn:L; [reflexivity|].
    apply Z.ltb_ge in L. lia.
Qed.

Lemma negative_key_gives_unnamed_pitch_class_witness :
  exists pc,
    pc ∈ pitchClasses
           (extractPitchClassSet [mkNote 0 1 60 1 0; mkNote 1 1 (-1) 1 0]) /\
    pc = key (mkNote 1 1 (-1) 1 0) mod 12 - 12 /\ pc < 0 /\
    getPitchClassName pc = None.
Proof.
  apply (negative_key_gives_unnamed_pitch_class
           [mkNote 0 1 60 1 0; mkNote 1 1 (-1) 1 0] (mkNote 1 1 (-1) 1 0)).
  - apply list_elem_of_In. right. left. reflexivity.
  - cbn. lia.
  - vm_compute. discriminate.
Defined.


End PitchClassSetFacts.

(* ====================================================================== *)
(** * Properties of the scene manager *)
(* ====================================================================== *)

Module SceneManagerFacts.

Import SceneManager.
Local Open Scope Z_scope.

Lemma new_scenes (trackList : list Track) (sceneData : list SceneData) :
  scenes (new trackList sceneData)
  = buildScenes (referencesTrackId (new trackList sceneData))
                (shapesTrackId (new trackList sceneData)) sceneData.
Proof.
  unfold new.
  destruct (fold_left addTrack trackList (∅, None, None)) as [[tm r] s].
  reflexivity.
Qed.

Lemma getScene_new (trackList : list Track) (sceneData : list SceneData)
    (i : Z) (sc : Scene) :
  getScene (new trackList sceneData) i = Some sc ->
  1 <= i <= Z.of_nat (length sceneData) /\ index sc = i.
Proof.
  unfold getScene. rewrite new_scenes. unfold buildScenes.
  destruct (i - 1 <? 0) eqn:E; [discriminate|]. apply Z.ltb_ge in E.
  rewrite list_lookup_imap.
  destruct (sceneData !! Z.to_nat (i - 1)) as [d|] eqn:L; [|discriminate].
  intros H. injection H as <-. apply lookup_lt_Some in L.
  split; [lia|]. unfold buildScene.
  destruct (fold_left _ (clipSlots d) (None, None)) as [rc s].
  cbn [index]. lia.
Qed.

Lemma getScene_in_range (trackList : list Track) (sceneData : list SceneData)
    (i : Z) :
  1 <= i <= Z.of_nat (length sceneData) ->
  is_Some (getScene (new trackList sceneData) i).
Proof.
  intros H. unfold getScene. rewrite new_scenes. unfold buildScenes.
  destruct (i - 1 <? 0) eqn:E; [apply Z.ltb_lt in E; lia|].
  apply lookup_lt_is_Some. rewrite length_imap. lia.
Qed.

Lemma getTotalScenes_new (trackList : list Track)
    (sceneData : list SceneData) :
  getTotalScenes (new trackList sceneData) = Z.of_nat (length sceneData).
Proof.
  unfold getTotalScenes. rewrite new_scenes. unfold buildScenes.
  now rewrite length_imap.
Qed.

(** X25.  The scene manager holds one scene for each scene of the project,
    numbered from 1 in project order: [getScene(i)] finds a scene exactly
    when [i] lies within 1..[getTotalScenes()], and the scene found carries
    the index [i]. *)
Theorem scene_found_iff_index_in_range
    (trackList : list Track) (sceneData : list SceneData) (i : Z) :
  getTotalScenes (new trackList sceneData) = Z.of_nat (length sceneData) /\
  (is_Some (getScene (new trackList sceneData) i)
   <-> 1 <= i <= getTotalScenes (new trackList sceneData)) /\
  (forall sc, getScene (new trackList sceneData) i = Some sc -> index sc = i).
Proof.
  split; [apply getTotalScenes_new|]. rewrite getTotalScenes_new. split.
  - split.
    + intros [sc H]. now apply getScene_new in H.
    + apply getScene_in_range.
  - intros sc H. now apply getScene_new in H.
Qed.

Lemma slots_without_shape (r : option string) (slots : list ClipSlot) :
  forall acc : option Clip * option Clip,
    snd acc = None ->
    snd (fold_left (slotStep r r) slots acc) = None.
Proof.
  induction slots as [|slot slots IH]; intros [rc sc] H; cbn [fold_left];
    [exact H|].
  apply IH. unfold slotStep. cbn in H. subst sc.
  destruct (clip slot); [|reflexivity].
  destruct (bool_decide _); reflexivity.
Qed.

(** X26.  When one track is taken for both the references track and the
    shapes track (its name contains both words), or when neither is found,
    no scene gets a shape clip, and so no scene gets a pitch class set. *)
Theorem one_track_in_both_roles_hides_shapes
    (trackList : list Track) (sceneData : list SceneData) (sc : Scene) :
  referencesTrackId (new trackList sceneData)
  = shapesTrackId (new trackList sceneData) ->
  sc ∈ scenes (new trackList sceneData) ->
  shapeClip sc = None /\ pitchClassSet sc = None.
Proof.
  intros E Hsc. rewrite new_scenes, <- E in Hsc. unfold buildScenes in Hsc.
  apply elem_of_lookup_imap in Hsc as (i & d & -> & _).
  unfold buildScene.
  pose proof (slots_without_shape
                (referencesTrackId (new trackList sceneData))
                (clipSlots d) (None, None) eq_refl) as H.
  destruct (fold_left _ (clipSlots d) (None, None)) as [rc s].
  cbn in H. subst s. split; reflexivity.
Qed.

Lemma one_track_in_both_roles_hides_shapes_witness :
  let trackList := [mkTrack "t1" "Drums"; mkTrack "t2" "Shape References"] in
  let c := mkClip None [PitchClassSet.mkNote 0 1 60 1 0] None in
  let sceneData := [mkSceneData "A" [mkClipSlot "t2" (Some c)]] in
  let sc := mkScene 1 "A" (Some c) None None in
  shapeClip sc = None /\ pitchClassSet sc = None.
Proof.
  apply (one_track_in_both_roles_hides_shapes
           [mkTrack "t1" "Drums"; mkTrack "t2" "Shape References"]
           [mkSceneData "A"
              [mkClipSlot "t2"
                 (Some (mkClip None [PitchClassSet.mkNote 0 1 60 1 0] None))]]).
  - vm_compute. reflexivity.
  - vm_compute. apply list_elem_of_here.
Defined.

Import EventSystem EventSystemNotions.

(** X27.  The scene manager and the event system agree on the scenes: once
    totalScenes is the scene manager's count and the project has a scene,
    every LOAD_SCENE_AUDIO effect names a scene that [getScene] finds.  For
    a project without scenes, PROJECT_LOADED still asks for scene 1, which
    [getScene] does not find. *)
Theorem load_effect_finds_its_scene
    (trackList : list Track) (sceneData : list SceneData)
    (evs : list AppEvent) (ev : AppEvent) (i : Z) :
  (sceneData <> [] ->
   totalScenes (reached (evs ++ [ev]))
   = getTotalScenes (new trackList sceneData) ->
   In (LOAD_SCENE_AUDIO i) (effectsAfter evs ev) ->
   exists sc, getScene (new trackList sceneData) i = Some sc /\
              SceneManager.index sc = i) /\
  (sceneData = [] ->
   In (LOAD_SCENE_AUDIO 1)
      (effectsAfter evs
         (PROJECT_LOADED (getTotalScenes (new trackList sceneData)))) /\
   getScene (new trackList sceneData) 1 = None).
Proof.
  split.
  - intros Hne Htot Hin.
    assert (Hi : 1 <= i <= Z.of_nat (length sceneData)).
    { rewrite getTotalScenes_new in Htot.
      assert (Hlen : 1 <= Z.of_nat (length sceneData)).
      { destruct sceneData; [contradiction|]. cbn [length]. lia. }
      unfold effectsAfter in Hin.
      apply EventSystemExtras.getEffects_load in Hin.
      change (reduce _ _ ev) with
        (state (fst (dispatch (dispatchAll eventSystem evs) ev))) in Hin.
      rewrite <- EventSystemExtras.dispatchAll_snoc in Hin.
      fold (reached (evs ++ [ev])) in Hin.
      destruct (EventSystemFacts.dispatchAll_indexOk (evs ++ [ev]) eventSystem)
        as [H | H]; [now left| |];
        fold (reached (evs ++ [ev])) in H; lia. }
    destruct (getScene_in_range trackList sceneData i Hi) as [sc Hsc].
    exists sc. split; [exact Hsc|]. now apply getScene_new in Hsc.
  - intros ->. split.
    + unfold effectsAfter. cbn [dispatch snd]. unfold getEffects.
      rewrite !in_app_iff. right. left. cbn. now left.
    + unfold getScene. rewrite new_scenes. reflexivity.
Qed.

Lemma load_effect_finds_its_scene_witness :
  exists sc,
    getScene (new [mkTrack "t1" "References"]
                  [mkSceneData "A" []; mkSceneData "" []]) 2 = Some sc /\
    SceneManager.index sc = 2.
Proof.
  apply (load_effect_finds_its_scene
           [mkTrack "t1" "References"]
           [mkSceneData "A" []; mkSceneData "" []]
           [PROJECT_LOADED 2] (SCENE_NAVIGATE 1) 2).
  - discriminate.
  - vm_compute. reflexivity.
  - vm_compute. tauto.
Defined.

End SceneManagerFacts.

(* ====================================================================== *)
(** * Properties of the debounced navigation *)
(* ====================================================================== *)

Module NavigationFacts.

Import EventSystem Navigation.
Local Open Scope Z_scope.

Lemma navigate_debounced (ev : AppEvent) (s : State) :
  navigationInProgress s = false -> debounced s -> debounced (navigate ev s).
Proof.
  unfold debounced. intros Hf [H Hs]. rewrite Hf in H. destruct H as [Ht Hd].
  cbn [navigate navigationInProgress timers dispatched clock]. split.
  - exists (clock s + 300). rewrite Ht. split; [reflexivity|].
    constructor; [cbn; lia|].
    eapply Forall_impl; [exact Hd|]. cbn. intros e He. lia.
  - constructor; [exact Hs|].
    eapply Forall_impl; [exact Hd|]. cbn. intros e He. exact He.
Qed.

Lemma handle_debounced (i : Input) (s s' : State) :
  debounced s -> handle i s = Some s' -> debounced s'.
Proof.
  intros Hs H. destruct i as [key| | | |ev|k]; cbn [handle] in H.
  - injection H as <-.
    destruct (navigationInProgress s) eqn:Hf; cbn [negb]; [exact Hs|].
    destruct (String.eqb key "ArrowLeft");
      [now apply navigate_debounced|].
    destruct (String.eqb key "ArrowRight");
      [now apply navigate_debounced|exact Hs].
  - injection H as <-.
    destruct (navigationInProgress s) eqn:Hf; cbn [negb]; [exact Hs|].
    now apply navigate_debounced.
  - injection H as <-.
    destruct (navigationInProgress s) eqn:Hf; cbn [negb]; [exact Hs|].
    now apply navigate_debounced.
  - injection H as <-.
    destruct (navigationInProgress s) eqn:Hf; cbn [negb].
    + rewrite andb_false_r. exact Hs.
    + destruct (_ && _); [now apply navigate_debounced|exact Hs].
  - destruct (dispatchedElsewhere ev); [|discriminate].
    injection H as <-. exact Hs.
  - destruct (timers s !! k) as [due|] eqn:L; [|discriminate].
    destruct (due <=? clock s) eqn:D; [|discriminate].
    apply Z.leb_le in D. injection H as <-.
    destruct Hs as [H Hs]. unfold debounced.
    cbn [navigationInProgress timers dispatched clock].
    split; [|exact Hs].
    destruct (navigationInProgress s).
    + destruct H as (due' & Ht & Hd). rewrite Ht in L |- *.
      destruct k as [|k]; [|discriminate].
      injection L as ->. split; [reflexivity|].
      eapply Forall_impl; [exact Hd|]. cbn. intros e He. lia.
    + destruct H as [Ht _]. rewrite Ht in L. discriminate.
Qed.

Lemma step_debounced (now : Z) (i : Input) (s s' : State) :
  debounced s -> step now i s = Some s' -> debounced s'.
Proof.
  unfold step. intros Hs H.
  destruct (now <? clock s) eqn:C; [discriminate|]. apply Z.ltb_ge in C.
  eapply handle_debounced; [|exact H].
  destruct Hs as [Hf Hs]. unfold debounced.
  cbn [navigationInProgress timers dispatched clock]. split; [|exact Hs].
  destruct (navigationInProgress s); [exact Hf|].
  destruct Hf as [Ht Hd]. split; [exact Ht|].
  eapply Forall_impl; [exact Hd|]. cbn. intros e He. lia.
Qed.

Lemma run_debounced (trace : list (Z * Input)) : forall s s' : State,
  debounced s -> run trace s = Some s' -> debounced s'.
Proof.
  induction trace as [|[now i] trace IH]; intros s s' Hs H; cbn [run] in H.
  - now injection H as <-.
  - destruct (step now i s) as [s1|] eqn:E; [|discriminate].
    eapply IH; [|exact H]. eapply step_debounced; eassumption.
Qed.

Lemma strongly_sorted_lookup {A : Type} (R : A -> A -> Prop) (l : list A) :
  StronglySorted R l ->
  forall (i j : nat) (x y : A),
    (i < j)%nat -> l !! i = Some x -> l !! j = Some y -> R x y.
Proof.
  induction 1 as [|a l Hs IH Ha]; intros i j x y Hij Hi Hj.
  - discriminate.
  - destruct j as [|j]; [lia|]. destruct i as [|i].
    + injection Hi as ->. rewrite Forall_forall in Ha. apply Ha.
      eapply list_elem_of_lookup_2. exact Hj.
    + apply (IH i j); [lia|exact Hi|exact Hj].
Qed.

Lemma init_debounced : debounced init.
Proof. repeat constructor. Qed.

(** X28.  Navigation is debounced.  Whatever keys, clicks, segment ends,
    other dispatches and timers follow one another (timers firing no
    earlier than due, dispatches returning), any two navigation
    events that the page dispatches (SCENE_NAVIGATE from the arrow keys and
    the two buttons, AUTO_ADVANCE from the end of a segment) lie at least
    300 ms apart, and [navigationInProgress] is true exactly while one reset
    timer is pending: there is never a second timer, and the flag is never
    left up without a timer that will take it down. *)
Theorem navigation_events_are_300ms_apart
    (trace : list (Z * Input)) (s : State) :
  run trace init = Some s ->
  (forall (i j : nat) (t1 t2 : Z) (e1 e2 : AppEvent),
     (i < j)%nat ->
     dispatched s !! i = Some (t2, e2) ->
     dispatched s !! j = Some (t1, e1) ->
     t1 + 300 <= t2) /\
  length (timers s) = (if navigationInProgress s then 1%nat else 0%nat).
Proof.
  intros H. pose proof (run_debounced trace init s init_debounced H)
    as [Hf Hs].
  split.
  - intros i j t1 t2 e1 e2 Hij Hi Hj.
    exact (strongly_sorted_lookup _ _ Hs i j _ _ Hij Hi Hj).
  - destruct (navigationInProgress s).
    + destruct Hf as (due & -> & _). reflexivity.
    + destruct Hf as [-> _]. reflexivity.
Qed.

Lemma navigation_events_are_300ms_apart_witness :
  exists s,
    run [(0, Dispatch (PROJECT_LOADED 3)); (10, KeyDown "ArrowRight");
         (50, ClickNext); (320, TimerFires 0); (400, ClickNext)] init
    = Some s /\
    dispatched s = [(400, SCENE_NAVIGATE 1); (10, SCENE_NAVIGATE 1)] /\
    (forall (i j : nat) (t1 t2 : Z) (e1 e2 : AppEvent),
       (i < j)%nat ->
       dispatched s !! i = Some (t2, e2) ->
       dispatched s !! j = Some (t1, e1) ->
       t1 + 300 <= t2) /\
    length (timers s) = (if navigationInProgress s then 1%nat else 0%nat).
Proof.
  eexists. split; [vm_compute; reflexivity|]. split; [reflexivity|].
  apply (navigation_events_are_300ms_apart
           [(0, Dispatch (PROJECT_LOADED 3)); (10, KeyDown "ArrowRight");
            (50, ClickNext); (320, TimerFires 0); (400, ClickNext)]).
  vm_compute. reflexivity.
Defined.

End NavigationFacts.

(* ====================================================================== *)
(** * More on the audio requests *)
(* ====================================================================== *)

Module MainExtras.

Import AudioPlayer Main MainNotions.

Lemma stale_notCurrent (t : Token) (m : State) :
  currentAudioRequestId m <> Some t -> notCurrent m t = true.
Proof.
  unfold notCurrent. intros H.
  destruct (currentAudioRequestId m) as [c|]; [|reflexivity].
  destruct (String.eqb_spec c t) as [->|Hne]; [congruence|reflexivity].
Qed.

Lemma stale_update (t : Token) (m : State) (loading : bool)
    (ts : list Task) (tr : list Obs) (added : list Obs) :
  stale t m ->
  Forall (notPlaying t) ts ->
  tr = trace m ++ added ->
  Forall (fun o => obsToken o <> t) added ->
  stale t (update m (currentAudioRequestId m) loading ts tr) /\
  exists added',
    trace (update m (currentAudioRequestId m) loading ts tr)
    = trace m ++ added' /\
    Forall (fun o => obsToken o <> t) added'.
Proof.
  intros [Hc _] Hts -> Hall. split.
  - split; [exact Hc|exact Hts].
  - exists added. split; [reflexivity|exact Hall].
Qed.

Lemma step_stale (t : Token) (l : Label) (m m' : State) :
  truthy t = true ->
  stale t m -> notIssuing t l -> step l m = Some m' ->
  stale t m' /\
  exists added,
    trace m' = trace m ++ added /\ Forall (fun o => obsToken o <> t) added.
Proof.
  intros Ht Hs Hl H. pose proof Hs as [Hc Hts].
  assert (Hrest : forall i, Forall (notPlaying t) (delete i (tasks m)))
    by (intros i; now apply Forall_delete).
  assert (Hnil : trace m = trace m ++ []) by (now rewrite app_nil_r).
  destruct l as [i r a|i|i b|i o]; cbn [step] in H.
  - injection H as <-. cbn in Hl. unfold handleLoadSceneAudio.
    destruct (getScene m i) as [sc|].
    + split.
      * split; [cbn; congruence|].
        cbn [update tasks]. apply Forall_app. split; [exact Hts|].
        repeat constructor.
      * exists []. split; [exact Hnil|constructor].
    + split; [exact Hs|]. exists []. split; [exact Hnil|constructor].
  - destruct (tasks m !! i) as [[r sc a| |]|] eqn:L; try discriminate.
    injection H as <-. unfold timerFired.
    destruct (decide (r = t)) as [->|Hne].
    + rewrite (stale_notCurrent t m Hc).
      apply (stale_update t m _ _ _ []); auto.
    + destruct (notCurrent m r);
        [apply (stale_update t m _ _ _ []); auto|].
      unfold loadSceneAudio.
      destruct (cancelled m r);
        [apply (stale_update t m _ _ _ []); auto|].
      destruct (playable m sc) as [[clip path]|].
      * eapply stale_update; [exact Hs| |reflexivity|].
        -- apply Forall_app. split; [apply Hrest|repeat constructor].
        -- repeat constructor; cbn; exact Hne.
      * eapply stale_update; [exact Hs|apply Hrest|reflexivity|].
        repeat constructor; cbn; exact Hne.
  - destruct (tasks m !! i) as [[|r sc clip a|]|] eqn:L; try discriminate.
    injection H as <-. unfold afterLoad.
    destruct (decide (r = t)) as [->|Hne].
    + unfold cancelled. rewrite Ht, (stale_notCurrent t m Hc). cbn [andb].
      apply (stale_update t m _ _ _ []); auto.
    + destruct (cancelled m r);
        [apply (stale_update t m _ _ _ []); auto|].
      destruct b as [buf|].
      * eapply stale_update; [exact Hs| |reflexivity|].
        -- apply Forall_app. split; [apply Hrest|].
           repeat constructor. cbn. exact Hne.
        -- repeat constructor; cbn; exact Hne.
      * eapply stale_update; [exact Hs|apply Hrest|reflexivity|].
        repeat constructor; cbn; exact Hne.
  - destruct (tasks m !! i) as [[| |r sc clip]|] eqn:L; try discriminate.
    injection H as <-.
    assert (Hne : r <> t).
    { rewrite Forall_forall in Hts.
      apply (Hts (AfterPlay r sc clip)).
      eapply list_elem_of_lookup_2. exact L. }
    unfold afterPlay. destruct o.
    + eapply stale_update; [exact Hs|apply Hrest|reflexivity|].
      repeat constructor; cbn; exact Hne.
    + eapply stale_update; [exact Hs|apply Hrest|reflexivity|].
      repeat constructor; cbn; exact Hne.
Qed.

Lemma run_stale (t : Token) (sched : list Label) : forall m m' : State,
  truthy t = true ->
  stale t m -> Forall (notIssuing t) sched -> run sched m = Some m' ->
  exists added,
    trace m' = trace m ++ added /\ Forall (fun o => obsToken o <> t) added.
Proof.
  induction sched as [|l sched IH]; intros m m' Ht Hs Hl H; cbn [run] in H.
  - injection H as <-. exists []. split; [now rewrite app_nil_r|constructor].
  - apply Forall_cons in Hl as [Hl Hls].
    destruct (step l m) as [m1|] eqn:E; [|discriminate].
    destruct (step_stale t l m m1 Ht Hs Hl E) as [Hs1 (a1 & E1 & H1)].
    destruct (IH m1 m' Ht Hs1 Hls H) as (a2 & E2 & H2).
    exists (a1 ++ a2). split.
    + rewrite E2, E1. now rewrite app_assoc.
    + apply Forall_app. split; assumption.
Qed.

(** X29.  Cancellation works up to the call of playSegment and not beyond.
    A request with a non-empty id that is no longer the current one and has
    not yet called playSegment does nothing observable any more, however
    many requests follow and in whatever order timers, loads and plays
    finish: no status text, no dispatched event, no call on the audio
    player.  A request whose playSegment call is in flight is not checked
    again: when the call returns it dispatches AUDIO_STARTED and writes the
    status text, whichever request is current by then. *)
Theorem stale_request_stays_silent (t : Token) (m : State) :
  truthy t = true ->
  currentAudioRequestId m <> Some t ->
  (forall (sched : list Label) (m' : State),
     Forall (notPlaying t) (tasks m) ->
     Forall (notIssuing t) sched ->
     run sched m = Some m' ->
     exists added,
       trace m' = trace m ++ added /\
       Forall (fun o => obsToken o <> t) added) /\
  (forall (i : nat) (sc : Scene) (clip : Clip),
     tasks m !! i = Some (AfterPlay t sc clip) ->
     exists m',
       step (MPlayed i Fulfilled) m = Some m' /\
       trace m' = trace m ++ [Dispatched t EventSystem.AUDIO_STARTED;
                              SetStatus t PlayingLooped]).
Proof.
  intros Ht Hc. split.
  - intros sched m' Hts Hl H.
    apply (run_stale t sched m m' Ht); [split|..]; assumption.
  - intros i sc clip L. cbn [step]. rewrite L.
    eexists. split; reflexivity.
Qed.

Lemma stale_request_stays_silent_witness :
  (exists added,
     trace demoFinal
     = trace (default demoState
                (run [MEffect 2 "k3f9x0a1q"%string false;
                      MEffect 3 "z81mm2p0c"%string false] demoState))
         ++ added /\
     Forall (fun o => obsToken o <> "k3f9x0a1q"%string) added) /\
  (exists m',
     step (MPlayed 0 Fulfilled) lateState = Some m' /\
     trace m' = trace lateState
                ++ [Dispatched "k3f9x0a1q"%string EventSystem.AUDIO_STARTED;
                    SetStatus "k3f9x0a1q"%string PlayingLooped]).
Proof.
  split.
  - apply (stale_request_stays_silent "k3f9x0a1q"%string
             (default demoState
                (run [MEffect 2 "k3f9x0a1q"%string false;
                      MEffect 3 "z81mm2p0c"%string false] demoState)))
      with (sched := demoSchedule).
    + reflexivity.
    + vm_compute. discriminate.
    + vm_compute. repeat constructor.
    + repeat constructor.
    + vm_compute. reflexivity.
  - apply (stale_request_stays_silent "k3f9x0a1q"%string lateState)
      with (sc := demoScene 2 "b.wav"%string)
           (clip := demoClip "b.wav"%string).
    + reflexivity.
    + vm_compute. discriminate.
    + vm_compute. reflexivity.
Defined.

End MainExtras.

